(** * Inline grammar checker: analysis pipeline, cache and overlay rendering

    A shallow embedding of the JavaScript sources of the inline checker
    (AnalysisCache, TextAnalyzer, IssueDetector, AnalysisEngine,
    UnderlineRenderer), the properties of its specification stated on that
    embedding, and further properties of the operations: round trips,
    invariants, edge and error behaviour.  OverlayPositioner.js holds no
    statement outside line comments, so there is no positioner to embed.

    Conventions.  JavaScript numbers that the code uses as integers (indices,
    millisecond clock readings, counters) are [Z]; the similarity score of
    two hashes and the confidence of an issue are [Q].  Strings are [string]
    (one [ascii] per character, so the texts considered are those of 8-bit
    characters).
    [Date.now()] is an explicit argument [now] of every operation that reads
    the clock.  A JavaScript [Map] iterates in insertion order and keeps the
    position of a key that is set again, so it is an association list. *)

From Stdlib Require Import ZArith String Ascii List Bool Lia QArith Qminmax.
From Stdlib Require Import DecimalString.
Import ListNotations.
Local Open Scope string_scope.
Local Open Scope list_scope.
Local Open Scope Z_scope.

(* ====================================================================== *)
(** * JavaScript [Map] with string keys *)
(* ====================================================================== *)

Module JsMap.

Section Ops.
Context {V : Type}.

Definition t := list (string * V).

Fixpoint get (k : string) (m : t) : option V :=
  match m with
  | [] => None
  | (k', v) :: m' => if String.eqb k' k then Some v else get k m'
  end.

Definition has (k : string) (m : t) : bool :=
  match get k m with Some _ => true | None => false end.

(** [Map.prototype.set]: an existing key keeps its place in the iteration
    order, a new key goes last. *)
Fixpoint set (k : string) (v : V) (m : t) : t :=
  match m with
  | [] => [(k, v)]
  | (k', v') :: m' =>
      if String.eqb k' k then (k, v) :: m' else (k', v') :: set k v m'
  end.

Definition delete (k : string) (m : t) : t :=
  filter (fun p => negb (String.eqb (fst p) k)) m.

Definition keys (m : t) : list string := map fst m.

Definition size (m : t) : Z := Z.of_nat (length m).

End Ops.

Arguments t V : clear implicits.

Section Facts.
Context {V : Type}.
Implicit Types (m : t V) (k : string).

Lemma has_In k m : has k m = true <-> In k (keys m).
Proof.
  unfold has. induction m as [|[k' v] m IH]; simpl.
  - split; [discriminate | tauto].
  - destruct (String.eqb_spec k' k) as [->|Hne].
    + split; auto.
    + rewrite IH. split; [auto | intros [H|H]; [congruence | exact H]].
Qed.

Lemma has_false_notin k m : has k m = false <-> ~ In k (keys m).
Proof.
  rewrite <- has_In. destruct (has k m); split; congruence.
Qed.

Lemma keys_set_new k v m :
  has k m = false -> keys (set k v m) = keys m ++ [k].
Proof.
  unfold has. induction m as [|[k' v'] m IH]; simpl; [reflexivity|].
  destruct (String.eqb_spec k' k) as [->|Hne]; [discriminate|].
  intros H. simpl. now rewrite (IH H).
Qed.

Lemma keys_set_old k v m :
  has k m = true -> keys (set k v m) = keys m.
Proof.
  unfold has. induction m as [|[k' v'] m IH]; simpl; [discriminate|].
  destruct (String.eqb_spec k' k) as [->|Hne]; [reflexivity|].
  intros H. simpl. now rewrite (IH H).
Qed.

Lemma length_set_new k v m :
  has k m = false -> length (set k v m) = S (length m).
Proof.
  intros H. apply keys_set_new with (v := v) in H.
  apply (f_equal (@length _)) in H. unfold keys in H.
  rewrite length_app, !length_map in H. simpl in H. lia.
Qed.

Lemma length_set_old k v m :
  has k m = true -> length (set k v m) = length m.
Proof.
  intros H. apply keys_set_old with (v := v) in H.
  apply (f_equal (@length _)) in H. unfold keys in H.
  now rewrite !length_map in H.
Qed.

Lemma keys_delete k m :
  keys (delete k m) = filter (fun x => negb (String.eqb x k)) (keys m).
Proof.
  unfold keys, delete. induction m as [|[k' v] m IH]; simpl; [reflexivity|].
  destruct (String.eqb k' k); simpl; now rewrite IH.
Qed.

Lemma length_delete_le k m : (length (delete k m) <= length m)%nat.
Proof. apply filter_length_le. Qed.

Lemma length_delete_In k m :
  In k (keys m) -> (length (delete k m) < length m)%nat.
Proof.
  unfold keys, delete. induction m as [|[k' v] m IH]; simpl; [tauto|].
  destruct (String.eqb_spec k' k) as [->|Hne]; simpl.
  - intros _. pose proof (filter_length_le (fun p => negb (String.eqb (fst p) k)) m). lia.
  - intros [H|H]; [congruence|]. specialize (IH H). lia.
Qed.

Lemma filter_notin_id (k : string) (l : list string) :
  ~ In k l -> filter (fun x => negb (String.eqb x k)) l = l.
Proof.
  induction l as [|a l IH]; simpl; [reflexivity|].
  intros H. destruct (String.eqb_spec a k) as [->|Hne]; simpl.
  - exfalso. apply H. now left.
  - rewrite IH; [reflexivity | tauto].
Qed.

Lemma get_set_same k v m : get k (set k v m) = Some v.
Proof.
  induction m as [|[k' v'] m IH]; simpl.
  - now rewrite String.eqb_refl.
  - destruct (String.eqb_spec k' k) as [->|Hne]; simpl.
    + now rewrite String.eqb_refl.
    + destruct (String.eqb_spec k' k); [congruence | exact IH].
Qed.

Lemma get_set_other k k' v m : k' <> k -> get k' (set k v m) = get k' m.
Proof.
  intros Hne. induction m as [|[k0 v0] m IH]; simpl.
  - destruct (String.eqb_spec k k'); [congruence | reflexivity].
  - destruct (String.eqb_spec k0 k) as [->|Hne0]; simpl.
    + destruct (String.eqb_spec k k'); [congruence | reflexivity].
    + now rewrite IH.
Qed.

Lemma get_delete_same k m : get k (delete k m) = None.
Proof.
  unfold delete. induction m as [|[k' v] m IH]; simpl; [reflexivity|].
  destruct (String.eqb_spec k' k) as [->|Hne]; simpl; [exact IH|].
  destruct (String.eqb_spec k' k); [congruence | exact IH].
Qed.

Lemma get_delete_other k k' m : k' <> k -> get k' (delete k m) = get k' m.
Proof.
  intros Hne. unfold delete. induction m as [|[k0 v] m IH]; simpl; [reflexivity|].
  destruct (String.eqb_spec k0 k) as [->|Hne0]; simpl.
  - destruct (String.eqb_spec k k'); [congruence | exact IH].
  - now rewrite IH.
Qed.

Lemma get_None_notin k m : get k m = None <-> ~ In k (keys m).
Proof.
  rewrite <- has_false_notin. unfold has. destruct (get k m); split; congruence.
Qed.

Lemma get_In k v m : get k m = Some v -> In (k, v) m.
Proof.
  induction m as [|[k' v'] m IH]; simpl; [discriminate|].
  destruct (String.eqb_spec k' k) as [->|Hne].
  - intros H. inversion H; subst. now left.
  - intros H. right. now apply IH.
Qed.

(** In a map that holds every key once, an entry is what [get] returns. *)
Lemma In_get k v m : NoDup (keys m) -> In (k, v) m -> get k m = Some v.
Proof.
  induction m as [|[k' v'] m IH]; simpl; [tauto|].
  intros Hnd [H|H].
  - inversion H; subst. now rewrite String.eqb_refl.
  - inversion Hnd as [|? ? Hnotin Hnd']; subst.
    destruct (String.eqb_spec k' k) as [->|Hne].
    + exfalso. apply Hnotin. now apply (in_map fst) in H.
    + now apply IH.
Qed.

Lemma NoDup_keys_set k v m : NoDup (keys m) -> NoDup (keys (set k v m)).
Proof.
  intros H. destruct (has k m) eqn:E.
  - now rewrite keys_set_old.
  - rewrite keys_set_new by exact E. apply NoDup_app; [exact H | repeat constructor; simpl; tauto |].
    intros x Hx [<-|[]]. now apply has_false_notin in E.
Qed.

Lemma NoDup_keys_delete k m : NoDup (keys m) -> NoDup (keys (delete k m)).
Proof. intros H. rewrite keys_delete. now apply NoDup_filter. Qed.

End Facts.

End JsMap.

(* ====================================================================== *)
(** * The own keys of a JavaScript object *)
(* ====================================================================== *)

Module JsObject.

(** [Object.entries] lists the keys that are array indices (the decimal
    form of an integer from 0 to 2^32 - 2) first, in ascending order, and
    then the other keys in the order they were added. *)
Definition digitValue (c : ascii) : option Z :=
  let n := Z.of_N (N_of_ascii c) in
  if (48 <=? n) && (n <=? 57) then Some (n - 48) else None.

Fixpoint decimalValue (s : string) (acc : Z) : option Z :=
  match s with
  | EmptyString => Some acc
  | String c r =>
      match digitValue c with
      | Some d => decimalValue r (10 * acc + d)
      | None => None
      end
  end.

Definition arrayIndex (s : string) : option Z :=
  match s with
  | EmptyString => None
  | String c r =>
      if Ascii.eqb c "0" then (if String.eqb r "" then Some 0 else None)
      else match decimalValue s 0 with
           | Some v => if v <? 4294967295 then Some v else None
           | None => None
           end
  end.

Fixpoint insertIndexed {A} (v : Z) (a : A) (l : list (Z * A)) : list (Z * A) :=
  match l with
  | [] => [(v, a)]
  | (v', a') :: l' =>
      if v <? v' then (v, a) :: l else (v', a') :: insertIndexed v a l'
  end.

Definition objectEntries {A} (own : list (string * A)) : list (string * A) :=
  let indexed :=
    fold_left (fun acc ka =>
                 match arrayIndex (fst ka) with
                 | Some v => insertIndexed v ka acc
                 | None => acc
                 end) own [] in
  map snd indexed
  ++ filter (fun ka => match arrayIndex (fst ka) with Some _ => false | None => true end)
       own.

End JsObject.

(* ====================================================================== *)
(** * AnalysisCache (src/unnamed/part_006, class AnalysisCache) *)
(* ====================================================================== *)

Module AnalysisCache.

(** ** Hashing of texts into key components *)

(** [x & x] and [x << 5]: the operand is taken as a signed 32-bit integer. *)
Definition toInt32 (z : Z) : Z :=
  let m := z mod 4294967296 in
  if m >=? 2147483648 then m - 4294967296 else m.

Definition charCodeAt (c : ascii) : Z := Z.of_N (N_of_ascii c).

(** One round of the loop of [hashText]:
    [hash = ((hash << 5) - hash) + char; hash = hash & hash]. *)
Definition hashStep (hash : Z) (c : ascii) : Z :=
  toInt32 ((toInt32 (Z.shiftl hash 5) - hash) + charCodeAt c).

Definition digit36 (d : Z) : ascii :=
  if d <? 10 then ascii_of_N (Z.to_N (48 + d))
  else ascii_of_N (Z.to_N (97 + (d - 10))).

(** [Number.prototype.toString(36)] on a non-negative integer. *)
Fixpoint toString36_aux (fuel : nat) (z : Z) (acc : string) : string :=
  match fuel with
  | O => acc
  | S fuel' =>
      let acc' := String (digit36 (z mod 36)) acc in
      if z / 36 =? 0 then acc' else toString36_aux fuel' (z / 36) acc'
  end.

Definition toString36 (z : Z) : string := toString36_aux 64 z EmptyString.

Definition hashText (text : string) : string :=
  if (String.length text =? 0)%nat then toString36 0
  else toString36 (Z.abs (fold_left hashStep (list_ascii_of_string text) 0)).

Example hashText_abc : hashText "abc" = "22ci".
Proof. reflexivity. Qed.

(** [key.split('_')[0]]: the part of the key before the first underscore. *)
Fixpoint firstPart (key : string) : string :=
  match key with
  | EmptyString => EmptyString
  | String c rest =>
      if Ascii.eqb c "_"%char then EmptyString else String c (firstPart rest)
  end.

(** [extractTextHashFromKey]: [split] never returns an empty array, so the
    result is always the first part. *)
Definition extractTextHashFromKey (key : string) : option string :=
  Some (firstPart key).

(** Number of positions [i] at which both strings have the same character
    ([hash1[i] === hash2[i]] for [i] below the longer length: past the end of
    the shorter string one side is [undefined] and the test fails). *)
Fixpoint matches (h1 h2 : string) : Z :=
  match h1, h2 with
  | String a r1, String b r2 =>
      (if Ascii.eqb a b then 1 else 0) + matches r1 r2
  | _, _ => 0
  end.

Definition calculateSimilarity (hash1 hash2 : string) : Q :=
  if String.eqb hash1 hash2 then 1%Q
  else
    let maxLength :=
      Z.max (Z.of_nat (String.length hash1)) (Z.of_nat (String.length hash2)) in
    Qmake (matches hash1 hash2) (Z.to_pos maxLength).

(** ** Entries, statistics and the cache object *)

Section WithData.

(** The cached analysis results and the size estimate of [calculateSize]
    ([JSON.stringify(data).length * 2], or 1000 when that throws). *)
Variable data : Type.
Variable calculateSize : data -> Z.

Record entry := mkEntry {
  e_data : data;
  e_timestamp : Z;
  e_expires : Z;
  e_size : Z;
  e_accessCount : Z
}.

Record stats := mkStats {
  hits : Z;
  misses : Z;
  evictions : Z;
  invalidations : Z;
  persistenceLoads : Z;
  persistenceSaves : Z
}.

(** What [saveToPersistence] writes to the storage slot [persistKey] and
    [loadFromPersistence] reads back (after [JSON.parse]): the entries of
    the [cache] object in the order [Object.entries] lists them, and the
    statistics. *)
Record snapshot := mkSnapshot {
  snap_cache : list (string * entry);
  snap_stats : stats
}.

Record t := mkCache {
  maxSize : Z;
  maxAge : Z;
  enablePersistence : bool;
  cache : JsMap.t entry;
  accessOrder : JsMap.t Z;
  cstats : stats;
  (** the [localStorage] slot of this cache; [None] when it holds nothing
      (or nothing that parses) *)
  storage : option snapshot
}.

Definition with_maps (c : t) (m : JsMap.t entry) (a : JsMap.t Z) : t :=
  mkCache (maxSize c) (maxAge c) (enablePersistence c) m a (cstats c) (storage c).

Definition with_stats (c : t) (s : stats) : t :=
  mkCache (maxSize c) (maxAge c) (enablePersistence c) (cache c) (accessOrder c)
    s (storage c).

Definition with_storage (c : t) (st : option snapshot) : t :=
  mkCache (maxSize c) (maxAge c) (enablePersistence c) (cache c) (accessOrder c)
    (cstats c) st.

Definition inc_hits (s : stats) : stats :=
  mkStats (hits s + 1) (misses s) (evictions s) (invalidations s)
    (persistenceLoads s) (persistenceSaves s).
Definition inc_misses (s : stats) : stats :=
  mkStats (hits s) (misses s + 1) (evictions s) (invalidations s)
    (persistenceLoads s) (persistenceSaves s).
Definition inc_evictions (s : stats) : stats :=
  mkStats (hits s) (misses s) (evictions s + 1) (invalidations s)
    (persistenceLoads s) (persistenceSaves s).
Definition inc_invalidations (s : stats) : stats :=
  mkStats (hits s) (misses s) (evictions s) (invalidations s + 1)
    (persistenceLoads s) (persistenceSaves s).
Definition inc_persistenceLoads (s : stats) : stats :=
  mkStats (hits s) (misses s) (evictions s) (invalidations s)
    (persistenceLoads s + 1) (persistenceSaves s).
Definition inc_persistenceSaves (s : stats) : stats :=
  mkStats (hits s) (misses s) (evictions s) (invalidations s)
    (persistenceLoads s) (persistenceSaves s + 1).

Definition zero_stats : stats := mkStats 0 0 0 0 0 0.

(** [a || b] on numbers: [0] (like [undefined], here [None]) is falsy. *)
Definition num_or (a : option Z) (b : Z) : Z :=
  match a with
  | Some v => if v =? 0 then b else v
  | None => b
  end.

(** [isExpired]: [Date.now() > entry.expires]. *)
Definition isExpired (now : Z) (e : entry) : bool := now >? e_expires e.

(** ** Persistence.  [localStorage.setItem] is taken to succeed.  When it
    throws in the source, the slot keeps what it held, and on a
    [QuotaExceededError] the handler of [saveToPersistence] runs
    [clearExpiredEntries] on the two maps; neither is part of this
    definition, so what is proved of a cache with persistence on is proved
    for writes that succeed. *)

Definition saveToPersistence (c : t) : t :=
  let c' := with_storage c
              (Some (mkSnapshot (JsObject.objectEntries (cache c)) (cstats c))) in
  with_stats c' (inc_persistenceSaves (cstats c')).

Definition clearPersistence (c : t) : t := with_storage c None.

Definition restore_entry (now : Z) (c : t) (ke : string * entry) : t :=
  let (key, e) := ke in
  if e_expires e >? now
  then with_maps c (JsMap.set key e (cache c))
                   (JsMap.set key (e_timestamp e) (accessOrder c))
  else c.

Definition loadFromPersistence (now : Z) (c : t) : t :=
  match storage c with
  | None => c
  | Some snap =>
      let c1 := fold_left (restore_entry now) (snap_cache snap) c in
      let c2 := with_stats c1 (snap_stats snap) in
      with_stats c2 (inc_persistenceLoads (cstats c2))
  end.

(** The constructor: [options.maxSize || 100], [options.maxAge || 30 min],
    [options.enablePersistence !== false]; [stored] is what the storage slot
    holds when the cache is built. *)
Definition new (o_maxSize o_maxAge : option Z) (o_enablePersistence : bool)
    (stored : option snapshot) (now : Z) : t :=
  let c := mkCache (num_or o_maxSize 100) (num_or o_maxAge (30 * 60 * 1000))
             o_enablePersistence [] [] zero_stats stored in
  if o_enablePersistence then loadFromPersistence now c else c.

(** ** Operations *)

Definition get (key : string) (now : Z) (c : t) : option data * t :=
  match JsMap.get key (cache c) with
  | None => (None, with_stats c (inc_misses (cstats c)))
  | Some e =>
      if isExpired now e then
        let c1 := with_maps c (JsMap.delete key (cache c))
                              (JsMap.delete key (accessOrder c)) in
        (None, with_stats c1 (inc_misses (cstats c1)))
      else
        let e' := mkEntry (e_data e) (e_timestamp e) (e_expires e) (e_size e)
                    (num_or (Some (e_accessCount e)) 1 + 1) in
        let c1 := with_maps c (JsMap.set key e' (cache c))
                              (JsMap.set key now (accessOrder c)) in
        (Some (e_data e), with_stats c1 (inc_hits (cstats c1)))
  end.

(** The scan of [evictLRU]: the first key, in iteration order of
    [accessOrder], whose access time is strictly below every earlier one
    ([oldestTime] starts at [Infinity], here [None]). *)
Fixpoint oldest (l : list (string * Z)) (best : option (string * Z))
  : option (string * Z) :=
  match l with
  | [] => best
  | (key, accessTime) :: l' =>
      match best with
      | None => oldest l' (Some (key, accessTime))
      | Some (_, oldestTime) =>
          if accessTime <? oldestTime then oldest l' (Some (key, accessTime))
          else oldest l' best
      end
  end.

(** [if (oldestKey)]: [null] and the empty string are falsy. *)
Definition truthy_key (k : string) : bool := negb (String.eqb k "").

Definition evictLRU (c : t) : t :=
  if JsMap.size (cache c) =? 0 then c
  else
    match oldest (accessOrder c) None with
    | Some (oldestKey, _) =>
        if truthy_key oldestKey then
          let c1 := with_maps c (JsMap.delete oldestKey (cache c))
                                (JsMap.delete oldestKey (accessOrder c)) in
          with_stats c1 (inc_evictions (cstats c1))
        else c
    | None => c
    end.

Definition set (key : string) (d : data) (o_ttl : option Z) (now : Z) (c : t) : t :=
  let ttl := num_or o_ttl (maxAge c) in
  let e := mkEntry d now (now + ttl) (calculateSize d) 1 in
  let c1 :=
    if (JsMap.size (cache c) >=? maxSize c) && negb (JsMap.has key (cache c))
    then evictLRU c else c in
  let c2 := with_maps c1 (JsMap.set key e (cache c1))
                         (JsMap.set key now (accessOrder c1)) in
  if enablePersistence c2 then saveToPersistence c2 else c2.

Definition has (key : string) (now : Z) (c : t) : bool * t :=
  match JsMap.get key (cache c) with
  | None => (false, c)
  | Some e =>
      if isExpired now e
      then (false, with_maps c (JsMap.delete key (cache c))
                               (JsMap.delete key (accessOrder c)))
      else (true, c)
  end.

Definition delete (key : string) (c : t) : bool * t :=
  let existed := JsMap.has key (cache c) in
  let c1 := with_maps c (JsMap.delete key (cache c))
                        (JsMap.delete key (accessOrder c)) in
  (existed, if existed && enablePersistence c1 then saveToPersistence c1 else c1).

Definition clear (c : t) : t :=
  let c1 := with_maps c [] [] in
  if enablePersistence c1 then clearPersistence c1 else c1.

(** [keyTextHash && similarity > threshold]: an empty hash is falsy. *)
Definition toInvalidate (textHash : string) (threshold : Q) (key : string) : bool :=
  match extractTextHashFromKey key with
  | Some keyTextHash =>
      negb (String.eqb keyTextHash "")
      && negb (Qle_bool (calculateSimilarity textHash keyTextHash) threshold)
  | None => false
  end.

Definition invalidate_one (c : t) (key : string) : t :=
  let c1 := snd (delete key c) in
  with_stats c1 (inc_invalidations (cstats c1)).

Definition invalidateByText (text : string) (threshold : Q) (c : t) : t :=
  let textHash := hashText text in
  let keysToInvalidate :=
    filter (toInvalidate textHash threshold) (JsMap.keys (cache c)) in
  fold_left invalidate_one keysToInvalidate c.

(** [clearExpiredEntries], which the cleanup interval runs every five
    minutes: the keys whose entry has [expires <= now] are collected, then
    deleted from both maps; the storage slot is rewritten when any went. *)
Definition drop_key (c : t) (key : string) : t :=
  with_maps c (JsMap.delete key (cache c)) (JsMap.delete key (accessOrder c)).

Definition clearExpiredEntries (now : Z) (c : t) : t :=
  let expiredKeys :=
    JsMap.keys (filter (fun ke => e_expires (snd ke) <=? now) (cache c)) in
  let c1 := fold_left drop_key expiredKeys c in
  if negb (Nat.eqb (length expiredKeys) 0) && enablePersistence c1
  then saveToPersistence c1 else c1.

(** [generateKey], given the hash of the options object ([hashObject]
    serialises the options with sorted keys first). *)
Definition generateKey (text : string) (optionsHash : string) : string :=
  (hashText text ++ "_" ++ optionsHash)%string.

(** The number of entries the cache holds does not exceed [maxSize]. *)
Definition within_capacity (c : t) : Prop := JsMap.size (cache c) <= maxSize c.

(** ** Scenario of the LRU property: fill, touch the oldest, insert *)

(** One [set] per item, in order: [(key, data, clock reading)]. *)
Definition fill (items : list (string * data * Z)) (c : t) : t :=
  fold_left (fun c it => let '(k, d, now) := it in set k d None now c) items c.

Definition item_key (it : string * data * Z) : string := fst (fst it).
Definition item_time (it : string * data * Z) : Z := snd it.

(** The cache after: filling an empty cache of capacity [length items] with
    [items], reading the first key at time [g], and storing [knew] at time
    [s]. *)
Definition lru_scenario (persist : bool) (items : list (string * data * Z))
    (g : Z) (knew : string) (dnew : data) (s : Z) : t :=
  let c0 := new (Some (Z.of_nat (length items))) None persist None 0 in
  let c1 := fill items c0 in
  let k1 := match items with it :: _ => item_key it | [] => "" end in
  let c2 := snd (get k1 g c1) in
  set knew dnew None s c2.

(** The claim about that scenario: the second-oldest key is gone, the key
    that was read is still there, as are all the others and the new one. *)
Definition evicts_second_oldest (persist : bool) (items : list (string * data * Z))
    (g : Z) (knew : string) (dnew : data) (s : Z) : Prop :=
  match items with
  | it1 :: it2 :: rest =>
      JsMap.keys (cache (lru_scenario persist items g knew dnew s))
      = item_key it1 :: map item_key rest ++ [knew]
  | _ => False
  end.

End WithData.

Arguments mkEntry {data}.
Arguments e_data {data}.
Arguments e_timestamp {data}.
Arguments e_expires {data}.
Arguments e_size {data}.
Arguments e_accessCount {data}.
Arguments mkSnapshot {data}.
Arguments snap_stats {data}.
Arguments snap_cache {data}.
Arguments maxSize {data}.
Arguments maxAge {data}.
Arguments enablePersistence {data}.
Arguments cache {data}.
Arguments accessOrder {data}.
Arguments cstats {data}.
Arguments storage {data}.
Arguments within_capacity {data}.
Arguments new {data}.
Arguments get {data}.
Arguments set {data}.
Arguments has {data}.
Arguments delete {data}.
Arguments clear {data}.
Arguments evictLRU {data}.
Arguments invalidateByText {data}.
Arguments drop_key {data}.
Arguments clearExpiredEntries {data}.
Arguments loadFromPersistence {data}.
Arguments saveToPersistence {data}.
Arguments clearPersistence {data}.
Arguments restore_entry {data}.
Arguments invalidate_one {data}.
Arguments with_maps {data}.
Arguments with_stats {data}.
Arguments with_storage {data}.
Arguments isExpired {data}.
Arguments fill {data}.
Arguments item_key {data}.
Arguments item_time {data}.
Arguments lru_scenario {data}.
Arguments evicts_second_oldest {data}.

(** ** Facts about the operations *)

Section CacheFacts.
Context {data : Type} (calculateSize : data -> Z).
Implicit Types (c : t data) (key : string).

(** The two maps hold the same keys in the same order, no key is the empty
    string, and the capacity is at least one. *)
Definition synced c : Prop :=
  JsMap.keys (cache c) = JsMap.keys (accessOrder c)
  /\ ~ In "" (JsMap.keys (cache c))
  /\ 1 <= maxSize c.

Lemma has_synced c key :
  JsMap.keys (cache c) = JsMap.keys (accessOrder c) ->
  JsMap.has key (accessOrder c) = JsMap.has key (cache c).
Proof.
  intros H. destruct (JsMap.has key (cache c)) eqn:E.
  - apply JsMap.has_In. rewrite <- H. now apply JsMap.has_In.
  - apply JsMap.has_false_notin. rewrite <- H. now apply JsMap.has_false_notin.
Qed.

Lemma keys_set_sync {A B} key (a : A) (b : B) (m : JsMap.t A) (m' : JsMap.t B) :
  JsMap.keys m = JsMap.keys m' ->
  JsMap.keys (JsMap.set key a m) = JsMap.keys (JsMap.set key b m').
Proof.
  intros H. destruct (JsMap.has key m) eqn:E.
  - rewrite JsMap.keys_set_old by exact E.
    rewrite JsMap.keys_set_old; [exact H|].
    apply JsMap.has_In. rewrite <- H. now apply JsMap.has_In.
  - rewrite JsMap.keys_set_new by exact E.
    rewrite JsMap.keys_set_new; [now rewrite H|].
    apply JsMap.has_false_notin. rewrite <- H. now apply JsMap.has_false_notin.
Qed.

Lemma keys_delete_sync {A B} key (m : JsMap.t A) (m' : JsMap.t B) :
  JsMap.keys m = JsMap.keys m' ->
  JsMap.keys (JsMap.delete key m) = JsMap.keys (JsMap.delete key m').
Proof. intros H. now rewrite !JsMap.keys_delete, H. Qed.

Lemma In_keys_set {A} key k (a : A) (m : JsMap.t A) :
  In k (JsMap.keys (JsMap.set key a m)) -> k = key \/ In k (JsMap.keys m).
Proof.
  destruct (JsMap.has key m) eqn:E.
  - rewrite JsMap.keys_set_old by exact E. auto.
  - rewrite JsMap.keys_set_new by exact E. rewrite in_app_iff. simpl.
    intros [H|[H|[]]]; auto.
Qed.

Lemma In_keys_delete {A} key k (m : JsMap.t A) :
  In k (JsMap.keys (JsMap.delete key m)) -> In k (JsMap.keys m).
Proof. rewrite JsMap.keys_delete, filter_In. tauto. Qed.

Lemma size_delete_le {A} key (m : JsMap.t A) :
  JsMap.size (JsMap.delete key m) <= JsMap.size m.
Proof. unfold JsMap.size. pose proof (JsMap.length_delete_le key m). lia. Qed.

(** [oldest] returns a key of the list it scans, or the running best. *)
Lemma oldest_In l best k tm :
  oldest l best = Some (k, tm) -> In (k, tm) l \/ best = Some (k, tm).
Proof.
  revert best. induction l as [|[k' t'] l IH]; simpl; intros best H; [auto|].
  destruct best as [[kb tb]|].
  - destruct (t' <? tb); apply IH in H; destruct H as [H|H]; auto.
    inversion H; subst; auto.
  - apply IH in H. destruct H as [H|H]; auto. inversion H; subst; auto.
Qed.

Lemma oldest_Some l p : exists q, oldest l (Some p) = Some q.
Proof.
  revert p. induction l as [|[k' t'] l IH]; simpl; intros [kb tb]; [eauto|].
  destruct (t' <? tb); apply IH.
Qed.

(** A running best that no later entry undercuts is the result. *)
Lemma oldest_stable l k tm :
  Forall (fun p => tm <= snd p) l -> oldest l (Some (k, tm)) = Some (k, tm).
Proof.
  induction l as [|[k' t'] l IH]; simpl; intros H; [reflexivity|].
  inversion H as [|? ? Hle Hrest]; subst. simpl in Hle.
  destruct (Z.ltb_spec t' tm); [lia | now apply IH].
Qed.

Lemma oldest_nonempty (l : list (string * Z)) :
  l <> [] -> exists k tm, oldest l None = Some (k, tm) /\ In k (JsMap.keys l).
Proof.
  destruct l as [|[k0 t0] l]; [congruence|]. intros _. simpl.
  destruct (oldest_Some l (k0, t0)) as [[k tm] Hold]. exists k, tm.
  split; [exact Hold|]. apply oldest_In in Hold. destruct Hold as [H|H].
  - right. now apply (in_map fst) in H.
  - inversion H; subst. now left.
Qed.

Lemma evictLRU_shrinks c :
  synced c -> 0 < JsMap.size (cache c) ->
  synced (evictLRU c) /\ JsMap.size (cache (evictLRU c)) < JsMap.size (cache c).
Proof.
  intros (Hk & Hne & Hm) Hpos. unfold evictLRU.
  destruct (Z.eqb_spec (JsMap.size (cache c)) 0) as [E|_]; [lia|].
  assert (Hao : accessOrder c <> []).
  { intros E. rewrite E in Hk. unfold JsMap.size in Hpos.
    destruct (cache c); simpl in *; [lia | discriminate]. }
  destruct (oldest_nonempty _ Hao) as (k & tm & Hold & Hin). rewrite Hold.
  rewrite <- Hk in Hin.
  assert (Ht : truthy_key k = true).
  { unfold truthy_key. destruct (String.eqb_spec k ""); [subst; tauto | reflexivity]. }
  rewrite Ht. cbn [cache accessOrder with_stats with_maps maxSize]. split.
  - repeat split; cbn [cache accessOrder with_stats with_maps maxSize].
    + now apply keys_delete_sync.
    + intros H. apply In_keys_delete in H. tauto.
    + exact Hm.
  - unfold JsMap.size. pose proof (JsMap.length_delete_In k (cache c) Hin). lia.
Qed.

Lemma cache_saveToPersistence c : cache (saveToPersistence c) = cache c.
Proof. reflexivity. Qed.

Lemma maxSize_evictLRU c : maxSize (evictLRU c) = maxSize c.
Proof.
  unfold evictLRU. destruct (JsMap.size (cache c) =? 0); [reflexivity|].
  destruct (oldest (accessOrder c) None) as [[k tm]|]; [|reflexivity].
  destruct (truthy_key k); reflexivity.
Qed.

Lemma set_preserves c key d o_ttl now :
  key <> "" -> synced c -> within_capacity c ->
  synced (set calculateSize key d o_ttl now c)
  /\ within_capacity (set calculateSize key d o_ttl now c).
Proof.
  intros Hkey Hs Hcap. unfold set.
  set (c1 := if (JsMap.size (cache c) >=? maxSize c) && negb (JsMap.has key (cache c))
             then evictLRU c else c).
  assert (H1 : synced c1 /\ maxSize c1 = maxSize c
               /\ JsMap.size (cache c1) <= maxSize c
               /\ (JsMap.has key (cache c1) = false ->
                   JsMap.size (cache c1) < maxSize c)).
  { subst c1. unfold within_capacity in Hcap.
    destruct (Z.geb_spec (JsMap.size (cache c)) (maxSize c)) as [Hge|Hlt]; simpl.
    - destruct (JsMap.has key (cache c)) eqn:Eh; simpl.
      + repeat split; try apply Hs; try lia; intros; congruence.
      + destruct (evictLRU_shrinks c) as [Hs' Hlt']; [exact Hs | |].
        { destruct Hs as (_ & _ & Hm). lia. }
        repeat split; try apply Hs'; [apply maxSize_evictLRU | lia | lia].
    - repeat split; try apply Hs; lia. }
  clearbody c1. destruct H1 as ((Hk & Hne & Hm) & HM & Hle & Hroom).
  set (e := mkEntry d now (now + num_or o_ttl (maxAge c)) (calculateSize d) 1).
  set (c2 := with_maps c1 (JsMap.set key e (cache c1))
                          (JsMap.set key now (accessOrder c1))).
  assert (Hc : forall x, x = (if enablePersistence c2 then saveToPersistence c2 else c2) ->
     cache x = JsMap.set key e (cache c1)
     /\ accessOrder x = JsMap.set key now (accessOrder c1)
     /\ maxSize x = maxSize c).
  { intros x ->. destruct (enablePersistence c2); subst c2; cbn; auto. }
  specialize (Hc _ eq_refl). destruct Hc as (Hc & Ha & HMx).
  unfold synced, within_capacity. rewrite Hc, Ha, HMx. repeat split.
  - now apply keys_set_sync.
  - intros H. apply In_keys_set in H. destruct H as [H|H]; [congruence | tauto].
  - lia.
  - unfold JsMap.size in *. destruct (JsMap.has key (cache c1)) eqn:Eh.
    + rewrite JsMap.length_set_old by exact Eh. exact Hle.
    + rewrite JsMap.length_set_new by exact Eh. specialize (Hroom eq_refl). lia.
Qed.

(** What [set] leaves in the two maps, whether or not it persists. *)
Lemma set_maps c key d o_ttl now :
  let c1 := if (JsMap.size (cache c) >=? maxSize c) && negb (JsMap.has key (cache c))
            then evictLRU c else c in
  let e := mkEntry d now (now + num_or o_ttl (maxAge c)) (calculateSize d) 1 in
  cache (set calculateSize key d o_ttl now c) = JsMap.set key e (cache c1)
  /\ accessOrder (set calculateSize key d o_ttl now c)
     = JsMap.set key now (accessOrder c1)
  /\ maxSize (set calculateSize key d o_ttl now c) = maxSize c1
  /\ maxAge (set calculateSize key d o_ttl now c) = maxAge c1.
Proof.
  intros c1 e. unfold set. fold c1. fold e.
  destruct (enablePersistence _); cbn; auto.
Qed.

Lemma get_preserves c key now :
  synced c -> within_capacity c ->
  synced (snd (get key now c)) /\ within_capacity (snd (get key now c)).
Proof.
  intros (Hk & Hne & Hm) Hcap. unfold get, within_capacity in *.
  destruct (JsMap.get key (cache c)) as [e|] eqn:Eg;
    [destruct (isExpired now e)|]; cbn [snd]; unfold synced;
    cbn [cache accessOrder maxSize with_stats with_maps].
  - repeat split; [now apply keys_delete_sync | | exact Hm |].
    + intros H. apply In_keys_delete in H. tauto.
    + pose proof (size_delete_le key (cache c)). lia.
  - assert (Hh : JsMap.has key (cache c) = true) by (unfold JsMap.has; now rewrite Eg).
    repeat split; [now apply keys_set_sync | | exact Hm |].
    + rewrite JsMap.keys_set_old by exact Hh. exact Hne.
    + unfold JsMap.size. rewrite JsMap.length_set_old by exact Hh. exact Hcap.
  - repeat split; auto.
Qed.

Lemma delete_preserves c key :
  synced c ->
  synced (snd (delete key c))
  /\ maxSize (snd (delete key c)) = maxSize c
  /\ JsMap.size (cache (snd (delete key c))) <= JsMap.size (cache c).
Proof.
  intros (Hk & Hne & Hm). unfold delete. cbn [snd].
  set (c1 := with_maps c (JsMap.delete key (cache c)) (JsMap.delete key (accessOrder c))).
  assert (H : forall x, x = (if JsMap.has key (cache c) && enablePersistence c1
                              then saveToPersistence c1 else c1) ->
              cache x = cache c1 /\ accessOrder x = accessOrder c1
              /\ maxSize x = maxSize c1).
  { intros x ->. destruct (_ && _); cbn; auto. }
  destruct (H _ eq_refl) as (Hc & Ha & HM). unfold synced. rewrite Hc, Ha, HM.
  subst c1. cbn [cache accessOrder maxSize with_maps]. repeat split.
  - now apply keys_delete_sync.
  - intros H'. apply In_keys_delete in H'. tauto.
  - exact Hm.
  - apply size_delete_le.
Qed.

Lemma invalidate_preserves keysToInvalidate : forall c,
  synced c -> within_capacity c ->
  synced (fold_left invalidate_one keysToInvalidate c)
  /\ within_capacity (fold_left invalidate_one keysToInvalidate c).
Proof.
  induction keysToInvalidate as [|k l IH]; intros c Hs Hcap; simpl; [auto|].
  destruct (delete_preserves c k Hs) as (Hs' & HM & Hle).
  apply IH.
  - unfold invalidate_one. destruct Hs' as (H1 & H2 & H3). repeat split; assumption.
  - unfold invalidate_one, within_capacity in *.
    cbn [cache maxSize with_stats]. lia.
Qed.

Lemma drop_keys_preserve l : forall c,
  synced c -> within_capacity c ->
  synced (fold_left drop_key l c) /\ within_capacity (fold_left drop_key l c).
Proof.
  induction l as [|k l IH]; intros c Hs Hcap; simpl; [auto|].
  destruct Hs as (Hk & Hne & Hm). apply IH.
  - unfold synced, drop_key. cbn [cache accessOrder maxSize with_maps].
    repeat split; [now apply keys_delete_sync | | exact Hm].
    intros H. apply In_keys_delete in H. tauto.
  - unfold within_capacity, drop_key in *. cbn [cache maxSize with_maps].
    pose proof (size_delete_le k (cache c)). lia.
Qed.

Lemma clearExpiredEntries_maps now c :
  let expiredKeys :=
    JsMap.keys (filter (fun ke => e_expires (snd ke) <=? now) (cache c)) in
  cache (clearExpiredEntries now c) = cache (fold_left drop_key expiredKeys c)
  /\ accessOrder (clearExpiredEntries now c)
     = accessOrder (fold_left drop_key expiredKeys c)
  /\ maxSize (clearExpiredEntries now c) = maxSize (fold_left drop_key expiredKeys c).
Proof.
  intros expiredKeys. unfold clearExpiredEntries. fold expiredKeys.
  destruct (_ && _); cbn; auto.
Qed.

(** The operations of the cache as one type, for statements about "every
    operation". *)
Inductive op : Type :=
| OpGet (key : string) (now : Z)
| OpSet (key : string) (d : data) (o_ttl : option Z) (now : Z)
| OpHas (key : string) (now : Z)
| OpDelete (key : string)
| OpClear
| OpInvalidateByText (text : string) (threshold : Q)
| OpClearExpiredEntries (now : Z).

Definition run (o : op) (c : t data) : t data :=
  match o with
  | OpGet key now => snd (get key now c)
  | OpSet key d o_ttl now => set calculateSize key d o_ttl now c
  | OpHas key now => snd (has key now c)
  | OpDelete key => snd (delete key c)
  | OpClear => clear c
  | OpInvalidateByText text threshold => invalidateByText text threshold c
  | OpClearExpiredEntries now => clearExpiredEntries now c
  end.

(** Keys stored are never the empty string ([generateKey] always yields an
    underscore). *)
Definition key_ok (o : op) : Prop :=
  match o with OpSet key _ _ _ => key <> "" | _ => True end.

(** Each operation keeps a cache that is within its capacity within it. *)
Lemma run_preserves o c :
  key_ok o -> synced c -> within_capacity c ->
  synced (run o c) /\ within_capacity (run o c).
Proof.
  intros Hok Hs Hcap. destruct o; cbn [run key_ok] in *.
  - now apply get_preserves.
  - now apply set_preserves.
  - unfold has. destruct (JsMap.get key (cache c)) as [e|]; [|auto].
    destruct (isExpired now e); [|auto]. cbn [snd].
    destruct Hs as (Hk & Hne & Hm). unfold synced, within_capacity in *.
    cbn [cache accessOrder maxSize with_maps]. repeat split.
    + now apply keys_delete_sync.
    + intros H. apply In_keys_delete in H. tauto.
    + exact Hm.
    + pose proof (size_delete_le key (cache c)). lia.
  - destruct (delete_preserves c key Hs) as (Hs' & HM & Hle).
    split; [exact Hs'|]. unfold within_capacity in *. lia.
  - destruct Hs as (Hk & Hne & Hm). unfold clear.
    destruct (enablePersistence _); unfold synced, within_capacity; cbn;
      repeat split; try lia; tauto.
  - unfold invalidateByText. now apply invalidate_preserves.
  - destruct (clearExpiredEntries_maps now c) as (Hc & Ha & HM).
    destruct (drop_keys_preserve
                (JsMap.keys (filter (fun ke => e_expires (snd ke) <=? now) (cache c)))
                c Hs Hcap) as [(H1 & H2 & H3) H4].
    unfold synced, within_capacity in *. rewrite Hc, Ha, HM. auto.
Qed.

Lemma new_without_snapshot_within (o_maxSize o_maxAge : option Z) persist now :
  match o_maxSize with Some v => 0 <= v | None => True end ->
  synced (new o_maxSize o_maxAge persist None now)
  /\ within_capacity (new (data := data) o_maxSize o_maxAge persist None now).
Proof.
  intros Hv.
  assert (Hn : 1 <= num_or o_maxSize 100).
  { destruct o_maxSize as [v|]; simpl; [|lia].
    destruct (Z.eqb_spec v 0); lia. }
  unfold new, loadFromPersistence. cbn [storage].
  destruct persist; unfold synced, within_capacity; cbn; repeat split;
    try lia; tauto.
Qed.

(** ** The LRU scenario *)

Definition item_access (it : string * data * Z) : string * Z :=
  (item_key it, item_time it).

Lemma set_new_app {A} k (v : A) (m : JsMap.t A) :
  JsMap.has k m = false -> JsMap.set k v m = m ++ [(k, v)].
Proof.
  unfold JsMap.has. induction m as [|[k' v'] m IH]; simpl; [reflexivity|].
  destruct (String.eqb_spec k' k) as [->|Hne]; [discriminate|].
  intros H. now rewrite (IH H).
Qed.

(** A [set] into a cache with room evicts nothing. *)
Lemma set_room c key d now :
  JsMap.size (cache c) < maxSize c ->
  cache (set calculateSize key d None now c)
  = JsMap.set key (mkEntry d now (now + maxAge c) (calculateSize d) 1) (cache c)
  /\ accessOrder (set calculateSize key d None now c)
     = JsMap.set key now (accessOrder c)
  /\ maxSize (set calculateSize key d None now c) = maxSize c
  /\ maxAge (set calculateSize key d None now c) = maxAge c.
Proof.
  intros Hroom. destruct (set_maps c key d None now) as (Hc & Ha & HM & HA).
  assert (E : (JsMap.size (cache c) >=? maxSize c) = false)
    by (rewrite Z.geb_leb; apply Z.leb_gt; lia).
  rewrite E in Hc, Ha, HM, HA. cbn [andb num_or] in Hc, Ha, HM, HA. auto.
Qed.

Lemma fill_cons k d now items c :
  fill calculateSize ((k, d, now) :: items) c
  = fill calculateSize items (set calculateSize k d None now c).
Proof. reflexivity. Qed.

(** While there is room, [fill] only appends. *)
Lemma fill_no_eviction items : forall c,
  JsMap.keys (cache c) = JsMap.keys (accessOrder c) ->
  NoDup (JsMap.keys (cache c) ++ map item_key items) ->
  JsMap.size (cache c) + Z.of_nat (length items) <= maxSize c ->
  JsMap.keys (cache (fill calculateSize items c))
  = JsMap.keys (cache c) ++ map item_key items
  /\ accessOrder (fill calculateSize items c)
     = accessOrder c ++ map item_access items
  /\ maxSize (fill calculateSize items c) = maxSize c
  /\ (forall k, ~ In k (map item_key items) ->
        JsMap.get k (cache (fill calculateSize items c)) = JsMap.get k (cache c)).
Proof.
  induction items as [|[[k d] now] items IH]; intros c Hsync Hnd Hsz.
  - simpl. rewrite !app_nil_r. auto.
  - rewrite fill_cons.
    destruct (set_room c k d now) as (Hc & Ha & HM & _).
    { cbn [length] in Hsz. lia. }
    assert (Hk : ~ In k (JsMap.keys (cache c))).
    { cbn [map] in Hnd. apply NoDup_remove_2 in Hnd. rewrite in_app_iff in Hnd.
      unfold item_key in Hnd. tauto. }
    assert (Hh : JsMap.has k (cache c) = false) by now apply JsMap.has_false_notin.
    assert (Hh' : JsMap.has k (accessOrder c) = false) by now rewrite has_synced.
    set (c1 := set calculateSize k d None now c) in *.
    destruct (IH c1) as (IHk & IHa & IHM & IHg).
    + rewrite Hc, Ha. now apply keys_set_sync.
    + rewrite Hc, JsMap.keys_set_new by exact Hh.
      rewrite <- app_assoc. exact Hnd.
    + rewrite HM. unfold JsMap.size in *. rewrite Hc.
      rewrite JsMap.length_set_new by exact Hh. cbn [length] in Hsz. lia.
    + rewrite IHk, IHa, IHM, Hc, Ha, HM.
      rewrite JsMap.keys_set_new by exact Hh.
      rewrite (set_new_app k now _ Hh'). rewrite <- !app_assoc.
      repeat split; try reflexivity.
      intros k' Hk'. rewrite IHg.
      * rewrite Hc. apply JsMap.get_set_other. intros ->. apply Hk'. now left.
      * intros H. apply Hk'. now right.
Qed.

(** When the clock moves between the stores and the read, eviction does
    follow the access times.  Fill an empty cache to its capacity with
    distinct keys, read the oldest entry, then store one more new key.  If
    the clock reading of the read is strictly later than the reading at
    which the second-oldest entry was stored, no later entry was stored at
    an earlier reading than the second-oldest, and the oldest entry has not
    expired at the read, then the entry evicted is the second-oldest and the
    entry that was read stays. *)
Lemma lru_evicts_second_oldest_after_tick
  (persist : bool) (it1 it2 : string * data * Z) (rest : list (string * data * Z))
  (g : Z) (knew : string) (dnew : data) (s : Z) :
  NoDup (knew :: map item_key (it1 :: it2 :: rest)) ->
  item_key it2 <> "" ->
  item_time it2 < g ->
  Forall (fun it => item_time it2 <= item_time it) rest ->
  g <= item_time it1 + 30 * 60 * 1000 ->
  evicts_second_oldest calculateSize persist (it1 :: it2 :: rest) g knew dnew s.
Proof.
  intros Hnd Hk2 Htick Hmono Hfresh.
  unfold evicts_second_oldest, lru_scenario.
  set (n := Z.of_nat (length (it1 :: it2 :: rest))).
  assert (Hn : 2 <= n) by (subst n; cbn [length]; lia).
  set (c0 := new (Some n) None persist None 0).
  assert (H0 : cache c0 = [] /\ accessOrder c0 = [] /\ maxSize c0 = n
               /\ maxAge c0 = 30 * 60 * 1000).
  { subst c0. unfold new, loadFromPersistence. cbn [storage num_or].
    destruct (Z.eqb_spec n 0); [lia|]. destruct persist; cbn; auto. }
  destruct H0 as (H0c & H0a & H0M & H0A).
  destruct it1 as [[k1 d1] t1]. destruct it2 as [[k2 d2] t2].
  unfold item_key, item_time in *. cbn [fst snd map] in *.
  rewrite fill_cons.
  (* the first store *)
  destruct (set_room c0 k1 d1 t1) as (HAc & HAa & HAM & HAA).
  { rewrite H0c, H0M. unfold JsMap.size. cbn [length]. lia. }
  rewrite H0c, H0A in HAc. rewrite H0a in HAa. rewrite H0M in HAM.
  rewrite H0A in HAA. cbn [JsMap.set] in HAc, HAa.
  set (cA := set calculateSize k1 d1 None t1 c0) in *.
  (* the remaining stores *)
  inversion Hnd as [|? ? Hknew Hnd']; subst.
  inversion Hnd' as [|? ? Hk1 Hnd'']; subst.
  inversion Hnd'' as [|? ? Hk2r Hnd3]; subst.
  destruct (fill_no_eviction ((k2, d2, t2) :: rest) cA) as (HBk & HBa & HBM & HBg).
  { now rewrite HAc, HAa. }
  { rewrite HAc. cbn [JsMap.keys map fst app]. exact Hnd'. }
  { rewrite HAc, HAM. subst n. unfold JsMap.size. cbn [length]. lia. }
  rewrite fill_cons in HBk, HBa, HBM, HBg. rewrite fill_cons.
  set (cB := fill calculateSize rest (set calculateSize k2 d2 None t2 cA)) in *.
  rewrite HAc in HBk, HBg. rewrite HAa in HBa. rewrite HAM in HBM.
  cbn [JsMap.keys map fst app item_access] in HBk, HBa.
  unfold item_key, item_time in HBk, HBa. cbn [fst snd] in HBk, HBa.
  (* the read *)
  assert (Hget : JsMap.get k1 (cache cB)
                 = Some (mkEntry d1 t1 (t1 + 30 * 60 * 1000) (calculateSize d1) 1)).
  { rewrite HBg.
    - cbn [JsMap.get]. now rewrite String.eqb_refl.
    - exact Hk1. }
  unfold get. rewrite Hget. unfold isExpired. cbn [e_expires].
  assert (Hexp : (g >? t1 + 30 * 60 * 1000) = false) by (rewrite Z.gtb_ltb; apply Z.ltb_ge; lia).
  rewrite Hexp. cbn [snd].
  match goal with |- context [set _ _ _ _ _ ?x] => set (c2 := x) end.
  assert (H2k : JsMap.keys (cache c2) = k1 :: k2 :: map (fun it => fst (fst it)) rest).
  { subst c2. cbn [cache with_stats with_maps].
    rewrite JsMap.keys_set_old; [exact HBk|].
    unfold JsMap.has. now rewrite Hget. }
  assert (H2a : accessOrder c2 = (k1, g) :: (k2, t2) :: map item_access rest).
  { subst c2. cbn [accessOrder with_stats with_maps]. rewrite HBa.
    cbn [JsMap.set]. now rewrite String.eqb_refl. }
  assert (H2M : maxSize c2 = n) by (subst c2; cbn; exact HBM).
  (* the store of the new key *)
  destruct (set_maps c2 knew dnew None s) as (H3c & _).
  rewrite H3c. clear H3c.
  assert (Hsz2 : JsMap.size (cache c2) = n).
  { unfold JsMap.size. rewrite <- (length_map fst). fold (JsMap.keys (cache c2)).
    rewrite H2k. subst n. cbn [length]. now rewrite length_map. }
  assert (Hnew2 : JsMap.has knew (cache c2) = false).
  { apply JsMap.has_false_notin. rewrite H2k. exact Hknew. }
  rewrite Hsz2, H2M, Hnew2. rewrite (proj2 (Z.geb_le n n)) by lia. cbn [andb negb].
  assert (Hev : JsMap.keys (cache (evictLRU c2)) = k1 :: map (fun it => fst (fst it)) rest).
  { unfold evictLRU. rewrite Hsz2. destruct (Z.eqb_spec n 0); [lia|].
    rewrite H2a. cbn [oldest]. rewrite (proj2 (Z.ltb_lt t2 g)) by exact Htick.
    rewrite oldest_stable.
    - assert (Ht : truthy_key k2 = true).
      { unfold truthy_key. destruct (String.eqb_spec k2 ""); [congruence | reflexivity]. }
      rewrite Ht. cbn [cache with_stats with_maps].
      rewrite JsMap.keys_delete, H2k. cbn [filter].
      destruct (String.eqb_spec k1 k2) as [E|_].
      { exfalso. apply Hk1. left. now symmetry. }
      rewrite String.eqb_refl. cbn [negb]. f_equal.
      apply JsMap.filter_notin_id. exact Hk2r.
    - apply Forall_map. cbn [snd item_access]. exact Hmono. }
  rewrite JsMap.keys_set_new.
  - rewrite Hev. reflexivity.
  - apply JsMap.has_false_notin. rewrite Hev. intros [H|H].
    + apply Hknew. now left.
    + apply Hknew. right. now right.
Qed.

End CacheFacts.

(** ** Concrete runs *)

Ltac nodup_strings :=
  repeat (apply NoDup_cons; [simpl; intuition discriminate|]); apply NoDup_nil.

(** A run with a moving clock: three entries stored at readings 1, 2, 3,
    the oldest read at 5, a fourth key stored at 6. *)
Lemma lru_evicts_second_oldest_after_tick_witness :
  evicts_second_oldest (fun _ : unit => 4) false
    [("a", tt, 1); ("b", tt, 2); ("c", tt, 3)] 5 "d" tt 6.
Proof.
  apply (lru_evicts_second_oldest_after_tick (fun _ : unit => 4) false
           ("a", tt, 1) ("b", tt, 2) [("c", tt, 3)] 5 "d" tt 6).
  - nodup_strings.
  - discriminate.
  - reflexivity.
  - repeat constructor. discriminate.
  - discriminate.
Defined.

(** With two entries and one clock reading for everything, the access
    times tie, the scan keeps the first key in iteration order, and that is
    the entry that was just read. *)
Example lru_same_tick_keys :
  JsMap.keys (cache (lru_scenario (fun _ : unit => 4) false
                       [("a", tt, 0); ("b", tt, 0)] 0 "c" tt 0))
  = ["b"; "c"].
Proof. reflexivity. Qed.

(** The run of the cache's own test of eviction ('should evict least
    recently used items'): a cache built with [maxSize: 5], [maxAge: 1000]
    and persistence on over an empty storage; [key_0] to [key_4] stored, then
    [key_0] read, then [key_new] stored.  The test is synchronous, so every
    call reads the same clock value [now].  The stored values are given by
    their JSON text (with ' standing for the double quote), whose length
    [calculateSize] doubles. *)
Definition jsonSize (json : string) : Z := 2 * Z.of_nat (String.length json).

Definition lruTestItems (now : Z) : list (string * string * Z) :=
  [("key_0", "{'data':0}", now); ("key_1", "{'data':1}", now);
   ("key_2", "{'data':2}", now); ("key_3", "{'data':3}", now);
   ("key_4", "{'data':4}", now)].

Definition lruTestRun (now : Z) : t string :=
  let c0 := new (Some 5) (Some 1000) true None now in
  let c1 := fill jsonSize (lruTestItems now) c0 in
  let c2 := snd (get "key_0" now c1) in
  set jsonSize "key_new" "{'data':'new'}" None now c2.

(** C4 (code defect).  In the run of the cache's own eviction test, with
    every call inside one millisecond, the read of [key_0] does return its
    entry, yet the store of [key_new] evicts [key_0], the entry just read,
    and keeps [key_1], the second-oldest: the access times tie and the scan
    of [evictLRU] keeps the first key of the iteration. *)
Theorem lru_same_tick_evicts_read_entry (now : Z) :
  let filled := fill jsonSize (lruTestItems now)
                  (new (Some 5) (Some 1000) true None now) in
  fst (get "key_0" now filled) = Some "{'data':0}"
  /\ JsMap.keys (cache (lruTestRun now))
     = ["key_1"; "key_2"; "key_3"; "key_4"; "key_new"]
  /\ fst (get "key_0" now (lruTestRun now)) = None
  /\ fst (get "key_1" now (lruTestRun now)) = Some "{'data':1}".
Proof.
  assert (Hexp : (now >? now + 1000) = false)
    by (rewrite Z.gtb_ltb; apply Z.ltb_ge; lia).
  cbv zeta. unfold lruTestRun.
  remember (fill jsonSize (lruTestItems now) (new (Some 5) (Some 1000) true None now))
    as filled eqn:Hf.
  cbv -[Z.add] in Hf.
  remember (get "key_0" now filled) as g eqn:Hg.
  rewrite Hf in Hg. cbv -[Z.add Z.gtb Z.ltb] in Hg. rewrite Hexp in Hg.
  remember (set jsonSize "key_new" "{'data':'new'}" None now (snd g)) as c3 eqn:H3.
  rewrite Hg in H3. cbv -[Z.add Z.gtb Z.ltb] in H3.
  rewrite !Z.ltb_irrefl in H3.
  split; [rewrite Hg; reflexivity|].
  split; [rewrite H3; reflexivity|].
  split; [rewrite H3; reflexivity|].
  rewrite H3. cbv -[Z.add Z.gtb Z.ltb]. rewrite Hexp. reflexivity.
Qed.

(** A snapshot with three live entries, as a cache of capacity 100 (the
    default) would have saved it under the same storage key. *)
Definition three_entries : snapshot unit :=
  mkSnapshot
    [("k1_o", mkEntry tt 0 1000 4 1);
     ("k2_o", mkEntry tt 0 1000 4 1);
     ("k3_o", mkEntry tt 0 1000 4 1)]
    (zero_stats).

(** C7 (code defect).  A cache built with capacity 2 over a stored snapshot
    of three unexpired entries holds three entries: [loadFromPersistence]
    restores every unexpired entry and never looks at [maxSize]. *)
Theorem load_exceeds_capacity :
  let c := new (Some 2) None true (Some three_entries) 10 in
  JsMap.size (cache c) = 3 /\ maxSize c = 2 /\ ~ within_capacity c.
Proof.
  cbv zeta. split; [reflexivity|]. split; [reflexivity|].
  unfold within_capacity. vm_compute. intros H. now apply H.
Qed.

(** Once over capacity the cache stays over it: [set] evicts one entry for
    each entry it adds. *)
Example overfull_stays_overfull :
  let c := new (Some 2) None true (Some three_entries) 10 in
  JsMap.size (cache (set (fun _ : unit => 4) "k4_o" tt None 20 c)) = 3.
Proof. reflexivity. Qed.

(** ** Behaviour of the operations *)

Section CacheBehaviour.
Context {data : Type} (calculateSize : data -> Z).
Implicit Types (c : t data) (key : string).

Lemma get_set_fst c key d o_ttl now now' :
  fst (get key now' (set calculateSize key d o_ttl now c))
  = if now' >? now + num_or o_ttl (maxAge c) then None else Some d.
Proof.
  destruct (set_maps calculateSize c key d o_ttl now) as (Hc & _).
  cbv zeta in Hc. unfold get. rewrite Hc, JsMap.get_set_same.
  unfold isExpired. cbn [e_expires e_data].
  destruct (_ >? _); reflexivity.
Qed.

(** An entry stored by [set] is returned by [get] under the same key up to
    and including the clock reading at which it expires, and never after;
    this holds whatever the cache held before, also when the [set] had to
    evict. *)
Theorem get_after_set c key d o_ttl now now' :
  fst (get key now' (set calculateSize key d o_ttl now c))
  = if now' >? now + num_or o_ttl (maxAge c) then None else Some d.
Proof. apply get_set_fst. Qed.

(** On a cache with persistence off (no write to the storage slot, so no
    failure of it either), storing under a key the cache already holds
    never evicts: the keys and their order stay, every other entry stays,
    and the eviction counter does not move, also when the cache is full. *)
Theorem set_existing_never_evicts c key d o_ttl now :
  enablePersistence c = false ->
  JsMap.has key (cache c) = true ->
  JsMap.keys (cache (set calculateSize key d o_ttl now c)) = JsMap.keys (cache c)
  /\ evictions (cstats (set calculateSize key d o_ttl now c)) = evictions (cstats c)
  /\ (forall k, k <> key ->
        JsMap.get k (cache (set calculateSize key d o_ttl now c))
        = JsMap.get k (cache c)).
Proof.
  intros Hp Hh. unfold set. rewrite Hh. cbn [negb]. rewrite andb_false_r.
  cbn [enablePersistence with_maps]. rewrite Hp. cbn [cache cstats with_maps].
  repeat split.
  - now apply JsMap.keys_set_old.
  - intros k Hk. now apply JsMap.get_set_other.
Qed.

(** On a cache with persistence off, [delete] reports whether the key was
    held, removes that key and nothing else: a later [get] of it misses, and
    every other entry is untouched. *)
Theorem delete_removes_only_key c key now :
  enablePersistence c = false ->
  fst (delete key c) = JsMap.has key (cache c)
  /\ fst (get key now (snd (delete key c))) = None
  /\ (forall k, k <> key ->
        JsMap.get k (cache (snd (delete key c))) = JsMap.get k (cache c)).
Proof.
  intros Hp.
  assert (Hc : cache (snd (delete key c)) = JsMap.delete key (cache c)).
  { unfold delete. cbn [snd enablePersistence with_maps]. rewrite Hp.
    now rewrite andb_false_r. }
  split; [reflexivity|]. split.
  - unfold get. now rewrite Hc, JsMap.get_delete_same.
  - intros k Hk. rewrite Hc. now apply JsMap.get_delete_other.
Qed.

(** ** Sequences of operations on a cache built without a stored snapshot *)

Definition runAll (ops : list (op (data := data))) c : t data :=
  fold_left (fun c o => run calculateSize o c) ops c.

Lemma runAll_preserves ops : forall c,
  Forall key_ok ops -> synced c -> within_capacity c ->
  synced (runAll ops c) /\ within_capacity (runAll ops c).
Proof.
  induction ops as [|o ops IH]; intros c Hok Hs Hcap; simpl; [auto|].
  inversion Hok as [|? ? Ho Hrest]; subst.
  destruct (run_preserves calculateSize o c Ho Hs Hcap) as [Hs' Hcap'].
  now apply IH.
Qed.

(** The capacity bound.  A cache built with nothing in its storage slot
    holds at most [maxSize] entries after any sequence of [get], [set],
    [has], [delete], [clear], [invalidateByText] and [clearExpiredEntries],
    as long as no entry is stored under the empty key. *)
Theorem operations_keep_capacity (o_maxSize o_maxAge : option Z) (persist : bool)
    (now : Z) (ops : list op) :
  match o_maxSize with Some v => 0 <= v | None => True end ->
  Forall key_ok ops ->
  within_capacity (runAll ops (new o_maxSize o_maxAge persist None now)).
Proof.
  intros Hv Hok.
  destruct (new_without_snapshot_within (data := data) o_maxSize o_maxAge persist
              now Hv) as [Hs Hcap].
  now apply runAll_preserves.
Qed.

(** The number of [get] calls among operations. *)
Definition countGets (ops : list (op (data := data))) : Z :=
  Z.of_nat (length (filter (fun o => match o with OpGet _ _ => true | _ => false end) ops)).

Definition lookups c : Z := hits (cstats c) + misses (cstats c).

Lemma lookups_fold_invalidate l : forall c,
  lookups (fold_left invalidate_one l c) = lookups c.
Proof.
  induction l as [|k l IH]; intros c; simpl; [reflexivity|].
  rewrite IH. unfold invalidate_one, delete, lookups. cbn [snd].
  destruct (_ && _); reflexivity.
Qed.

Lemma lookups_fold_drop l : forall c,
  lookups (fold_left drop_key l c) = lookups c.
Proof. induction l as [|k l IH]; intros c; simpl; [reflexivity | now rewrite IH]. Qed.

Lemma lookups_run o c :
  lookups (run calculateSize o c)
  = lookups c + match o with OpGet _ _ => 1 | _ => 0 end.
Proof.
  destruct o; cbn [run].
  - unfold get, lookups. destruct (JsMap.get key (cache c)) as [e|];
      [destruct (isExpired now e)|]; cbn; lia.
  - unfold set, lookups.
    set (c1 := if (JsMap.size (cache c) >=? maxSize c)
                  && negb (JsMap.has key (cache c))
               then evictLRU c else c).
    assert (H1 : cstats c1 = cstats c \/ cstats c1 = inc_evictions (cstats c)).
    { subst c1. destruct (_ && _); [|now left]. unfold evictLRU.
      destruct (_ =? 0); [now left|].
      destruct (oldest _ _) as [[k tm]|]; [|now left].
      destruct (truthy_key k); [now right | now left]. }
    clearbody c1. destruct (enablePersistence _); cbn;
      destruct H1 as [-> | ->]; cbn; lia.
  - unfold has, lookups. destruct (JsMap.get key (cache c)) as [e|];
      [destruct (isExpired now e)|]; cbn; lia.
  - unfold delete, lookups. cbn [snd]. destruct (_ && _); cbn; lia.
  - unfold clear, lookups. destruct (enablePersistence _); cbn; lia.
  - unfold invalidateByText. rewrite lookups_fold_invalidate. lia.
  - unfold clearExpiredEntries.
    set (l := JsMap.keys _).
    assert (H : lookups (fold_left drop_key l c) = lookups c)
      by apply lookups_fold_drop.
    destruct (_ && _); [|lia]. unfold lookups in *. cbn in *. lia.
Qed.

(** The counters of hits and misses count the [get] calls, and only those:
    on a cache built with nothing in its storage slot, after any sequence
    of operations [hits + misses] is the number of [get] calls in it. *)
Theorem lookups_count_gets (o_maxSize o_maxAge : option Z) (persist : bool)
    (now : Z) (ops : list op) :
  lookups (runAll ops (new o_maxSize o_maxAge persist None now)) = countGets ops.
Proof.
  assert (H : forall ops c, lookups (runAll ops c) = lookups c + countGets ops).
  { clear. intros ops. unfold runAll, countGets.
    induction ops as [|o ops IH]; intros c; simpl; [lia|].
    rewrite IH, lookups_run. destruct o; simpl; lia. }
  rewrite H. unfold new, loadFromPersistence, lookups.
  destruct persist; cbn; lia.
Qed.

(** ** Eviction *)

(** What the scan of [evictLRU] settles on: either the running best, which
    nothing later undercuts, or a later entry that undercuts everything
    before it and is undercut by nothing after it. *)
Lemma oldest_split (l : list (string * Z)) : forall kb tb k tm,
  oldest l (Some (kb, tb)) = Some (k, tm) ->
  ((k, tm) = (kb, tb) /\ Forall (fun p => tb <= snd p) l)
  \/ (exists l1 l2, l = l1 ++ (k, tm) :: l2 /\ tm < tb
         /\ Forall (fun p => tm < snd p) l1 /\ Forall (fun p => tm <= snd p) l2).
Proof.
  induction l as [|[k' t'] l IH]; intros kb tb k tm H; simpl in H.
  - inversion H; subst. left. split; [reflexivity | constructor].
  - destruct (Z.ltb_spec t' tb) as [Hlt|Hge].
    + right. destruct (IH _ _ _ _ H) as [[E Hall]|(l1 & l2 & -> & Hlt' & H1 & H2)].
      * inversion E; subst. exists [], l. repeat split; auto.
      * exists ((k', t') :: l1), l2. repeat split; auto; try lia;
          try (constructor; [simpl; lia | exact H1]).
    + destruct (IH _ _ _ _ H) as [[E Hall]|(l1 & l2 & -> & Hlt' & H1 & H2)].
      * left. split; [exact E|]. constructor; [simpl; lia | exact Hall].
      * right. exists ((k', t') :: l1), l2. repeat split; auto; try lia;
          try (constructor; [simpl; lia | exact H1]).
Qed.

(** [evictLRU] on a cache that holds something removes one key from both
    maps: a key whose last access is the earliest, and among keys whose
    last accesses tie at that reading, the one that comes first in insertion
    order.  The eviction counter goes up by one. *)
Theorem evictLRU_removes_least_recent c :
  synced c -> 0 < JsMap.size (cache c) ->
  exists k tm l1 l2,
    accessOrder c = l1 ++ (k, tm) :: l2
    /\ Forall (fun p => tm < snd p) l1
    /\ Forall (fun p => tm <= snd p) l2
    /\ cache (evictLRU c) = JsMap.delete k (cache c)
    /\ accessOrder (evictLRU c) = JsMap.delete k (accessOrder c)
    /\ evictions (cstats (evictLRU c)) = evictions (cstats c) + 1.
Proof.
  intros (Hk & Hne & Hm) Hpos.
  assert (Hcase : exists k tm l1 l2,
             accessOrder c = l1 ++ (k, tm) :: l2
             /\ Forall (fun p => tm < snd p) l1
             /\ Forall (fun p => tm <= snd p) l2
             /\ oldest (accessOrder c) None = Some (k, tm)).
  { destruct (accessOrder c) as [|[k0 t0] l] eqn:Ea.
    - unfold JsMap.size in Hpos. destruct (cache c); simpl in *; [lia | discriminate].
    - simpl. destruct (oldest_Some l (k0, t0)) as [[k tm] Hold]. rewrite Hold.
      destruct (oldest_split l _ _ _ _ Hold) as [[E Hall]|(l1 & l2 & -> & Hlt & H1 & H2)].
      + inversion E; subst. exists k0, t0, [], l. repeat split; auto.
      + exists k, tm, ((k0, t0) :: l1), l2. repeat split; auto; try lia;
          try (constructor; [simpl; lia | exact H1]). }
  destruct Hcase as (k & tm & l1 & l2 & Ha & H1 & H2 & Hold).
  exists k, tm, l1, l2. repeat split; auto.
  all: unfold evictLRU;
    destruct (Z.eqb_spec (JsMap.size (cache c)) 0) as [E|_]; [lia|];
    rewrite Hold;
    assert (Ht : truthy_key k = true)
      by (unfold truthy_key; destruct (String.eqb_spec k ""); [|reflexivity];
          subst; exfalso; apply Hne; rewrite Hk, Ha; unfold JsMap.keys;
          rewrite map_app, in_app_iff; right; now left);
    rewrite Ht; reflexivity.
Qed.

(** ** Keys and invalidation *)

Fixpoint noUnderscore (s : string) : bool :=
  match s with
  | EmptyString => true
  | String c r => negb (Ascii.eqb c "_"%char) && noUnderscore r
  end.

Lemma digit36_plain (z : Z) : Ascii.eqb (digit36 (z mod 36)) "_"%char = false.
Proof.
  pose proof (Z.mod_pos_bound z 36 ltac:(lia)) as Hb.
  assert (H : exists n, (n < 36)%nat /\ z mod 36 = Z.of_nat n).
  { exists (Z.to_nat (z mod 36)). lia. }
  destruct H as (n & Hn & ->).
  do 36 (destruct n as [|n]; [reflexivity|]). lia.
Qed.

Lemma toString36_aux_plain fuel : forall z acc,
  noUnderscore acc = true -> noUnderscore (toString36_aux fuel z acc) = true.
Proof.
  induction fuel as [|fuel IH]; intros z acc Hacc; simpl; [exact Hacc|].
  assert (H : noUnderscore (String (digit36 (z mod 36)) acc) = true).
  { simpl. now rewrite digit36_plain, Hacc. }
  destruct (z / 36 =? 0); [exact H | now apply IH].
Qed.

Lemma toString36_aux_nonempty fuel : forall z acc,
  acc <> "" -> toString36_aux fuel z acc <> "".
Proof.
  induction fuel as [|fuel IH]; intros z acc Hacc; simpl; [exact Hacc|].
  destruct (z / 36 =? 0); [discriminate | apply IH; discriminate].
Qed.

Lemma toString36_aux_nonempty_S fuel z acc : toString36_aux (S fuel) z acc <> "".
Proof.
  cbn [toString36_aux].
  destruct (_ =? 0); [discriminate | apply toString36_aux_nonempty; discriminate].
Qed.

Lemma toString36_plain (z : Z) :
  noUnderscore (toString36 z) = true /\ toString36 z <> "".
Proof.
  unfold toString36. split; [now apply toString36_aux_plain|].
  exact (toString36_aux_nonempty_S 63 z "").
Qed.

(** A text hash is a non-empty run of base-36 digits. *)
Lemma hashText_plain (text : string) :
  noUnderscore (hashText text) = true /\ hashText text <> "".
Proof. unfold hashText. destruct (_ =? _)%nat; apply toString36_plain. Qed.

Lemma firstPart_append (h r : string) :
  noUnderscore h = true -> firstPart (h ++ String "_"%char r) = h.
Proof.
  induction h as [|a h IH]; cbn [append firstPart noUnderscore].
  - reflexivity.
  - intros H. apply andb_prop in H. destruct H as [Ha Hh].
    destruct (Ascii.eqb a "_"%char); [discriminate|]. now rewrite IH.
Qed.

Lemma key_hash (text optionsHash : string) :
  firstPart (generateKey text optionsHash) = hashText text.
Proof.
  unfold generateKey.
  change ("_" ++ optionsHash)%string with (String "_"%char optionsHash).
  apply firstPart_append, hashText_plain.
Qed.

(** The key of a text names the text: the text hash that
    [extractTextHashFromKey] reads off a key made by [generateKey] is the
    hash of the text the key was made for, whatever the options hash. *)
Theorem key_names_its_text (text optionsHash : string) :
  extractTextHashFromKey (generateKey text optionsHash) = Some (hashText text).
Proof. unfold extractTextHashFromKey. now rewrite key_hash. Qed.

Lemma invalidated_gone (K : string) (l : list string) : forall c,
  (In K (JsMap.keys (cache c)) -> In K l) ->
  ~ In K (JsMap.keys (cache (fold_left invalidate_one l c))).
Proof.
  induction l as [|k l IH]; intros c H; simpl; [tauto|].
  apply IH. unfold invalidate_one, delete. cbn [snd cache with_stats].
  assert (Hc : forall x : t data,
             cache (if JsMap.has k (cache c) && enablePersistence x
                    then saveToPersistence x else x) = cache x).
  { intros x. destruct (_ && _); reflexivity. }
  rewrite Hc. cbn [cache with_maps]. rewrite JsMap.keys_delete, filter_In.
  intros [Hin Hneq]. destruct (H Hin) as [->|Hl]; [|exact Hl].
  rewrite String.eqb_refl in Hneq. discriminate.
Qed.

(** [invalidateByText] with a threshold below 1 (the default is 0.8) removes
    every entry stored for the same text, under whatever options: afterwards
    [get] misses on each key that [generateKey] makes for that text. *)
Theorem invalidateByText_same_text c (text : string) (threshold : Q)
    (optionsHash : string) (now : Z) :
  (threshold < 1)%Q ->
  fst (get (generateKey text optionsHash) now (invalidateByText text threshold c))
  = None.
Proof.
  intros Hthr. set (K := generateKey text optionsHash).
  assert (Hinv : toInvalidate (hashText text) threshold K = true).
  { unfold toInvalidate, K, extractTextHashFromKey. rewrite key_hash.
    destruct (hashText_plain text) as [_ Hne].
    destruct (String.eqb_spec (hashText text) ""); [congruence|].
    unfold calculateSimilarity. rewrite String.eqb_refl. cbn [negb andb].
    destruct (Qle_bool 1 threshold) eqn:E; [|reflexivity].
    apply Qle_bool_iff in E. exfalso. now apply (Qlt_not_le _ _ Hthr). }
  assert (Hgone : ~ In K (JsMap.keys (cache (invalidateByText text threshold c)))).
  { unfold invalidateByText. apply invalidated_gone. intros Hin.
    apply filter_In. split; [exact Hin | exact Hinv]. }
  apply JsMap.get_None_notin in Hgone. unfold get. now rewrite Hgone.
Qed.

(** ** Similarity of hashes *)

Lemma matches_bounds (h1 h2 : string) :
  0 <= matches h1 h2
  /\ matches h1 h2 <= Z.of_nat (Nat.min (String.length h1) (String.length h2)).
Proof.
  revert h2. induction h1 as [|a r1 IH]; intros [|b r2]; simpl; try lia.
  destruct (IH r2) as [H0 H1]. destruct (Ascii.eqb a b); lia.
Qed.

Lemma matches_full (h1 : string) : forall h2,
  matches h1 h2 = Z.max (Z.of_nat (String.length h1)) (Z.of_nat (String.length h2)) ->
  h1 = h2.
Proof.
  induction h1 as [|a r1 IH]; intros [|b r2]; simpl; intros H;
    try reflexivity; try lia.
  pose proof (matches_bounds r1 r2) as [H0 H1].
  destruct (Ascii.eqb_spec a b) as [->|Hne]; [|lia].
  f_equal. apply IH. lia.
Qed.

Lemma matches_sym (h1 : string) : forall h2, matches h1 h2 = matches h2 h1.
Proof.
  induction h1 as [|a r1 IH]; intros [|b r2]; simpl; try reflexivity.
  rewrite IH, (Ascii.eqb_sym a b). reflexivity.
Qed.

(** The similarity score lies between 0 and 1, is 1 exactly when the two
    hashes are the same string, and does not depend on the order of its
    arguments. *)
Theorem calculateSimilarity_score (h1 h2 : string) :
  (0 <= calculateSimilarity h1 h2)%Q
  /\ (calculateSimilarity h1 h2 <= 1)%Q
  /\ ((calculateSimilarity h1 h2 == 1)%Q <-> h1 = h2)
  /\ (calculateSimilarity h1 h2 == calculateSimilarity h2 h1)%Q.
Proof.
  unfold calculateSimilarity.
  rewrite (String.eqb_sym h2 h1), (matches_sym h2 h1),
    (Z.max_comm (Z.of_nat (String.length h2))).
  destruct (String.eqb_spec h1 h2) as [->|Hne].
  - repeat split; try reflexivity; unfold Qle; simpl; lia.
  - pose proof (matches_bounds h1 h2) as [H0 H1].
    set (M := Z.max (Z.of_nat (String.length h1)) (Z.of_nat (String.length h2))) in *.
    assert (HM : 0 < M).
    { subst M. destruct h1, h2; simpl; try lia. congruence. }
    assert (Hlt : matches h1 h2 < M).
    { destruct (Z.eq_dec (matches h1 h2) M) as [E|E]; [|lia].
      exfalso. apply Hne. now apply matches_full. }
    repeat split; try reflexivity.
    + unfold Qle. simpl. lia.
    + unfold Qle. simpl. rewrite Z2Pos.id by lia. lia.
    + unfold Qeq. simpl. rewrite Z2Pos.id by lia. lia.
    + congruence.
Qed.

(** ** Persistence *)

Lemma evictLRU_keys_NoDup c :
  NoDup (JsMap.keys (cache c)) -> NoDup (JsMap.keys (cache (evictLRU c))).
Proof.
  intros H. unfold evictLRU. destruct (_ =? 0); [exact H|].
  destruct (oldest _ _) as [[k tm]|]; [|exact H].
  destruct (truthy_key k); [|exact H]. now apply JsMap.NoDup_keys_delete.
Qed.

(** What a load leaves under a key: the stored entry if it is still live,
    else what was there. *)
Lemma load_get (now : Z) (k : string) (m : list (string * entry data)) :
  NoDup (JsMap.keys m) -> forall c0,
  JsMap.get k (cache (fold_left (restore_entry now) m c0))
  = match JsMap.get k m with
    | Some e => if e_expires e >? now then Some e else JsMap.get k (cache c0)
    | None => JsMap.get k (cache c0)
    end.
Proof.
  induction m as [|[k' e'] m IH]; intros Hnd c0; [reflexivity|].
  inversion Hnd as [|? ? Hnotin Hnd']; subst.
  cbn [fold_left]. rewrite IH by exact Hnd'. cbn [JsMap.get].
  destruct (String.eqb_spec k' k) as [->|Hne].
  - apply JsMap.get_None_notin in Hnotin. rewrite Hnotin.
    unfold restore_entry. destruct (e_expires e' >? now); [|reflexivity].
    cbn [cache with_maps]. apply JsMap.get_set_same.
  - assert (Hsame : JsMap.get k (cache (restore_entry now c0 (k', e')))
                    = JsMap.get k (cache c0)).
    { unfold restore_entry. destruct (e_expires e' >? now); [|reflexivity].
      cbn [cache with_maps]. apply JsMap.get_set_other. congruence. }
    rewrite Hsame. reflexivity.
Qed.

(** What a cache built over a stored snapshot serves.  [snap] is what
    [JSON.parse] returns for the content of the storage slot (an object has
    each key once).  Under a key of the snapshot the new cache returns the
    stored data exactly when the entry was still live at the load
    ([expires > now]) and has not expired at the read; under any other key
    it misses. *)
Theorem load_serves_live_entries (snap : snapshot data) key
    (o_maxSize o_maxAge : option Z) (now1 now2 : Z) :
  NoDup (JsMap.keys (snap_cache snap)) ->
  fst (get key now2 (new o_maxSize o_maxAge true (Some snap) now1))
  = match JsMap.get key (snap_cache snap) with
    | Some e =>
        if (e_expires e >? now1) && negb (now2 >? e_expires e)
        then Some (e_data e) else None
    | None => None
    end.
Proof.
  intros Hnd. unfold new, loadFromPersistence. cbn [storage].
  unfold get. cbn [cache with_stats].
  rewrite load_get by exact Hnd. cbn [cache].
  destruct (JsMap.get key (snap_cache snap)) as [e|]; [|reflexivity].
  destruct (e_expires e >? now1); [|reflexivity].
  unfold isExpired. destruct (now2 >? e_expires e); reflexivity.
Qed.

(** ** The sweep of expired entries *)

Lemma drop_keys_get (k : string) (l : list string) : forall c,
  JsMap.get k (cache (fold_left drop_key l c))
  = if existsb (String.eqb k) l then None else JsMap.get k (cache c).
Proof.
  induction l as [|k' l IH]; intros c; [reflexivity|].
  cbn [fold_left existsb]. rewrite IH. unfold drop_key. cbn [cache with_maps].
  destruct (existsb (String.eqb k) l); [now rewrite orb_true_r|].
  rewrite orb_false_r. destruct (String.eqb_spec k k') as [->|Hne].
  - apply JsMap.get_delete_same.
  - now apply JsMap.get_delete_other.
Qed.

(** [clearExpiredEntries] keeps an entry exactly when its expiry lies
    strictly after the clock reading.  [get] serves an entry up to and
    including its expiry reading, so at that one reading an entry that
    [get] still returns is removed by the sweep. *)
Theorem clearExpiredEntries_sweeps c (now : Z) :
  NoDup (JsMap.keys (cache c)) ->
  (forall k,
     JsMap.get k (cache (clearExpiredEntries now c))
     = match JsMap.get k (cache c) with
       | Some e => if e_expires e <=? now then None else Some e
       | None => None
       end)
  /\ (forall k e,
        JsMap.get k (cache c) = Some e -> e_expires e = now ->
        fst (get k now c) = Some (e_data e)
        /\ JsMap.get k (cache (clearExpiredEntries now c)) = None).
Proof.
  intros Hnd.
  assert (Hmain : forall k,
     JsMap.get k (cache (clearExpiredEntries now c))
     = match JsMap.get k (cache c) with
       | Some e => if e_expires e <=? now then None else Some e
       | None => None
       end).
  { intros k. destruct (clearExpiredEntries_maps now c) as (Hc & _).
    cbv zeta in Hc. rewrite Hc, drop_keys_get.
    set (l := JsMap.keys (filter (fun ke => e_expires (snd ke) <=? now) (cache c))).
    assert (Hin : existsb (String.eqb k) l = true
                  <-> exists e, In (k, e) (cache c) /\ (e_expires e <=? now) = true).
    { rewrite existsb_exists. subst l. unfold JsMap.keys. split.
      - intros (x & Hx & Heq). apply String.eqb_eq in Heq. subst x.
        apply in_map_iff in Hx. destruct Hx as ([k' e] & Hk' & Hf).
        simpl in Hk'. subst k'. apply filter_In in Hf. now exists e.
      - intros (e & Hine & Hexp). exists k. split; [|apply String.eqb_refl].
        apply in_map_iff. exists (k, e). split; [reflexivity|].
        apply filter_In. now split. }
    destruct (JsMap.get k (cache c)) as [e|] eqn:Eg.
    - destruct (e_expires e <=? now) eqn:Ee.
      + replace (existsb (String.eqb k) l) with true; [reflexivity|].
        symmetry. apply Hin. exists e. split; [now apply JsMap.get_In | exact Ee].
      + destruct (existsb (String.eqb k) l); [|reflexivity].
        destruct (proj1 Hin eq_refl) as (e' & Hine & Hexp).
        apply (JsMap.In_get _ _ _ Hnd) in Hine. congruence.
    - destruct (existsb (String.eqb k) l) eqn:Ex; [reflexivity|reflexivity]. }
  split; [exact Hmain|].
  intros k e Hg He. split.
  - unfold get. rewrite Hg. unfold isExpired. rewrite He.
    replace (now >? now) with false by (symmetry; rewrite Z.gtb_ltb; apply Z.ltb_irrefl).
    reflexivity.
  - rewrite Hmain, Hg, He, Z.leb_refl. reflexivity.
Qed.

End CacheBehaviour.

(** ** Runs of the operations *)

(** A cache of capacity 2 with persistence on, holding [a] (stored at
    reading 1) and [b] (stored at reading 2). *)
Definition twoEntries : t unit :=
  fill (fun _ : unit => 4) [("a", tt, 1); ("b", tt, 2)]
    (new (Some 2) None true None 0).

(** The same two entries in a cache with persistence off. *)
Definition twoInMemory : t unit :=
  fill (fun _ : unit => 4) [("a", tt, 1); ("b", tt, 2)]
    (new (Some 2) None false None 0).

Lemma set_existing_never_evicts_witness :
  JsMap.keys (cache (set (fun _ : unit => 4) "a" tt None 5 twoInMemory))
  = JsMap.keys (cache twoInMemory)
  /\ evictions (cstats (set (fun _ : unit => 4) "a" tt None 5 twoInMemory))
     = evictions (cstats twoInMemory)
  /\ (forall k, k <> "a" ->
        JsMap.get k (cache (set (fun _ : unit => 4) "a" tt None 5 twoInMemory))
        = JsMap.get k (cache twoInMemory)).
Proof.
  apply (set_existing_never_evicts (fun _ : unit => 4) twoInMemory "a" tt None 5).
  - reflexivity.
  - reflexivity.
Defined.

Lemma delete_removes_only_key_witness :
  fst (delete "a" twoInMemory) = JsMap.has "a" (cache twoInMemory)
  /\ fst (get "a" 5 (snd (delete "a" twoInMemory))) = None
  /\ (forall k, k <> "a" ->
        JsMap.get k (cache (snd (delete "a" twoInMemory)))
        = JsMap.get k (cache twoInMemory)).
Proof.
  apply (delete_removes_only_key twoInMemory "a" 5).
  reflexivity.
Defined.

Lemma operations_keep_capacity_witness :
  within_capacity
    (runAll (fun _ : unit => 4)
       [OpSet "a" tt None 1; OpSet "b" tt None 2; OpSet "c" tt None 3;
        OpGet "a" 4; OpClearExpiredEntries 5; OpDelete "b"]
       (new (Some 2) None false None 0)).
Proof.
  apply (operations_keep_capacity (fun _ : unit => 4) (Some 2) None false 0).
  - simpl. lia.
  - repeat (apply Forall_cons; [simpl; first [exact I | discriminate]|]).
    apply Forall_nil.
Defined.

Lemma evictLRU_removes_least_recent_witness :
  exists k tm l1 l2,
    accessOrder twoEntries = l1 ++ (k, tm) :: l2
    /\ Forall (fun p => tm < snd p) l1
    /\ Forall (fun p => tm <= snd p) l2
    /\ cache (evictLRU twoEntries) = JsMap.delete k (cache twoEntries)
    /\ accessOrder (evictLRU twoEntries) = JsMap.delete k (accessOrder twoEntries)
    /\ evictions (cstats (evictLRU twoEntries)) = evictions (cstats twoEntries) + 1.
Proof.
  apply (evictLRU_removes_least_recent twoEntries).
  - split; [reflexivity | split].
    + vm_compute. intros [H|[H|[]]]; discriminate.
    + vm_compute. discriminate.
  - reflexivity.
Defined.

Lemma invalidateByText_same_text_witness :
  fst (get (generateKey "abc" "o") 5
         (invalidateByText "abc" (8 # 10)
            (set (fun _ : unit => 4) (generateKey "abc" "o") tt None 1 twoEntries)))
  = None.
Proof.
  apply (invalidateByText_same_text
           (set (fun _ : unit => 4) (generateKey "abc" "o") tt None 1 twoEntries)
           "abc" (8 # 10) "o" 5).
  reflexivity.
Defined.

Lemma load_serves_live_entries_witness :
  fst (get "k2_o" 20 (new (Some 5) None true (Some three_entries) 10))
  = match JsMap.get "k2_o" (snap_cache three_entries) with
    | Some e =>
        if (e_expires e >? 10) && negb (20 >? e_expires e)
        then Some (e_data e) else None
    | None => None
    end.
Proof.
  apply (load_serves_live_entries three_entries "k2_o" (Some 5) None 10 20).
  vm_compute. nodup_strings.
Defined.

Lemma clearExpiredEntries_sweeps_witness :
  (forall k,
     JsMap.get k (cache (clearExpiredEntries 1800001 twoEntries))
     = match JsMap.get k (cache twoEntries) with
       | Some e => if e_expires e <=? 1800001 then None else Some e
       | None => None
       end)
  /\ (forall k e,
        JsMap.get k (cache twoEntries) = Some e -> e_expires e = 1800001 ->
        fst (get k 1800001 twoEntries) = Some (e_data e)
        /\ JsMap.get k (cache (clearExpiredEntries 1800001 twoEntries)) = None).
Proof.
  apply (clearExpiredEntries_sweeps twoEntries 1800001).
  vm_compute. nodup_strings.
Defined.

(** At reading 1800001 the entry [a] (stored at 1 for 30 minutes) is still
    served by [get], and the sweep at the same reading removes it. *)
Example expiry_instant :
  fst (get "a" 1800001 twoEntries) = Some tt
  /\ JsMap.keys (cache (clearExpiredEntries 1800001 twoEntries)) = ["b"].
Proof. split; reflexivity. Qed.

End AnalysisCache.

(* ====================================================================== *)
(** * JavaScript string primitives used by the analyzers *)
(* ====================================================================== *)

Module Js.

Definition len (s : string) : Z := Z.of_nat (String.length s).

(** Clamp an index argument of [substring] into [0, len]. *)
Definition clampIndex (s : string) (i : Z) : Z := Z.max 0 (Z.min i (len s)).

(** [String.prototype.substring(a, b)]: both arguments are clamped into the
    string and swapped when out of order. *)
Definition substring (s : string) (a b : Z) : string :=
  let a' := clampIndex s a in
  let b' := clampIndex s b in
  let lo := Z.min a' b' in
  let hi := Z.max a' b' in
  String.substring (Z.to_nat lo) (Z.to_nat (hi - lo)) s.

(** An index argument that may be [undefined]: [ToIntegerOrInfinity] of
    [undefined] is [0]. *)
Definition idx (o : option Z) : Z := match o with Some v => v | None => 0 end.

(** The second argument of [substring] when it may be [undefined]: the end
    of the string then. *)
Definition idxEnd (s : string) (o : option Z) : Z :=
  match o with Some v => v | None => len s end.

(** [x || d] on an optional number ([undefined] and [0] are falsy). *)
Definition num_or (o : option Z) (d : Z) : Z :=
  match o with Some v => if v =? 0 then d else v | None => d end.

(** [x || d] on an optional string ([undefined] and [""] are falsy). *)
Definition str_or (o : option string) (d : string) : string :=
  match o with
  | Some v => if String.eqb v "" then d else v
  | None => d
  end.

(** White space as [trim] and the regular-expression class [\s] see it,
    among 8-bit characters. *)
Definition is_space (c : ascii) : bool :=
  let n := N_of_ascii c in
  ((9 <=? n) && (n <=? 13) || (n =? 32) || (n =? 160))%N.

Fixpoint trimStart (s : string) : string :=
  match s with
  | String c r => if is_space c then trimStart r else s
  | EmptyString => EmptyString
  end.

(** Drops trailing white space: a character is kept when something that is
    kept follows it, or when it is not white space. *)
Fixpoint trimEnd (s : string) : string :=
  match s with
  | EmptyString => EmptyString
  | String c r =>
      match trimEnd r with
      | EmptyString => if is_space c then EmptyString else String c EmptyString
      | r' => String c r'
      end
  end.

Definition trim (s : string) : string := trimEnd (trimStart s).

(** [s.lastIndexOf(c, from)] for a one-character search string: the largest
    index not above [from] that holds [c], or [-1]. *)
Fixpoint lastIndexOf_aux (c : ascii) (s : string) (i from best : Z) : Z :=
  match s with
  | EmptyString => best
  | String a r =>
      if i >? from then best
      else lastIndexOf_aux c r (i + 1) from (if Ascii.eqb a c then i else best)
  end.

Definition lastIndexOf (c : ascii) (s : string) (from : Z) : Z :=
  lastIndexOf_aux c s 0 (Z.max 0 from) (-1).

(** The last character of a string, if any. *)
Fixpoint lastChar (s : string) : option ascii :=
  match s with
  | EmptyString => None
  | String c EmptyString => Some c
  | String _ r => lastChar r
  end.

(** Decimal rendering of an integer, as a template literal does it. *)
Definition decimal (z : Z) : string := NilZero.string_of_int (Z.to_int z).

End Js.

(* ====================================================================== *)
(** * TextAnalyzer (src/src/inline-checker/analysis/TextAnalyzer.js) *)
(* ====================================================================== *)

Module TextAnalyzer.

(** One element of the [issues] array of a provider response, after
    [JSON.parse]; a field the provider left out is [None].  The two indices
    are taken to be integers where they are present: a response that
    carries a fraction or a non-number there is outside this record. *)
Record rawIssue := mkRaw {
  r_type : option string;
  r_severity : option string;
  r_startIndex : option Z;
  r_endIndex : option Z;
  r_message : option string;
  r_suggestions : option (list string)
}.

Record issue := mkIssue {
  issueId : string;
  issueType : string;
  severity : string;
  startIndex : Z;
  endIndex : Z;
  message : string;
  suggestions : list string;
  originalText : string;
  chunkIndex : Z
}.

Record chunkResult := mkChunkResult {
  cr_issues : list issue;
  cr_chunkIndex : Z;
  cr_chunkText : string;
  cr_parseError : bool
}.

Record suggestion := mkSuggestion {
  s_id : string;
  s_kind : string;
  s_message : string;
  s_count : Z;
  s_issueType : string
}.

Record metadata := mkMetadata {
  textLength : Z;
  chunks : Z;
  totalIssues : Z
}.

Record result := mkResult {
  issues : list issue;
  res_suggestions : list suggestion;
  res_metadata : metadata
}.

(** ** Chunking *)

Definition maxChunkSize : Z := 1000.

(** Where the chunk that starts at [currentIndex] ends (one iteration of the
    loop of [chunkText]).  [maxChunkSize * 0.7] is exactly 700. *)
Definition chunkEnd (text : string) (currentIndex : Z) : Z :=
  let endIndex := currentIndex + maxChunkSize in
  if endIndex <? Js.len text then
    let sentenceEnd := Js.lastIndexOf "."%char text endIndex in
    let questionEnd := Js.lastIndexOf "?"%char text endIndex in
    let exclamationEnd := Js.lastIndexOf "!"%char text endIndex in
    let bestEnd := Z.max (Z.max sentenceEnd questionEnd) exclamationEnd in
    if bestEnd >? currentIndex + 700 then bestEnd + 1 else endIndex
  else endIndex.

(** The [while (currentIndex < text.length)] loop; every turn advances
    [currentIndex], so [String.length text] turns are enough. *)
Fixpoint chunkLoop (fuel : nat) (text : string) (currentIndex : Z) : list string :=
  match fuel with
  | O => []
  | S fuel' =>
      if currentIndex <? Js.len text then
        let endIndex := chunkEnd text currentIndex in
        Js.substring text currentIndex endIndex :: chunkLoop fuel' text endIndex
      else []
  end.

Definition chunkText (text : string) : list string :=
  if Js.len text <=? maxChunkSize then [text]
  else chunkLoop (String.length text) text 0.

(** ** Parsing one chunk's response *)

Section Parse.

(** [generateIssueId] draws on the clock and [Math.random]; the [n]-th
    identifier drawn is [generateIssueId n]. *)
Variable generateIssueId : nat -> string.

Definition normalizeRaw (originalChunk : string) (ctxChunkIndex : Z)
    (seed : nat) (i : nat) (r : rawIssue) : issue :=
  mkIssue
    (generateIssueId (seed + i))
    (Js.str_or (r_type r) "grammar")
    (Js.str_or (r_severity r) "warning")
    (Z.max 0 (Js.num_or (r_startIndex r) 0))
    (Z.min (Js.len originalChunk) (Js.num_or (r_endIndex r) 0))
    (Js.str_or (r_message r) "Issue detected")
    (match r_suggestions r with Some l => l | None => [] end)
    (Js.substring originalChunk (Js.idx (r_startIndex r))
                                (Js.idxEnd originalChunk (r_endIndex r)))
    (Js.num_or (Some ctxChunkIndex) 0).

Fixpoint mapi {A B} (f : nat -> A -> B) (i : nat) (l : list A) : list B :=
  match l with
  | [] => []
  | a :: l' => f i a :: mapi f (S i) l'
  end.

(** [parseAnalysisResponse]; [parsed] is the outcome of extracting and
    parsing the JSON object of the response and reading its [issues] array
    ([None] when that throws, [Some []] when the array is missing). *)
Definition parseAnalysisResponse (seed : nat) (parsed : option (list rawIssue))
    (originalChunk : string) (ctxChunkIndex : Z) : chunkResult :=
  match parsed with
  | Some raws =>
      mkChunkResult (mapi (normalizeRaw originalChunk ctxChunkIndex seed) 0%nat raws)
        (Js.num_or (Some ctxChunkIndex) 0) originalChunk false
  | None =>
      mkChunkResult [] (Js.num_or (Some ctxChunkIndex) 0) originalChunk true
  end.

(** ** Combining the chunks *)

Definition adjustIssue (originalText : string) (currentOffset : Z) (i : issue) : issue :=
  mkIssue (issueId i) (issueType i) (severity i)
    (startIndex i + currentOffset)
    (endIndex i + currentOffset)
    (message i) (suggestions i)
    (Js.substring originalText (startIndex i + currentOffset)
                               (endIndex i + currentOffset))
    (chunkIndex i).

Fixpoint combineIssues (chunkResults : list chunkResult) (originalText : string)
    (currentOffset : Z) : list issue :=
  match chunkResults with
  | [] => []
  | cr :: rest =>
      map (adjustIssue originalText currentOffset) (cr_issues cr)
      ++ combineIssues rest originalText (currentOffset + Js.len (cr_chunkText cr))
  end.

(** Grouping of [generateSuggestions]: the types in order of first
    occurrence, each with the number of issues of that type. *)
Fixpoint countType (t : string) (acc : list (string * Z)) : list (string * Z) :=
  match acc with
  | [] => [(t, 1)]
  | (t', n) :: acc' =>
      if String.eqb t' t then (t', n + 1) :: acc' else (t', n) :: countType t acc'
  end.

Definition issuesByType (l : list issue) : list (string * Z) :=
  fold_left (fun acc i => countType (issueType i) acc) l [].

(** The accumulator of the grouping is an object literal, so the names it
    inherits from [Object.prototype] are there from the start: under such a
    type [acc[issue.type]] is not missing and is no array, and [push] on it
    throws a [TypeError]. *)
Definition inheritedNames : list string :=
  ["constructor"; "toString"; "toLocaleString"; "valueOf"; "hasOwnProperty";
   "isPrototypeOf"; "propertyIsEnumerable"; "__defineGetter__";
   "__defineSetter__"; "__lookupGetter__"; "__lookupSetter__"; "__proto__"].

Definition groupable (l : list issue) : bool :=
  forallb (fun i => negb (existsb (String.eqb (issueType i)) inheritedNames)) l.

Definition summary (seed : nat) (i : nat) (tc : string * Z) : suggestion :=
  let (t, n) := tc in
  mkSuggestion (generateIssueId (seed + i)) "summary"
    ("Found " ++ Js.decimal n ++ " " ++ t ++ " issue" ++ (if n >? 1 then "s" else ""))%string
    n t.

(** [generateSuggestions] for issues that can be grouped (see
    [groupable]). *)
Definition generateSuggestions (seed : nat) (l : list issue) : list suggestion :=
  mapi (summary seed) 0%nat (JsObject.objectEntries (issuesByType l)).

Definition combineChunkResults (seed : nat) (chunkResults : list chunkResult)
    (originalText : string) : result :=
  let allIssues := combineIssues chunkResults originalText 0 in
  mkResult allIssues (generateSuggestions seed allIssues)
    (mkMetadata (Js.len originalText) (Z.of_nat (length chunkResults))
       (Z.of_nat (length allIssues))).

(** ** The analysis of a whole text *)

(** The provider behind [sendAnalysisRequest]: the [n]-th request, with the
    given prompt, fails with a message or answers with a completion. *)
Variable provider : nat -> string -> string + string.

(** Extraction and parsing of the JSON object of a completion. *)
Variable parseJson : string -> option (list rawIssue).

Record state := mkState {
  analysisCache : JsMap.t result;
  (** the prompts sent to the provider so far, oldest first *)
  requests : list string;
  (** identifiers drawn so far *)
  drawn : nat
}.

Definition dq : string := String (ascii_of_nat 34) EmptyString.
Definition nl : string := String (ascii_of_nat 10) EmptyString.

(** The template literal of [createAnalysisPrompt], line by line. *)
Definition createAnalysisPrompt (text : string) : string :=
  String.concat nl
    [ "Analyze the following text for grammar, spelling, style, and clarity issues. ";
      "Return your response as a JSON object with this exact structure:";
      "{";
      "  " ++ dq ++ "issues" ++ dq ++ ": [";
      "    {";
      "      " ++ dq ++ "type" ++ dq ++ ": " ++ dq ++ "grammar|spelling|style|clarity" ++ dq ++ ",";
      "      " ++ dq ++ "severity" ++ dq ++ ": " ++ dq ++ "error|warning|suggestion" ++ dq ++ ", ";
      "      " ++ dq ++ "startIndex" ++ dq ++ ": number,";
      "      " ++ dq ++ "endIndex" ++ dq ++ ": number,";
      "      " ++ dq ++ "message" ++ dq ++ ": " ++ dq ++ "description of the issue" ++ dq ++ ",";
      "      " ++ dq ++ "suggestions" ++ dq ++ ": [" ++ dq ++ "suggestion1" ++ dq ++ ", "
             ++ dq ++ "suggestion2" ++ dq ++ "]";
      "    }";
      "  ]";
      "}";
      "";
      "Text to analyze: " ++ dq ++ text ++ dq;
      "";
      "Important: Return ONLY the JSON object, no additional text or explanations." ]%string.

(** [hashString], the same rolling hash as the cache's. *)
Definition hashString (str : string) : string :=
  AnalysisCache.toString36
    (Z.abs (fold_left AnalysisCache.hashStep (list_ascii_of_string str) 0)).

(** [generateCacheKey]; [optionsStr] is [JSON.stringify(options)]. *)
Definition generateCacheKey (text optionsStr : string) : string :=
  (hashString text ++ "_" ++ hashString optionsStr)%string.

(** The [for] loop of [analyzeText]: chunks go to the provider one at a time,
    and the first failure aborts the loop with that failure's message. *)
Fixpoint analyzeChunks (chunkList : list string) (i : Z) (st : state)
  : (string + list chunkResult) * state :=
  match chunkList with
  | [] => (inr [], st)
  | chunk :: rest =>
      let prompt := createAnalysisPrompt chunk in
      let n := length (requests st) in
      let st1 := mkState (analysisCache st) (requests st ++ [prompt]) (drawn st) in
      match provider n prompt with
      | inl err => (inl err, st1)
      | inr response =>
          let cr := parseAnalysisResponse (drawn st1) (parseJson response) chunk i in
          let st2 := mkState (analysisCache st1) (requests st1)
                       (drawn st1 + length (cr_issues cr)) in
          match analyzeChunks rest (i + 1) st2 with
          | (inl err, st3) => (inl err, st3)
          | (inr crs, st3) => (inr (cr :: crs), st3)
          end
      end
  end.

Definition emptyResult : result := mkResult [] [] (mkMetadata 0 0 0).

(** [analyzeText]: a rejection carries the message of the error thrown.
    The [TypeError] of the grouping in [generateSuggestions] is caught like
    a failure of the provider (its message is the engine's wording). *)
Definition analyzeText (text optionsStr : string) (st : state)
  : (string + result) * state :=
  if String.eqb text "" || (Js.len (Js.trim text) =? 0) then (inr emptyResult, st)
  else
    let cacheKey := generateCacheKey text optionsStr in
    match JsMap.get cacheKey (analysisCache st) with
    | Some cached => (inr cached, st)
    | None =>
        match analyzeChunks (chunkText text) 0 st with
        | (inl err, st1) => (inl ("Analysis failed: " ++ err)%string, st1)
        | (inr chunkResults, st1) =>
            if groupable (combineIssues chunkResults text 0) then
              let combinedResult := combineChunkResults (drawn st1) chunkResults text in
              (inr combinedResult,
               mkState (JsMap.set cacheKey combinedResult (analysisCache st1))
                 (requests st1)
                 (drawn st1 + length (res_suggestions combinedResult)))
            else
              (inl "Analysis failed: acc[issue.type].push is not a function", st1)
        end
    end.

(** The property of the specification for one returned issue: offsets within
    the text, non-empty, and the recorded text is the text at the offsets. *)
Definition rebased_ok (text : string) (i : issue) : Prop :=
  0 <= startIndex i /\ startIndex i < endIndex i /\ endIndex i <= Js.len text
  /\ Js.substring text (startIndex i) (endIndex i) = originalText i.

(** What does hold of every returned issue: everything but non-emptiness. *)
Definition rebased_weak (text : string) (i : issue) : Prop :=
  0 <= startIndex i /\ endIndex i <= Js.len text
  /\ Js.substring text (startIndex i) (endIndex i) = originalText i.

Definition totalLength (l : list string) : Z :=
  fold_right (fun s acc => Js.len s + acc) 0 l.

(** ** Facts *)

Lemma length_substring (s : string) : forall n m,
  (n + m <= String.length s)%nat -> String.length (String.substring n m s) = m.
Proof.
  induction s as [|c s IH]; intros n m H; simpl in *.
  - destruct n, m; simpl in *; try reflexivity; lia.
  - destruct n as [|n].
    + destruct m as [|m]; simpl; [reflexivity|].
      rewrite (IH 0%nat m); [reflexivity | lia].
    + apply IH. lia.
Qed.

Lemma len_substring (text : string) (a b : Z) :
  0 <= a <= b ->
  Js.len (Js.substring text a b)
  = Z.min b (Js.len text) - Z.min a (Js.len text).
Proof.
  intros H. unfold Js.substring, Js.clampIndex, Js.len.
  set (L := Z.of_nat (String.length text)).
  assert (HL : 0 <= L) by (subst L; lia).
  rewrite length_substring; [lia|]. subst L. lia.
Qed.

Lemma chunkEnd_gt (text : string) (c : Z) : c < chunkEnd text c.
Proof.
  unfold chunkEnd, maxChunkSize.
  destruct (c + 1000 <? Js.len text); [|lia].
  match goal with |- context [?b >? c + 700] => destruct (Z.gtb_spec b (c + 700)) end; lia.
Qed.

Lemma chunkLoop_total (text : string) : forall fuel c,
  0 <= c -> Js.len text - c <= Z.of_nat fuel ->
  totalLength (chunkLoop fuel text c) = Z.max 0 (Js.len text - c).
Proof.
  induction fuel as [|fuel IH]; intros c Hc Hfuel; simpl.
  - lia.
  - destruct (Z.ltb_spec c (Js.len text)) as [Hlt|Hge]; [|simpl; lia].
    pose proof (chunkEnd_gt text c) as He. cbn [totalLength fold_right].
    fold (totalLength (chunkLoop fuel text (chunkEnd text c))).
    rewrite len_substring by lia. rewrite IH by lia. lia.
Qed.

(** The chunks cover the text: their lengths add up to its length, so the
    loop never runs out of turns. *)
Lemma chunkText_total (text : string) :
  totalLength (chunkText text) = Js.len text.
Proof.
  unfold chunkText. destruct (Js.len text <=? maxChunkSize).
  - simpl. lia.
  - rewrite chunkLoop_total; unfold Js.len; lia.
Qed.

Lemma Forall_mapi {A B} (P : B -> Prop) (f : nat -> A -> B) (l : list A) :
  (forall i a, P (f i a)) -> forall i, Forall P (mapi f i l).
Proof.
  intros H. induction l as [|a l IH]; intros i; simpl; constructor; auto.
Qed.

(** Offsets local to a chunk: the two bounds [parseAnalysisResponse] does
    enforce. *)
Definition local_ok (chunk : string) (i : issue) : Prop :=
  0 <= startIndex i /\ endIndex i <= Js.len chunk.

Lemma normalizeRaw_local chunk ci seed i r :
  local_ok chunk (normalizeRaw chunk ci seed i r).
Proof. unfold local_ok, normalizeRaw. simpl. lia. Qed.

Lemma parseAnalysisResponse_local seed parsed chunk ci :
  cr_chunkText (parseAnalysisResponse seed parsed chunk ci) = chunk
  /\ Forall (local_ok chunk) (cr_issues (parseAnalysisResponse seed parsed chunk ci)).
Proof.
  unfold parseAnalysisResponse. destruct parsed as [raws|]; simpl.
  - split; [reflexivity|]. apply Forall_mapi. intros. apply normalizeRaw_local.
  - split; [reflexivity | constructor].
Qed.

Definition chunk_ok (cr : chunkResult) : Prop :=
  Forall (local_ok (cr_chunkText cr)) (cr_issues cr).

Lemma analyzeChunks_ok chunkList : forall i st crs st',
  analyzeChunks chunkList i st = (inr crs, st') ->
  map cr_chunkText crs = chunkList /\ Forall chunk_ok crs.
Proof.
  induction chunkList as [|chunk rest IH]; intros i st crs st' H; simpl in H.
  - inversion H; subst. split; [reflexivity | constructor].
  - destruct (provider _ _) as [err|response]; [discriminate|].
    match type of H with
    | context [analyzeChunks rest ?j ?s] =>
        destruct (analyzeChunks rest j s) as [[err|crs'] st3] eqn:E
    end; [discriminate|].
    inversion H; subst. destruct (IH _ _ _ _ E) as [Hm Hf].
    match goal with |- context [parseAnalysisResponse ?a ?b ?c ?d] =>
      destruct (parseAnalysisResponse_local a b c d) as [Ht Hl] end.
    split.
    + simpl. now rewrite Ht, Hm.
    + constructor; [|exact Hf]. unfold chunk_ok. now rewrite Ht.
Qed.

Lemma totalLength_nonneg l : 0 <= totalLength l.
Proof. induction l; simpl; unfold Js.len; lia. Qed.

Lemma combineIssues_weak text : forall crs off,
  0 <= off -> Forall chunk_ok crs ->
  Forall (fun i => 0 <= startIndex i
                   /\ endIndex i <= off + totalLength (map cr_chunkText crs)
                   /\ Js.substring text (startIndex i) (endIndex i) = originalText i)
         (combineIssues crs text off).
Proof.
  induction crs as [|cr crs IH]; intros off Hoff Hok; simpl; [constructor|].
  inversion Hok as [|? ? Hcr Hrest]; subst.
  pose proof (totalLength_nonneg (map cr_chunkText crs)) as Htl.
  apply Forall_app. split.
  - apply Forall_map. unfold chunk_ok in Hcr.
    eapply Forall_impl; [|exact Hcr]. intros i [H1 H2]. simpl.
    repeat split; try lia. 
  - eapply Forall_impl; [|apply IH; [unfold Js.len; lia | exact Hrest]].
    simpl. intros i (H1 & H2 & H3). repeat split; try lia. exact H3.
Qed.

(** For responses whose indices are integers ([rawIssue]): every issue of a
    freshly computed result starts at or after 0, ends at or before the end
    of the text, and records the text between its offsets. *)
Lemma analyzeText_rebased_weak text optionsStr st r st' :
  JsMap.get (generateCacheKey text optionsStr) (analysisCache st) = None ->
  analyzeText text optionsStr st = (inr r, st') ->
  Forall (rebased_weak text) (issues r).
Proof.
  intros Hmiss. unfold analyzeText.
  destruct (_ || _).
  - intros H. inversion H; subst. constructor.
  - rewrite Hmiss.
    destruct (analyzeChunks (chunkText text) 0 st) as [[err|crs] st1] eqn:E;
      [discriminate|].
    destruct (groupable _); [|discriminate].
    intros H. inversion H; subst. clear H. simpl.
    destruct (analyzeChunks_ok _ _ _ _ _ E) as [Hm Hok].
    pose proof (combineIssues_weak text crs 0 (Z.le_refl 0) Hok) as Hw.
    rewrite Hm, chunkText_total in Hw.
    eapply Forall_impl; [|exact Hw]. intros i (H1 & H2 & H3).
    unfold rebased_weak. repeat split; try lia. exact H3.
Qed.

(** ** Chunking *)

Lemma substring_0_all (s : string) : String.substring 0 (String.length s) s = s.
Proof. induction s as [|c s IH]; simpl; [reflexivity | now rewrite IH]. Qed.

Lemma substring_split (s : string) : forall n m k,
  (String.substring n m s ++ String.substring (n + m) k s)%string
  = String.substring n (m + k) s.
Proof.
  induction s as [|c s IH]; intros n m k.
  - destruct n, m, k; reflexivity.
  - destruct n as [|n].
    + destruct m as [|m].
      * reflexivity.
      * cbn [String.substring Nat.add append]. f_equal. apply (IH 0%nat m k).
    + cbn [String.substring Nat.add]. apply IH.
Qed.

(** Two adjacent cuts of [substring] make one. *)
Lemma substring_adjacent (text : string) (a b c : Z) :
  0 <= a <= b -> b <= c ->
  (Js.substring text a b ++ Js.substring text b c)%string = Js.substring text a c.
Proof.
  intros Hab Hbc.
  assert (Hcut : forall x y, 0 <= x <= y ->
            Js.substring text x y
            = String.substring (Z.to_nat (Z.min x (Js.len text)))
                (Z.to_nat (Z.min y (Js.len text)) - Z.to_nat (Z.min x (Js.len text)))
                text).
  { intros x y Hxy. unfold Js.substring, Js.clampIndex, Js.len. f_equal; lia. }
  rewrite !Hcut by lia.
  set (na := Z.to_nat (Z.min a (Js.len text))).
  set (nb := Z.to_nat (Z.min b (Js.len text))).
  set (nc := Z.to_nat (Z.min c (Js.len text))).
  assert (Hn : (na <= nb <= nc)%nat) by (subst na nb nc; unfold Js.len; lia).
  replace nb with (na + (nb - na))%nat at 2 by lia.
  rewrite substring_split. f_equal. lia.
Qed.

Lemma substring_whole (text : string) (c : Z) :
  Js.len text <= c -> Js.substring text 0 c = text.
Proof.
  intros H. unfold Js.substring, Js.clampIndex, Js.len in *.
  replace (Z.to_nat _) with 0%nat by lia.
  replace (Z.to_nat _) with (String.length text) by lia.
  apply substring_0_all.
Qed.

(** [lastIndexOf] never answers beyond the position it searches from. *)
Lemma lastIndexOf_aux_le (ch : ascii) (s : string) : forall i from best,
  best <= from -> Js.lastIndexOf_aux ch s i from best <= from.
Proof.
  induction s as [|a r IH]; intros i from best Hb; simpl; [exact Hb|].
  destruct (Z.gtb_spec i from) as [Hgt|Hle]; [exact Hb|].
  apply IH. destruct (Ascii.eqb a ch); lia.
Qed.

Lemma lastIndexOf_le (ch : ascii) (s : string) (from : Z) :
  0 <= from -> Js.lastIndexOf ch s from <= from.
Proof.
  intros H. unfold Js.lastIndexOf. rewrite Z.max_r by lia.
  apply lastIndexOf_aux_le. lia.
Qed.

Lemma chunkEnd_le (text : string) (c : Z) :
  0 <= c -> chunkEnd text c <= c + 1001.
Proof.
  intros Hc. unfold chunkEnd, maxChunkSize.
  destruct (c + 1000 <? Js.len text); [|lia].
  pose proof (lastIndexOf_le "."%char text (c + 1000) ltac:(lia)).
  pose proof (lastIndexOf_le "?"%char text (c + 1000) ltac:(lia)).
  pose proof (lastIndexOf_le "!"%char text (c + 1000) ltac:(lia)).
  match goal with |- context [?b >? c + 700] => destruct (Z.gtb_spec b (c + 700)) end; lia.
Qed.

Lemma substring_none (s : string) : forall n, String.substring n 0 s = "".
Proof.
  induction s as [|c s IH]; intros [|n]; simpl; try reflexivity. apply IH.
Qed.

Lemma substring_beyond (text : string) (a b : Z) :
  Js.len text <= a -> a <= b -> Js.substring text a b = "".
Proof.
  intros Ha Hb. unfold Js.substring, Js.clampIndex, Js.len in *.
  replace (Z.to_nat (_ - _)) with 0%nat by lia. apply substring_none.
Qed.

Lemma chunkLoop_partition (text : string) : forall fuel c,
  0 <= c -> Js.len text - c <= Z.of_nat fuel ->
  String.concat "" (chunkLoop fuel text c) = Js.substring text c (Js.len text + c)
  /\ Forall (fun ch => 1 <= Js.len ch <= 1001) (chunkLoop fuel text c).
Proof.
  induction fuel as [|fuel IH]; intros c Hc Hfuel.
  - simpl. split; [|constructor].
    symmetry. apply substring_beyond; unfold Js.len in *; lia.
  - cbn [chunkLoop]. destruct (Z.ltb_spec c (Js.len text)) as [Hlt|Hge].
    + pose proof (chunkEnd_gt text c) as Hgt.
      pose proof (chunkEnd_le text c Hc) as Hle.
      destruct (IH (chunkEnd text c)) as [Hcat Hall]; [lia | lia |].
      split.
      * assert (Hcons : forall x l, String.concat "" (x :: l)
                                    = (x ++ String.concat "" l)%string).
        { intros x [|y l]; simpl; [|reflexivity].
          clear. induction x as [|a x IHx]; simpl; [reflexivity | now f_equal]. }
        rewrite Hcons, Hcat.
        rewrite substring_adjacent by (unfold Js.len in *; lia).
        unfold Js.substring, Js.clampIndex. f_equal; unfold Js.len in *; lia.
      * constructor; [|exact Hall]. rewrite len_substring by lia. lia.
    + split; [|constructor]. simpl.
      symmetry. apply substring_beyond; unfold Js.len in *; lia.
Qed.

(** [chunkText] cuts the text without loss or overlap: the chunks, joined
    in order, are the text.  No chunk is longer than 1001 characters (a
    chunk that ends at a sentence mark found at offset 1000 includes the
    mark), and the chunks of a non-empty text are non-empty. *)
Theorem chunkText_partitions (text : string) :
  String.concat "" (chunkText text) = text
  /\ Forall (fun ch => Js.len ch <= 1001) (chunkText text)
  /\ (text <> "" -> Forall (fun ch => 1 <= Js.len ch) (chunkText text)).
Proof.
  unfold chunkText, maxChunkSize.
  destruct (Z.leb_spec (Js.len text) 1000) as [Hle|Hgt].
  - split; [reflexivity|]. split.
    + constructor; [lia | constructor].
    + intros Hne. constructor; [|constructor].
      destruct text; [congruence | unfold Js.len; simpl; lia].
  - destruct (chunkLoop_partition text (String.length text) 0) as [Hcat Hall];
      [lia | unfold Js.len; lia |].
    split; [|split].
    + rewrite Hcat. apply substring_whole. lia.
    + eapply Forall_impl; [|exact Hall]. simpl. lia.
    + intros _. eapply Forall_impl; [|exact Hall]. simpl. lia.
Qed.

(** ** Requests and the analyzer's own cache *)

(** A run of the chunk loop that succeeds has sent one request per chunk,
    in order, and has not touched the cache. *)
Lemma analyzeChunks_requests chunkList : forall i st crs st',
  analyzeChunks chunkList i st = (inr crs, st') ->
  requests st' = requests st ++ map createAnalysisPrompt chunkList
  /\ analysisCache st' = analysisCache st
  /\ length crs = length chunkList.
Proof.
  induction chunkList as [|chunk rest IH]; intros i st crs st' H; simpl in H.
  - inversion H; subst. rewrite app_nil_r. auto.
  - destruct (provider _ _) as [err|response]; [discriminate|].
    match type of H with
    | context [analyzeChunks rest ?j ?s] =>
        destruct (analyzeChunks rest j s) as [[err|crs'] st3] eqn:E
    end; [discriminate|].
    inversion H; subst. destruct (IH _ _ _ _ E) as (Hr & Hc & Hl).
    cbn [requests analysisCache] in Hr, Hc. rewrite Hr, Hc, <- app_assoc.
    simpl. auto.
Qed.

(** When the provider answers the first [k] chunks and fails on the next,
    the chunk loop stops there: the requests sent are those of the chunks up
    to and including that one, and the cache is untouched. *)
Lemma analyzeChunks_failure chunkList : forall i st k msg,
  (k < length chunkList)%nat ->
  (forall j, (j < k)%nat ->
     exists response,
       provider (length (requests st) + j)
         (createAnalysisPrompt (nth j chunkList "")) = inr response) ->
  provider (length (requests st) + k)
    (createAnalysisPrompt (nth k chunkList "")) = inl msg ->
  exists st',
    analyzeChunks chunkList i st = (inl msg, st')
    /\ requests st'
       = requests st ++ map createAnalysisPrompt (firstn (S k) chunkList)
    /\ analysisCache st' = analysisCache st.
Proof.
  induction chunkList as [|chunk rest IH]; intros i st k msg Hk Hok Hfail;
    [simpl in Hk; lia|].
  cbn [analyzeChunks]. destruct k as [|k].
  - rewrite Nat.add_0_r in Hfail. cbn [nth] in Hfail. rewrite Hfail.
    eexists. repeat split.
  - destruct (Hok 0%nat ltac:(lia)) as [response Hr].
    rewrite Nat.add_0_r in Hr. cbn [nth] in Hr. rewrite Hr.
    match goal with
    | |- context [analyzeChunks rest ?j ?s] =>
        destruct (IH j s k msg) as (st' & Hrun & Hreq & Hcache)
    end.
    + simpl in Hk. lia.
    + intros j Hj. cbn [requests]. rewrite length_app. cbn [length].
      destruct (Hok (S j) ltac:(lia)) as [resp Hresp]. exists resp.
      replace (length (requests st) + 1 + j)%nat
        with (length (requests st) + S j)%nat by lia. exact Hresp.
    + cbn [requests]. rewrite length_app. cbn [length].
      replace (length (requests st) + 1 + k)%nat
        with (length (requests st) + S k)%nat by lia. exact Hfail.
    + rewrite Hrun. exists st'. cbn [requests analysisCache] in Hreq, Hcache.
      rewrite Hreq, <- app_assoc. split; [reflexivity|]. split; [reflexivity|].
      exact Hcache.
Qed.

Definition blank (text : string) : bool :=
  String.eqb text "" || (Js.len (Js.trim text) =? 0).

(** A text analysed once is answered from the analyzer's cache: when
    [analyzeText] has returned a result, the same call repeated returns the
    same result, sends no request and leaves the analyzer as it is. *)
Theorem analyzeText_repeat_is_cached text optionsStr st r st' :
  analyzeText text optionsStr st = (inr r, st') ->
  analyzeText text optionsStr st' = (inr r, st').
Proof.
  unfold analyzeText. destruct (_ || _).
  - intros H. inversion H; subst. reflexivity.
  - destruct (JsMap.get _ (analysisCache st)) as [cached|] eqn:Eg.
    + intros H. inversion H; subst. now rewrite Eg.
    + destruct (analyzeChunks (chunkText text) 0 st) as [[err|crs] st1] eqn:E;
        [discriminate|].
      destruct (groupable _); [|discriminate].
      intros H. inversion H; subst. cbn [analysisCache].
      now rewrite JsMap.get_set_same.
Qed.

(** An analysis that is not answered from the cache and succeeds has sent
    one request per chunk of the text, in chunk order, each with the prompt
    made for that chunk; its metadata count the chunks and the characters. *)
Theorem analyzeText_one_request_per_chunk text optionsStr st r st' :
  blank text = false ->
  JsMap.get (generateCacheKey text optionsStr) (analysisCache st) = None ->
  analyzeText text optionsStr st = (inr r, st') ->
  requests st' = requests st ++ map createAnalysisPrompt (chunkText text)
  /\ chunks (res_metadata r) = Z.of_nat (length (chunkText text))
  /\ textLength (res_metadata r) = Js.len text
  /\ totalIssues (res_metadata r) = Z.of_nat (length (issues r)).
Proof.
  intros Hb Hmiss. unfold analyzeText. fold (blank text). rewrite Hb, Hmiss.
  destruct (analyzeChunks (chunkText text) 0 st) as [[err|crs] st1] eqn:E;
    [discriminate|].
  destruct (groupable _); [|discriminate].
  intros H. inversion H; subst. clear H.
  destruct (analyzeChunks_requests _ _ _ _ _ E) as (Hr & _ & Hl).
  cbn [requests res_metadata combineChunkResults chunks textLength totalIssues issues].
  rewrite Hl. auto.
Qed.

(** A failure of the provider aborts the analysis where it happens.  When
    the provider answers the first [k] chunks of a text that is not cached
    and fails on the next, [analyzeText] rejects with that failure's
    message behind the prefix [Analysis failed: ], no request goes out for
    any later chunk, and nothing is cached, so that a retry asks the
    provider again. *)
Theorem analyzeText_stops_at_first_failure text optionsStr st k msg :
  blank text = false ->
  JsMap.get (generateCacheKey text optionsStr) (analysisCache st) = None ->
  (k < length (chunkText text))%nat ->
  (forall j, (j < k)%nat ->
     exists response,
       provider (length (requests st) + j)
         (createAnalysisPrompt (nth j (chunkText text) "")) = inr response) ->
  provider (length (requests st) + k)
    (createAnalysisPrompt (nth k (chunkText text) "")) = inl msg ->
  exists st',
    analyzeText text optionsStr st = (inl ("Analysis failed: " ++ msg)%string, st')
    /\ requests st'
       = requests st ++ map createAnalysisPrompt (firstn (S k) (chunkText text))
    /\ analysisCache st' = analysisCache st.
Proof.
  intros Hb Hmiss Hk Hok Hfail. unfold analyzeText. fold (blank text).
  rewrite Hb, Hmiss.
  destruct (analyzeChunks_failure (chunkText text) 0 st k msg Hk Hok Hfail)
    as (st' & Hrun & Hreq & Hcache).
  rewrite Hrun. exists st'. auto.
Qed.

End Parse.

(** ** A concrete run with two chunks *)

Fixpoint replicate (n : nat) (c : ascii) : string :=
  match n with
  | O => EmptyString
  | S n' => String c (replicate n' c)
  end.

Lemma empty_range_not_ok (text : string) (i : issue) :
  endIndex i <= startIndex i -> ~ rebased_ok text i.
Proof. unfold rebased_ok. intros H (_ & H' & _). lia. Qed.

(** 1001 characters: one chunk of 1000 and one of 1. *)
Definition longText : string := replicate 1001 "a"%char.

(** A provider whose answer to every chunk is one issue at offsets 3..3. *)
Definition pointProvider (_ : nat) (_ : string) : string + string := inr "ok".
Definition pointJson (_ : string) : option (list rawIssue) :=
  Some [mkRaw (Some "grammar") (Some "error") (Some 3) (Some 3) (Some "x") None].

Definition someId (n : nat) : string := ("issue_" ++ Js.decimal (Z.of_nat n))%string.

Definition offsets (r : string + result) : list (Z * Z) :=
  match r with
  | inr res => map (fun i => (startIndex i, endIndex i)) (issues res)
  | inl _ => []
  end.

Example longText_chunks : map Js.len (chunkText longText) = [1000; 1].
Proof. vm_compute. reflexivity. Qed.

(** C1 (code defect).  On a 1001-character text cut into two chunks, with a
    provider that reports one issue at offsets 3..3 in each chunk,
    [analyzeText] returns the issues [3,3) and [1003,1001): neither
    satisfies [start < end], and the second starts beyond the text.
    [parseAnalysisResponse] clamps the start only from below and the end
    only from above. *)
Theorem analyzeText_returns_empty_ranges :
  let r := fst (analyzeText someId pointProvider pointJson longText "{}"
                  (mkState [] [] 0)) in
  offsets r = [(3, 3); (1003, 1001)]
  /\ (forall res, r = inr res -> Forall (fun i => ~ rebased_ok longText i) (issues res)).
Proof.
  cbv zeta.
  set (r := fst (analyzeText someId pointProvider pointJson longText "{}"
                   (mkState [] [] 0))).
  assert (Hoff : offsets r = [(3, 3); (1003, 1001)]) by (vm_compute; reflexivity).
  clearbody r. split; [exact Hoff|].
  intros res Hr. subst r. cbn [offsets] in Hoff.
  destruct (issues res) as [|i1 [|i2 [|i3 l]]]; try discriminate.
  cbn [map] in Hoff. inversion Hoff as [[H1 H1' H2 H2']].
  constructor; [|constructor; [|constructor]];
    apply empty_range_not_ok; lia.
Qed.

(** ** A run on a short text *)

(** The analysis of [Teh cat.] by a fresh analyzer, with the provider and
    the parsed answer of the run above: the result and the analyzer
    afterwards. *)
Definition shortResult : result :=
  Eval vm_compute in
    match fst (analyzeText someId pointProvider pointJson "Teh cat." "{}"
                 (mkState [] [] 0)) with
    | inr r => r
    | inl _ => emptyResult
    end.

Definition shortState : state :=
  Eval vm_compute in
    snd (analyzeText someId pointProvider pointJson "Teh cat." "{}" (mkState [] [] 0)).

Lemma analyzeText_rebased_weak_witness :
  Forall (rebased_weak "Teh cat.") (issues shortResult).
Proof.
  apply (analyzeText_rebased_weak someId pointProvider pointJson "Teh cat." "{}"
           (mkState [] [] 0) shortResult shortState).
  - reflexivity.
  - vm_compute. reflexivity.
Defined.

Lemma analyzeText_repeat_is_cached_witness :
  analyzeText someId pointProvider pointJson "Teh cat." "{}" shortState
  = (inr shortResult, shortState).
Proof.
  apply (analyzeText_repeat_is_cached someId pointProvider pointJson "Teh cat." "{}"
           (mkState [] [] 0) shortResult shortState).
  vm_compute. reflexivity.
Defined.

Lemma analyzeText_one_request_per_chunk_witness :
  requests shortState
  = requests (mkState [] [] 0) ++ map createAnalysisPrompt (chunkText "Teh cat.")
  /\ chunks (res_metadata shortResult) = Z.of_nat (length (chunkText "Teh cat."))
  /\ textLength (res_metadata shortResult) = Js.len "Teh cat."
  /\ totalIssues (res_metadata shortResult) = Z.of_nat (length (issues shortResult)).
Proof.
  apply (analyzeText_one_request_per_chunk someId pointProvider pointJson
           "Teh cat." "{}" (mkState [] [] 0) shortResult shortState).
  - reflexivity.
  - reflexivity.
  - vm_compute. reflexivity.
Defined.

(** A provider that answers its first request and fails on the second. *)
Definition failSecond (n : nat) (_ : string) : string + string :=
  if Nat.eqb n 1 then inl "quota exceeded" else inr "ok".

Lemma analyzeText_stops_at_first_failure_witness :
  exists st',
    analyzeText someId failSecond pointJson longText "{}" (mkState [] [] 0)
    = (inl "Analysis failed: quota exceeded", st')
    /\ requests st'
       = requests (mkState [] [] 0)
         ++ map createAnalysisPrompt (firstn 2 (chunkText longText))
    /\ analysisCache st' = analysisCache (mkState [] [] 0).
Proof.
  apply (analyzeText_stops_at_first_failure someId failSecond pointJson longText "{}"
           (mkState [] [] 0) 1%nat "quota exceeded").
  - vm_compute. reflexivity.
  - reflexivity.
  - vm_compute. lia.
  - intros j Hj. assert (j = 0%nat) as -> by lia. exists "ok". reflexivity.
  - reflexivity.
Defined.

(** The order of [Object.entries]: array indices first, ascending; [01] is
    no array index. *)
Example objectEntries_order :
  JsObject.objectEntries [("b", 1); ("10", 2); ("2", 3); ("01", 4)]
  = [("2", 3); ("10", 2); ("b", 1); ("01", 4)].
Proof. reflexivity. Qed.

(** An answer whose issue has the type [constructor] cannot be grouped: the
    analysis is rejected after the provider has answered, and nothing is
    cached. *)
Definition inheritedJson (_ : string) : option (list rawIssue) :=
  Some [mkRaw (Some "constructor") (Some "error") (Some 0) (Some 3) (Some "x") None].

Example inherited_type_is_rejected :
  let run := analyzeText someId pointProvider inheritedJson "Teh cat." "{}"
               (mkState [] [] 0) in
  fst run = inl "Analysis failed: acc[issue.type].push is not a function"
  /\ length (requests (snd run)) = 1%nat
  /\ analysisCache (snd run) = [].
Proof. cbv zeta. vm_compute. repeat split. Qed.

End TextAnalyzer.

(* ====================================================================== *)
(** * IssueDetector (src/src/inline-checker/analysis/IssueDetector.js) *)
(* ====================================================================== *)

Module IssueDetector.

(** A raw index field: absent, present but not a number for [parseInt], or
    an integer. *)
Inductive rawIndex : Type :=
| Undefined
| NotANumber
| Num (z : Z).

(** A raw [suggestions] field: absent, one string, or an array whose
    non-string elements are [None]. *)
Inductive rawSuggestions : Type :=
| NoSuggestions
| OneSuggestion (s : string)
| SuggestionArray (l : list (option string)).

Record rawIssue := mkRaw {
  r_type : option string;
  r_severity : option string;
  r_startIndex : rawIndex;
  r_endIndex : rawIndex;
  r_message : option string;
  r_suggestions : rawSuggestions
}.

Record issue := mkIssue {
  issueId : string;
  issueType : string;
  severity : string;
  startIndex : Z;
  endIndex : Z;
  message : string;
  suggestions : list string;
  originalText : string;
  confidence : Q;
  ctx_chunkIndex : Z
}.

(** ** Small string helpers *)

Definition toLowerChar (c : ascii) : ascii :=
  let n := N_of_ascii c in
  if ((65 <=? n) && (n <=? 90))%N then ascii_of_N (n + 32) else c.

Fixpoint toLowerCase (s : string) : string :=
  match s with
  | EmptyString => EmptyString
  | String c r => String (toLowerChar c) (toLowerCase r)
  end.

(** [s.includes(sub)]. *)
Fixpoint includes (s sub : string) : bool :=
  if String.prefix sub s then true
  else match s with
       | EmptyString => false
       | String _ r => includes r sub
       end.

(** If [s] starts with [p] up to the case of letters, what follows it. *)
Fixpoint stripPrefixCI (p s : string) : option string :=
  match p, s with
  | EmptyString, _ => Some s
  | String a p', String b s' =>
      if Ascii.eqb (toLowerChar a) (toLowerChar b) then stripPrefixCI p' s' else None
  | String _ _, EmptyString => None
  end.

(** ** Normalisation of the fields *)

Definition parseIntOr (r : rawIndex) (d : Z) : Z :=
  match r with
  | Num z => if z =? 0 then d else z
  | _ => d
  end.

Definition typeMap : list (string * string) :=
  [ ("grammar", "grammar"); ("grammatical", "grammar");
    ("spelling", "spelling"); ("spell", "spelling");
    ("style", "style");
    ("clarity", "clarity"); ("clear", "clarity");
    ("punctuation", "punctuation");
    ("word", "word_choice");
    ("sentence", "sentence_structure") ].

Fixpoint firstIncluded (lower : string) (m : list (string * string)) : option string :=
  match m with
  | [] => None
  | (key, value) :: m' => if includes lower key then Some value else firstIncluded lower m'
  end.

Definition normalizeIssueType (type : option string) : string :=
  match type with
  | None => "style"
  | Some t =>
      if String.eqb t "" then "style"
      else match firstIncluded (toLowerCase t) typeMap with
           | Some v => v
           | None => "style"
           end
  end.

Definition normalizeSeverity (sev : option string) : string :=
  match sev with
  | None => "warning"
  | Some s =>
      if String.eqb s "" then "warning"
      else
        let l := toLowerCase s in
        if includes l "error" || includes l "critical" then "error"
        else if includes l "warning" || includes l "caution" then "warning"
        else if includes l "suggestion" || includes l "optional" then "suggestion"
        else "warning"
  end.

(** [normalized.replace(/^(Issue:|Error:|Warning:|Suggestion:)\s*/i, '')]. *)
Fixpoint removePrefix (prefixes : list string) (s : string) : string :=
  match prefixes with
  | [] => s
  | p :: ps =>
      match stripPrefixCI p s with
      | Some rest => Js.trimStart rest
      | None => removePrefix ps s
      end
  end.

(** [/[.!?]$/.test(s)]. *)
Definition endsWithTerminal (s : string) : bool :=
  match Js.lastChar s with
  | Some c => Ascii.eqb c "."%char || Ascii.eqb c "!"%char || Ascii.eqb c "?"%char
  | None => false
  end.

Definition normalizeMessage (message : option string) : string :=
  match message with
  | None => "Issue detected"
  | Some m =>
      if String.eqb m "" then "Issue detected"
      else
        let normalized := Js.trim m in
        let normalized :=
          removePrefix ["Issue:"; "Error:"; "Warning:"; "Suggestion:"] normalized in
        if endsWithTerminal normalized then normalized
        else (normalized ++ ".")%string
  end.

Fixpoint keepStrings (l : list (option string)) : list string :=
  match l with
  | [] => []
  | Some s :: l' =>
      if String.eqb s "" then keepStrings l'
      else
        let t := Js.trim s in
        if (String.length t =? 0)%nat then keepStrings l' else t :: keepStrings l'
  | None :: l' => keepStrings l'
  end.

Definition normalizeSuggestions (sugs : rawSuggestions) : list string :=
  match sugs with
  | NoSuggestions => []
  | OneSuggestion s => if String.eqb s "" then [] else [s]
  | SuggestionArray l => keepStrings l
  end.

Definition hasSuggestions (sugs : rawSuggestions) : bool :=
  match sugs with
  | NoSuggestions => false
  | OneSuggestion s => negb (String.eqb s "")
  | SuggestionArray l => negb (Nat.eqb (length l) 0)
  end.

Definition isDefined (r : rawIndex) : bool :=
  match r with Undefined => false | _ => true end.

(** [calculateConfidence], in exact arithmetic (the code adds the same
    tenths in floating point). *)
Definition calculateConfidence (r : rawIssue) (actualText : string) : Q :=
  let c0 := (5 # 10)%Q in
  let c1 := if hasSuggestions (r_suggestions r) then (c0 + (2 # 10))%Q else c0 in
  let c2 :=
    match r_message r with
    | Some m => if (20 <? String.length m)%nat then (c1 + (1 # 10))%Q else c1
    | None => c1
    end in
  let c3 := if isDefined (r_startIndex r) && isDefined (r_endIndex r)
            then (c2 + (1 # 10))%Q else c2 in
  let c4 := if (String.length actualText <? 2)%nat then (c3 - (2 # 10))%Q else c3 in
  Qred (Qmax 0 (Qmin 1 c4)).

Section Detector.

Variable generateIssueId : nat -> string.

(** [validateAndNormalizeIssue] for a raw issue that is an object. *)
Definition validateAndNormalizeIssue (n : nat) (rawIssue : rawIssue)
    (originalText : string) (ctxChunkIndex : Z) : issue :=
  let startIndex0 := parseIntOr (r_startIndex rawIssue) 0 in
  let endIndex0 := parseIntOr (r_endIndex rawIssue) (startIndex0 + 1) in
  let startIndex := Z.max 0 (Z.min startIndex0 (Js.len originalText - 1)) in
  let endIndex := Z.max (startIndex + 1) (Z.min endIndex0 (Js.len originalText)) in
  let actualText := Js.substring originalText startIndex endIndex in
  mkIssue (generateIssueId n)
    (normalizeIssueType (r_type rawIssue))
    (normalizeSeverity (r_severity rawIssue))
    startIndex endIndex
    (normalizeMessage (r_message rawIssue))
    (normalizeSuggestions (r_suggestions rawIssue))
    actualText
    (calculateConfidence rawIssue actualText)
    (Js.num_or (Some ctxChunkIndex) 0).

Definition dedupKey (i : issue) : string :=
  (Js.decimal (startIndex i) ++ "-" ++ Js.decimal (endIndex i) ++ "-" ++ issueType i)%string.

Fixpoint deduplicate (seen : list string) (l : list issue) : list issue :=
  match l with
  | [] => []
  | i :: l' =>
      let key := dedupKey i in
      if existsb (String.eqb key) seen then deduplicate seen l'
      else i :: deduplicate (key :: seen) l'
  end.

Definition deduplicateIssues (l : list issue) : list issue := deduplicate [] l.

Definition processIssues (seed : nat) (rawIssues : list rawIssue)
    (originalText : string) (ctxChunkIndex : Z) : list issue :=
  deduplicateIssues
    (TextAnalyzer.mapi
       (fun i r => validateAndNormalizeIssue (seed + i) r originalText ctxChunkIndex)
       0%nat rawIssues).

(** [parseJsonResponse]: the [issues] array of the JSON object found in the
    response ([Some []] when the object has none), or [None] when both
    attempts to parse throw. *)
Variable parseJsonResponse : string -> option (list rawIssue).

(** [parseTextResponse]: the issues that the line-by-line heuristics
    ([extractIssueFromLine]) read off the response. *)
Variable parseTextResponse : string -> string -> list rawIssue.

Definition parseIssues (seed : nat) (response originalText : string)
    (ctxChunkIndex : Z) : list issue :=
  match parseJsonResponse response with
  | Some jsonIssues =>
      if (0 <? length jsonIssues)%nat
      then processIssues seed jsonIssues originalText ctxChunkIndex
      else processIssues seed (parseTextResponse response originalText)
             originalText ctxChunkIndex
  | None => []
  end.

(** Every message of the list ends in terminal punctuation. *)
Definition messages_terminated (l : list issue) : Prop :=
  Forall (fun i => endsWithTerminal (message i) = true) l.

End Detector.

(** ** Facts *)

Lemma lastChar_append_dot (s : string) :
  Js.lastChar (s ++ ".")%string = Some "."%char.
Proof.
  induction s as [|c s IH]; simpl; [reflexivity|].
  rewrite IH. destruct (s ++ ".")%string eqn:E; [|reflexivity].
  destruct s; discriminate.
Qed.

(** A message that is present and not empty is normalised to end in one
    of [.], [!], [?]. *)
Lemma normalizeMessage_present (m : string) :
  m <> "" -> endsWithTerminal (normalizeMessage (Some m)) = true.
Proof.
  intros Hm. unfold normalizeMessage.
  destruct (String.eqb_spec m ""); [congruence|].
  destruct (endsWithTerminal (removePrefix _ (Js.trim m))) eqn:E; [exact E|].
  unfold endsWithTerminal. now rewrite lastChar_append_dot.
Qed.

(** The early return of [normalizeMessage] skips the punctuation step. *)
Lemma normalizeMessage_absent :
  normalizeMessage None = "Issue detected"
  /\ endsWithTerminal (normalizeMessage None) = false.
Proof. split; reflexivity. Qed.

Lemma deduplicate_subset (l : list issue) : forall seen i,
  In i (deduplicate seen l) -> In i l.
Proof.
  induction l as [|a l IH]; intros seen i; simpl; [tauto|].
  destruct (existsb _ seen).
  - intros H. right. eapply IH; eauto.
  - intros [H|H]; [now left | right; eapply IH; eauto].
Qed.

Lemma In_mapi {A B} (f : nat -> A -> B) (l : list A) : forall i b,
  In b (TextAnalyzer.mapi f i l) -> exists j a, In a l /\ b = f j a.
Proof.
  induction l as [|a l IH]; intros i b; simpl; [tauto|].
  intros [H|H].
  - exists i, a. auto.
  - destruct (IH _ _ H) as (j & a' & Ha & Hb). exists j, a'. auto.
Qed.

(** When every raw issue carries a non-empty message, every issue that
    [parseIssues] returns has a message ending in terminal punctuation. *)
Lemma parseIssues_terminated_when_present
  (gen : nat -> string) (pj : string -> option (list rawIssue))
  (pt : string -> string -> list rawIssue)
  (seed : nat) (response originalText : string) (ci : Z) :
  (forall raws r, pj response = Some raws -> In r raws ->
     exists m, r_message r = Some m /\ m <> "") ->
  (forall r, In r (pt response originalText) ->
     exists m, r_message r = Some m /\ m <> "") ->
  messages_terminated (parseIssues gen pj pt seed response originalText ci).
Proof.
  intros Hj Ht. unfold messages_terminated, parseIssues.
  apply Forall_forall. intros i Hi.
  assert (Hgen : forall raws,
    (forall r, In r raws -> exists m, r_message r = Some m /\ m <> "") ->
    In i (processIssues gen seed raws originalText ci) ->
    endsWithTerminal (message i) = true).
  { intros raws Hr Hin. unfold processIssues, deduplicateIssues in Hin.
    apply deduplicate_subset in Hin. apply In_mapi in Hin.
    destruct Hin as (j & r & Hrin & ->). simpl.
    destruct (Hr r Hrin) as (m & -> & Hm). now apply normalizeMessage_present. }
  destruct (pj response) as [raws|] eqn:E; [|destruct Hi].
  destruct (0 <? length raws)%nat.
  - eapply Hgen; [|exact Hi]. intros r Hr. eapply Hj; eauto.
  - eapply Hgen; [|exact Hi]. exact Ht.
Qed.

(** ** A concrete run *)

Definition noMessage : rawIssue :=
  mkRaw (Some "grammar") (Some "error") (Num 0) (Num 4) None NoSuggestions.

(** C9 (code defect).  For a structured response whose only issue has no
    message, [parseIssues] returns one issue whose message is
    [Issue detected], without the full stop: [normalizeMessage] returns the
    default before it reaches the step that appends punctuation. *)
Theorem default_message_lacks_punctuation :
  let l := parseIssues TextAnalyzer.someId (fun _ => Some [noMessage]) (fun _ _ => [])
             0 "{...}" "This are a test." 0 in
  map message l = ["Issue detected"]
  /\ ~ messages_terminated l.
Proof.
  cbv zeta. split; [reflexivity|].
  unfold messages_terminated. intros H. inversion H as [|? ? Hm _]; subst.
  vm_compute in Hm. discriminate.
Qed.

(** ** What every returned issue satisfies *)

Section Returned.
Variable gen : nat -> string.
Variable pj : string -> option (list rawIssue).
Variable pt : string -> string -> list rawIssue.

(** The offsets of a normalised issue. *)
Definition offsets_ok (text : string) (i : issue) : Prop :=
  0 <= startIndex i /\ startIndex i < endIndex i
  /\ endIndex i <= Z.max 1 (Js.len text)
  /\ originalText i = Js.substring text (startIndex i) (endIndex i).

Lemma validate_offsets n r text ci :
  offsets_ok text (validateAndNormalizeIssue gen n r text ci).
Proof.
  unfold offsets_ok, validateAndNormalizeIssue.
  cbn [startIndex endIndex originalText]. repeat split; lia.
Qed.

(** The two closed vocabularies. *)
Definition standardTypes : list string :=
  ["grammar"; "spelling"; "style"; "clarity"; "punctuation"; "word_choice";
   "sentence_structure"].
Definition standardSeverities : list string := ["error"; "warning"; "suggestion"].

Lemma firstIncluded_In lower m v :
  firstIncluded lower m = Some v -> In v (map snd m).
Proof.
  induction m as [|[key value] m IH]; simpl; [discriminate|].
  destruct (includes lower key).
  - intros H. inversion H. now left.
  - intros H. right. now apply IH.
Qed.

Lemma normalizeIssueType_standard type : In (normalizeIssueType type) standardTypes.
Proof.
  unfold normalizeIssueType. destruct type as [t|]; [|simpl; tauto].
  destruct (String.eqb t ""); [simpl; tauto|].
  destruct (firstIncluded _ typeMap) as [v|] eqn:E; [|simpl; tauto].
  apply firstIncluded_In in E. simpl in E. simpl.
  repeat (destruct E as [<-|E]; [tauto|]). destruct E.
Qed.

Lemma normalizeSeverity_standard sev : In (normalizeSeverity sev) standardSeverities.
Proof.
  unfold normalizeSeverity. destruct sev as [v|]; [|simpl; tauto].
  destruct (String.eqb v ""); [simpl; tauto|].
  repeat (destruct (_ || _); [simpl; tauto|]). simpl; tauto.
Qed.

Lemma processed_from_validate seed raws text ci i :
  In i (processIssues gen seed raws text ci) ->
  exists n r, In r raws /\ i = validateAndNormalizeIssue gen n r text ci.
Proof.
  unfold processIssues, deduplicateIssues. intros H.
  apply deduplicate_subset in H. apply In_mapi in H.
  destruct H as (j & r & Hr & ->). eauto.
Qed.

Lemma parsed_from_validate seed response text ci i :
  In i (parseIssues gen pj pt seed response text ci) ->
  exists n r, i = validateAndNormalizeIssue gen n r text ci.
Proof.
  unfold parseIssues. destruct (pj response) as [raws|]; [|intros []].
  destruct (0 <? length raws)%nat; intros H;
    apply processed_from_validate in H; destruct H as (n & r & _ & ->); eauto.
Qed.

(** Whatever the response holds, every issue that [parseIssues] returns has
    offsets with [0 <= start < end], an end within the text (within 1 for
    the empty text, where the range [0, 1) is returned all the same), and
    records the text between its offsets. *)
Theorem parseIssues_offsets seed response text ci :
  Forall (offsets_ok text) (parseIssues gen pj pt seed response text ci).
Proof.
  apply Forall_forall. intros i Hi. apply parsed_from_validate in Hi.
  destruct Hi as (n & r & ->). apply validate_offsets.
Qed.

(** Whatever type and severity the response names, every returned issue
    carries one of the seven standard types and one of the three standard
    severities. *)
Theorem parseIssues_vocabulary seed response text ci :
  Forall (fun i => In (issueType i) standardTypes
                   /\ In (severity i) standardSeverities)
         (parseIssues gen pj pt seed response text ci).
Proof.
  apply Forall_forall. intros i Hi. apply parsed_from_validate in Hi.
  destruct Hi as (n & r & ->). cbn [validateAndNormalizeIssue issueType severity].
  split; [apply normalizeIssueType_standard | apply normalizeSeverity_standard].
Qed.

End Returned.

(** ** Deduplication *)

Lemma deduplicate_fresh (l : list issue) : forall seen,
  NoDup (map dedupKey (deduplicate seen l))
  /\ (forall k, In k (map dedupKey (deduplicate seen l)) -> ~ In k seen).
Proof.
  induction l as [|i l IH]; intros seen; simpl.
  - split; [constructor | tauto].
  - destruct (existsb (String.eqb (dedupKey i)) seen) eqn:E; [apply IH|].
    destruct (IH (dedupKey i :: seen)) as [Hnd Hfresh]. split.
    + simpl. constructor; [|exact Hnd]. intros Hin.
      apply (Hfresh _ Hin). now left.
    + simpl. intros k [<-|Hk].
      * intros Hin. assert (existsb (String.eqb (dedupKey i)) seen = true).
        { apply existsb_exists. exists (dedupKey i). split; [exact Hin|].
          apply String.eqb_refl. }
        congruence.
      * intros Hin. apply (Hfresh _ Hk). now right.
Qed.

Lemma deduplicate_covers (l : list issue) : forall seen i,
  In i l ->
  In (dedupKey i) seen \/ In (dedupKey i) (map dedupKey (deduplicate seen l)).
Proof.
  induction l as [|a l IH]; intros seen i; simpl; [tauto|].
  intros [->|Hin].
  - destruct (existsb (String.eqb (dedupKey i)) seen) eqn:E.
    + left. apply existsb_exists in E. destruct E as (k & Hk & Heq).
      apply String.eqb_eq in Heq. now subst.
    + right. now left.
  - destruct (existsb (String.eqb (dedupKey a)) seen).
    + now apply IH.
    + destruct (IH (dedupKey a :: seen) i Hin) as [[<-|H]|H]; simpl; auto.
Qed.

Lemma deduplicate_fixed (l : list issue) : forall seen,
  NoDup (map dedupKey l) ->
  (forall k, In k (map dedupKey l) -> ~ In k seen) ->
  deduplicate seen l = l.
Proof.
  induction l as [|i l IH]; intros seen Hnd Hfresh; simpl; [reflexivity|].
  inversion Hnd as [|? ? Hnotin Hnd']; subst.
  destruct (existsb (String.eqb (dedupKey i)) seen) eqn:E.
  - apply existsb_exists in E. destruct E as (k & Hk & Heq).
    apply String.eqb_eq in Heq. subst k. exfalso.
    apply (Hfresh (dedupKey i)); [now left | exact Hk].
  - f_equal. apply IH; [exact Hnd'|].
    intros k Hk [<-|Hin]; [tauto|]. apply (Hfresh k); [now right | exact Hin].
Qed.

(** [deduplicateIssues] leaves no two issues with the same start, end and
    type; it drops nothing else (every issue of the input is either kept or
    shares its key with one that is), keeps only issues of the input, and
    running it again changes nothing. *)
Theorem deduplicateIssues_distinct (l : list issue) :
  NoDup (map dedupKey (deduplicateIssues l))
  /\ (forall i, In i l -> In (dedupKey i) (map dedupKey (deduplicateIssues l)))
  /\ (forall i, In i (deduplicateIssues l) -> In i l)
  /\ deduplicateIssues (deduplicateIssues l) = deduplicateIssues l.
Proof.
  unfold deduplicateIssues. destruct (deduplicate_fresh l []) as [Hnd Hfresh].
  repeat split.
  - exact Hnd.
  - intros i Hi. destruct (deduplicate_covers l [] i Hi) as [[]|H]; exact H.
  - intros i. apply deduplicate_subset.
  - apply deduplicate_fixed; [exact Hnd | exact Hfresh].
Qed.

(** ** Suggestions *)








(** A suggestion that arrives as one string is passed on untrimmed. *)
Example normalizeSuggestions_single :
  normalizeSuggestions (OneSuggestion "  is  ") = ["  is  "]
  /\ normalizeSuggestions (SuggestionArray [Some "  is  "; None; Some "   "]) = ["is"].
Proof. split; reflexivity. Qed.

(** ** A run in which every raw issue carries a message *)

Definition withMessage : rawIssue :=
  mkRaw (Some "Grammatical") (Some "critical") (Num 5) (Num 8)
    (Some "Issue: subject and verb disagree") NoSuggestions.

Lemma parseIssues_terminated_when_present_witness :
  messages_terminated
    (parseIssues TextAnalyzer.someId (fun _ => Some [withMessage]) (fun _ _ => [])
       0 "{...}" "This are a test." 0).
Proof.
  apply (parseIssues_terminated_when_present TextAnalyzer.someId
           (fun _ => Some [withMessage]) (fun _ _ => []) 0 "{...}"
           "This are a test." 0).
  - intros raws r Hraws Hr. inversion Hraws; subst. destruct Hr as [<-|[]].
    exists "Issue: subject and verb disagree". split; [reflexivity | discriminate].
  - intros r [].
Defined.

Example withMessage_normalised :
  map (fun i => (issueType i, severity i, startIndex i, endIndex i, message i,
                 originalText i))
      (parseIssues TextAnalyzer.someId (fun _ => Some [withMessage]) (fun _ _ => [])
         0 "{...}" "This are a test." 0)
  = [("grammar", "error", 5, 8, "subject and verb disagree.", "are")].
Proof. reflexivity. Qed.

End IssueDetector.

(* ====================================================================== *)
(** * AnalysisEngine (src/src/inline-checker/analysis/AnalysisEngine.js) *)
(* ====================================================================== *)

Module AnalysisEngine.

(** The options object of a call: the two fields the engine reads, and its
    two serialisations ([JSON.stringify(options)], which keys the analyzer's
    own cache, and the hash [hashObject(options)] of the key-sorted form,
    which keys the engine's). *)
Record options := mkOptions {
  analysisId : option string;
  cacheTtl : option Z;
  json : string;
  optionsHash : string
}.

Record cfg := mkCfg {
  enableCache : bool;
  enableRealTimeAnalysis : bool;
  analysisDelay : Z;
  maxTextLength : Z
}.

Record stats := mkStats {
  totalAnalyses : Z;
  cacheHits : Z;
  cacheMisses : Z;
  averageAnalysisTime : Q;
  totalIssuesFound : Z
}.

Section Engine.

(** The collaborators of [TextAnalyzer] (see there). *)
Variable generateIssueId : nat -> string.
Variable provider : nat -> string -> string + string.
Variable parseJson : string -> option (list TextAnalyzer.rawIssue).

(** The entries of [generateEnhancedSuggestions] and the function itself
    (type summaries and ranked per-issue suggestions, sorted by priority). *)
Variable enhanced : Type.
Variable generateEnhancedSuggestions : list TextAnalyzer.issue -> string -> list enhanced.

(** The [IssueDetector.parseIssues] branch of [performAnalysis], for an issue
    that lacks an id, a type or a severity. *)
Variable reprocess : TextAnalyzer.issue -> string -> list TextAnalyzer.issue.

Record analysisResult := mkAnalysisResult {
  issues : list TextAnalyzer.issue;
  suggestions : list enhanced;
  md_textLength : Z;
  md_chunks : Z;
  md_timestamp : Z;
  md_processingTime : Z;
  md_fromCache : option bool;
  originalText : string
}.

(** [AnalysisCache.calculateSize] on results. *)
Variable calculateSize : analysisResult -> Z.

(** The engine object.  [destroy] sets the three components to [null]; the
    detector holds no state, so two fields stand for them. *)
Record engine := mkEngine {
  config : cfg;
  textAnalyzer : option TextAnalyzer.state;
  analysisCache : option (AnalysisCache.t analysisResult);
  estats : stats
}.

(** ** [analyze] *)

Definition alreadyProcessed (i : TextAnalyzer.issue) : bool :=
  negb (String.eqb (TextAnalyzer.issueId i) "")
  && negb (String.eqb (TextAnalyzer.issueType i) "")
  && negb (String.eqb (TextAnalyzer.severity i) "").

Definition processIssue (text : string) (i : TextAnalyzer.issue)
  : list TextAnalyzer.issue :=
  if alreadyProcessed i then [i] else reprocess i text.

(** [performAnalysis], given the analyzer; [now] is the reading taken for
    the metadata timestamp. *)
Definition performAnalysis (text : string) (o : options) (now : Z)
    (ta : TextAnalyzer.state) : (string + analysisResult) * TextAnalyzer.state :=
  match TextAnalyzer.analyzeText generateIssueId provider parseJson text (json o) ta with
  | (inl err, ta') => (inl err, ta')
  | (inr rawResult, ta') =>
      let processedIssues := flat_map (processIssue text) (TextAnalyzer.issues rawResult) in
      (inr (mkAnalysisResult processedIssues
              (generateEnhancedSuggestions processedIssues text)
              (TextAnalyzer.textLength (TextAnalyzer.res_metadata rawResult))
              (TextAnalyzer.chunks (TextAnalyzer.res_metadata rawResult))
              now 0 None text),
       ta')
  end.

Definition enrichResult (r : analysisResult) (fromCache : bool) : analysisResult :=
  mkAnalysisResult (issues r) (suggestions r) (md_textLength r) (md_chunks r)
    (md_timestamp r) (md_processingTime r) (Some fromCache) (originalText r).

Definition withProcessingTime (r : analysisResult) (t : Z) : analysisResult :=
  mkAnalysisResult (issues r) (suggestions r) (md_textLength r) (md_chunks r)
    (md_timestamp r) t (md_fromCache r) (originalText r).

Definition updateStats (s : stats) (r : analysisResult) (processingTime : Z) : stats :=
  let total := totalAnalyses s + 1 in
  let totalTime :=
    (averageAnalysisTime s * inject_Z (total - 1) + inject_Z processingTime)%Q in
  mkStats total (cacheHits s) (cacheMisses s)
    (Qred (totalTime / inject_Z total)) 
    (totalIssuesFound s + Z.of_nat (length (issues r))).

Definition hit (s : stats) : stats :=
  mkStats (totalAnalyses s) (cacheHits s + 1) (cacheMisses s)
    (averageAnalysisTime s) (totalIssuesFound s).
Definition miss (s : stats) : stats :=
  mkStats (totalAnalyses s) (cacheHits s) (cacheMisses s + 1)
    (averageAnalysisTime s) (totalIssuesFound s).

(** [updateStats] writes the processing time into the result object after
    [set] has stored it.  The entry in the cache's map holds that same
    object, so it shows the time; the size recorded in the entry and the
    snapshot in the storage slot were taken before, from the object with
    processing time [0]. *)
Definition retimeEntry (stored : analysisResult)
    (en : AnalysisCache.entry analysisResult) : AnalysisCache.entry analysisResult :=
  AnalysisCache.mkEntry stored (AnalysisCache.e_timestamp en)
    (AnalysisCache.e_expires en) (AnalysisCache.e_size en)
    (AnalysisCache.e_accessCount en).

Definition retime (key : string) (stored : analysisResult)
    (cache : AnalysisCache.t analysisResult) : AnalysisCache.t analysisResult :=
  AnalysisCache.with_maps cache
    (map (fun ke => if String.eqb (fst ke) key
                    then (fst ke, retimeEntry stored (snd ke)) else ke)
         (AnalysisCache.cache cache))
    (AnalysisCache.accessOrder cache).

(** [analyze] as one step from the clock reading [startTime] at which it is
    entered to the reading [endTime] at which its last continuation runs.
    A rejection carries the message of the error.  After [destroy] the
    components are [null] and reading them throws a [TypeError]. *)
Definition analyze (text : string) (o : options) (startTime endTime : Z) (e : engine)
  : (string + analysisResult) * engine :=
  if String.eqb text "" then (inl "Invalid text input", e)
  else if Js.len text >? maxTextLength (config e) then
    (inl ("Text too long (max " ++ Js.decimal (maxTextLength (config e))
          ++ " characters)")%string, e)
  else
    match analysisCache e, textAnalyzer e with
    | Some cache, Some ta =>
        let cacheKey := AnalysisCache.generateKey text (optionsHash o) in
        let lookup :=
          if enableCache (config e)
          then AnalysisCache.get cacheKey startTime cache
          else (None, cache) in
        match lookup with
        | (Some cachedResult, cache1) =>
            (inr (enrichResult cachedResult true),
             mkEngine (config e) (Some ta) (Some cache1) (hit (estats e)))
        | (None, cache1) =>
            let st1 := if enableCache (config e) then miss (estats e) else estats e in
            match performAnalysis text o endTime ta with
            | (inl err, ta1) =>
                (inl err, mkEngine (config e) (Some ta1) (Some cache1) st1)
            | (inr analysisResult, ta1) =>
                let processingTime := endTime - startTime in
                let stored := withProcessingTime analysisResult processingTime in
                let cache2 :=
                  if enableCache (config e)
                  then retime cacheKey stored
                         (AnalysisCache.set calculateSize cacheKey analysisResult
                            (Some (Js.num_or (cacheTtl o) (AnalysisCache.maxAge cache1)))
                            endTime cache1)
                  else cache1 in
                (inr (enrichResult stored false),
                 mkEngine (config e) (Some ta1) (Some cache2)
                   (updateStats st1 analysisResult processingTime))
            end
        end
    | _, _ => (inl "TypeError: Cannot read properties of null", e)
    end.

(** A field of [config]: the object literal gives the default
    ([options.x || d]) and then spreads [...options] over it, so a value the
    caller gave, also [0], is what [config] holds; the default stays only
    when the option is missing. *)
Definition spreadOver (o : option Z) (d : Z) : Z :=
  match o with Some v => v | None => d end.

(** The constructor; the storage slot of the cache holds [stored].  The
    three switches are given as the outcome of [options.x !== false]. *)
Definition new (o_cacheSize o_cacheAge : option Z) (o_enableCaching o_enableCache
    o_enableRealTimeAnalysis : bool) (o_analysisDelay o_maxTextLength : option Z)
    (stored : option (AnalysisCache.snapshot analysisResult)) (now : Z) : engine :=
  mkEngine
    (mkCfg o_enableCache o_enableRealTimeAnalysis
       (spreadOver o_analysisDelay 500) (spreadOver o_maxTextLength 10000))
    (Some (TextAnalyzer.mkState [] [] 0))
    (Some (AnalysisCache.new
             (Some (Js.num_or o_cacheSize 100))
             (Some (Js.num_or o_cacheAge (30 * 60 * 1000)))
             o_enableCaching stored now))
    (mkStats 0 0 0 0 0).

(** The prompts that have gone to the provider. *)
Definition providerCalls (e : engine) : list string :=
  match textAnalyzer e with
  | Some ta => TextAnalyzer.requests ta
  | None => []
  end.

(** ** Real-time analysis: timers and promises

    [setTimeout] and the promise machinery of the host are part of the
    state: the armed timers with the closure each will run, the analyses a
    fired timer has started and not finished, and the state of every promise
    handed out. *)

Record job := mkJob {
  j_analysisId : option string;
  j_text : string;
  j_options : options;
  j_promise : nat
}.

Record timer := mkTimer {
  tm_id : nat;
  tm_delay : Z;
  tm_job : job
}.

(** A row of [activeAnalyses]; [resolve] and [reject] are the two functions
    of the promise numbered [a_promise]. *)
Record active := mkActive {
  a_timeout : nat;
  a_text : string;
  a_options : options;
  a_promise : nat
}.

Inductive pstate : Type :=
| Pending
| Resolved (r : analysisResult)
| Rejected (err : string).

Record world := mkWorld {
  eng : engine;
  activeAnalyses : JsMap.t active;
  timers : list timer;
  nextTimer : nat;
  running : list job;
  promises : list (nat * pstate);
  nextPromise : nat;
  (** the calls of [analyze] that [analyzeRealTime] has made, oldest first *)
  executed : list (string * options)
}.

Definition clearTimeout (tid : nat) (l : list timer) : list timer :=
  filter (fun tm => negb (Nat.eqb (tm_id tm) tid)) l.

Fixpoint promiseState (p : nat) (l : list (nat * pstate)) : option pstate :=
  match l with
  | [] => None
  | (q, s) :: l' => if Nat.eqb q p then Some s else promiseState p l'
  end.

Fixpoint settle (p : nat) (s : pstate) (l : list (nat * pstate)) : list (nat * pstate) :=
  match l with
  | [] => []
  | (q, s') :: l' =>
      if Nat.eqb q p
      then (q, match s' with Pending => s | _ => s' end) :: l'
      else (q, s') :: settle p s l'
  end.

(** [options.analysisId || `realtime_${Date.now()}`]. *)
Definition effectiveId (o : options) (now : Z) : string :=
  Js.str_or (analysisId o) ("realtime_" ++ Js.decimal now)%string.

(** [analyzeRealTime]: the number of the promise returned, and the world
    after the synchronous part of the call. *)
Definition analyzeRealTime (text : string) (o : options) (now : Z) (w : world)
  : nat * world :=
  let p := nextPromise w in
  if negb (enableRealTimeAnalysis (config (eng w))) then
    (p, mkWorld (eng w) (activeAnalyses w) (timers w) (nextTimer w)
          (running w ++ [mkJob None text o p])
          (promises w ++ [(p, Pending)]) (S p)
          (executed w ++ [(text, o)]))
  else
    let id := effectiveId o now in
    let timers1 :=
      match JsMap.get id (activeAnalyses w) with
      | Some a => clearTimeout (a_timeout a) (timers w)
      | None => timers w
      end in
    let tid := nextTimer w in
    (p, mkWorld (eng w)
          (JsMap.set id (mkActive tid text o p) (activeAnalyses w))
          (timers1 ++ [mkTimer tid (analysisDelay (config (eng w)))
                         (mkJob (Some id) text o p)])
          (S tid) (running w)
          (promises w ++ [(p, Pending)]) (S p)
          (executed w)).

Fixpoint findTimer (tid : nat) (l : list timer) : option timer :=
  match l with
  | [] => None
  | tm :: l' => if Nat.eqb (tm_id tm) tid then Some tm else findTimer tid l'
  end.

(** The timer [tid] fires: its callback calls [analyze] and waits for it. *)
Definition fire (tid : nat) (w : world) : world :=
  match findTimer tid (timers w) with
  | None => w
  | Some tm =>
      mkWorld (eng w) (activeAnalyses w) (clearTimeout tid (timers w)) (nextTimer w)
        (running w ++ [tm_job tm]) (promises w) (nextPromise w)
        (executed w ++ [(j_text (tm_job tm), j_options (tm_job tm))])
  end.

Fixpoint findJob (p : nat) (l : list job) : option job :=
  match l with
  | [] => None
  | j :: l' => if Nat.eqb (j_promise j) p then Some j else findJob p l'
  end.

(** The analysis behind promise [p] finishes: the callback removes the row of
    its analysis id and settles the promise either way. *)
Definition complete (p : nat) (startTime endTime : Z) (w : world) : world :=
  match findJob p (running w) with
  | None => w
  | Some j =>
      let (outcome, e') := analyze (j_text j) (j_options j) startTime endTime (eng w) in
      let actives :=
        match j_analysisId j with
        | Some id => JsMap.delete id (activeAnalyses w)
        | None => activeAnalyses w
        end in
      mkWorld e' actives (timers w) (nextTimer w)
        (filter (fun j' => negb (Nat.eqb (j_promise j') p)) (running w))
        (settle p (match outcome with
                   | inr r => Resolved r
                   | inl err => Rejected err
                   end) (promises w))
        (nextPromise w) (executed w)
  end.

(** [reset]: caches and rows cleared, statistics zeroed; armed timers are
    not touched.  On a destroyed engine the first statement throws. *)
Definition reset (w : world) : world :=
  let e := eng w in
  match analysisCache e with
  | None => w
  | Some cache =>
      mkWorld
        (mkEngine (config e) (textAnalyzer e) (Some (AnalysisCache.clear cache))
           (mkStats 0 0 0 0 0))
        [] (timers w) (nextTimer w) (running w) (promises w) (nextPromise w)
        (executed w)
  end.

(** [destroy]: the timer of every row is cleared, then the components are
    released. *)
Definition destroy (w : world) : world :=
  let e := eng w in
  mkWorld
    (mkEngine (config e) None None (estats e))
    []
    (fold_left (fun l ka => clearTimeout (a_timeout (snd ka)) l) (activeAnalyses w)
       (timers w))
    (nextTimer w) (running w) (promises w) (nextPromise w) (executed w).

(** [configure] with a patch of the two real-time settings. *)
Definition configure (realTime : bool) (delay : Z) (w : world) : world :=
  let e := eng w in
  mkWorld
    (mkEngine (mkCfg (enableCache (config e)) realTime delay (maxTextLength (config e)))
       (textAnalyzer e) (analysisCache e) (estats e))
    (activeAnalyses w) (timers w) (nextTimer w) (running w) (promises w)
    (nextPromise w) (executed w).

(** Everything that can happen to the engine, one event at a time. *)
Inductive event : Type :=
| Call (text : string) (o : options) (now : Z)
| Fire (tid : nat)
| Complete (p : nat) (startTime endTime : Z)
| Reset
| Destroy
| Configure (realTime : bool) (delay : Z).

Definition step (w : world) (ev : event) : world :=
  match ev with
  | Call text o now => snd (analyzeRealTime text o now w)
  | Fire tid => fire tid w
  | Complete p s t => complete p s t w
  | Reset => reset w
  | Destroy => destroy w
  | Configure rt d => configure rt d w
  end.

Definition steps (evs : list event) (w : world) : world := fold_left step evs w.

(** Events of the host alone: timers firing and analyses finishing. *)
Definition hostEvent (ev : event) : Prop :=
  match ev with Fire _ | Complete _ _ _ => True | _ => False end.

(** A series of calls, and the promises they return in order. *)
Fixpoint callAll (calls : list (string * options * Z)) (w : world) : list nat * world :=
  match calls with
  | [] => ([], w)
  | (text, o, now) :: rest =>
      let (p, w1) := analyzeRealTime text o now w in
      let (ps, w2) := callAll rest w1 in
      (p :: ps, w2)
  end.

Definition stateOf (p : nat) (w : world) : option pstate := promiseState p (promises w).

(** An engine that has not been called yet.  Timer handles are positive
    integers, so [if (analysis.timeout)] in [destroy] always holds. *)
Definition idle (e : engine) : world := mkWorld e [] [] 1 [] [] 0 [].

(** Promise numbers handed out so far are below [nextPromise]. *)
Definition fresh (w : world) : Prop :=
  (forall q s, In (q, s) (promises w) -> (q < nextPromise w)%nat)
  /\ (forall tm, In tm (timers w) -> (j_promise (tm_job tm) < nextPromise w)%nat)
  /\ (forall j, In j (running w) -> (j_promise j < nextPromise w)%nat).

(** Nothing armed and nothing in flight. *)
Definition quiescent (w : world) : Prop :=
  timers w = [] /\ running w = [] /\ fresh w.

(** The promise [p] is pending and no timer and no analysis in flight holds
    its [resolve] or [reject]. *)
Definition orphan (p : nat) (w : world) : Prop :=
  stateOf p w = Some Pending
  /\ (forall tm, In tm (timers w) -> j_promise (tm_job tm) <> p)
  /\ (forall j, In j (running w) -> j_promise j <> p)
  /\ (p < nextPromise w)%nat.

(** ** Facts about [analyze] *)

Lemma analyze_empty e o startTime endTime :
  analyze "" o startTime endTime e = (inl "Invalid text input", e).
Proof. reflexivity. Qed.

Lemma analyzeText_empty o st :
  TextAnalyzer.analyzeText generateIssueId provider parseJson "" o st
  = (inr TextAnalyzer.emptyResult, st).
Proof. reflexivity. Qed.

(** ** Facts about timers and promises *)

Lemma In_clearTimeout tid tm l :
  In tm (clearTimeout tid l) -> In tm l /\ tm_id tm <> tid.
Proof.
  unfold clearTimeout. rewrite filter_In. intros [H1 H2]. split; [exact H1|].
  intros E. rewrite E, Nat.eqb_refl in H2. discriminate.
Qed.

Lemma findTimer_In tid l tm : findTimer tid l = Some tm -> In tm l /\ tm_id tm = tid.
Proof.
  induction l as [|a l IH]; simpl; [discriminate|].
  destruct (Nat.eqb_spec (tm_id a) tid) as [E|_].
  - intros H. inversion H; subst. auto.
  - intros H. destruct (IH H). auto.
Qed.

Lemma findJob_In p l j : findJob p l = Some j -> In j l /\ j_promise j = p.
Proof.
  induction l as [|a l IH]; simpl; [discriminate|].
  destruct (Nat.eqb_spec (j_promise a) p) as [E|_].
  - intros H. inversion H; subst. auto.
  - intros H. destruct (IH H). auto.
Qed.

Lemma promiseState_app_found p l l' s :
  promiseState p l = Some s -> promiseState p (l ++ l') = Some s.
Proof.
  induction l as [|[q s'] l IH]; simpl; [discriminate|].
  destruct (Nat.eqb q p); auto.
Qed.

Lemma promiseState_app_new p l s :
  (forall q s', In (q, s') l -> (q < p)%nat) ->
  promiseState p (l ++ [(p, s)]) = Some s.
Proof.
  induction l as [|[q s'] l IH]; simpl; intros H.
  - now rewrite Nat.eqb_refl.
  - destruct (Nat.eqb_spec q p) as [E|_].
    + specialize (H q s' (or_introl eq_refl)). lia.
    + apply IH. intros q' s'' Hin. eapply H. right. exact Hin.
Qed.

Lemma promiseState_settle_other p q s l :
  q <> p -> promiseState p (settle q s l) = promiseState p l.
Proof.
  intros Hne. induction l as [|[r s'] l IH]; simpl; [reflexivity|].
  destruct (Nat.eqb_spec r q) as [E|_]; simpl.
  - subst r. destruct (Nat.eqb_spec q p); [congruence | reflexivity].
  - destruct (Nat.eqb r p); [reflexivity | exact IH].
Qed.

Lemma In_fold_clearTimeout (rows : list (string * active)) : forall l tm,
  In tm (fold_left (fun l ka => clearTimeout (a_timeout (snd ka)) l) rows l) ->
  In tm l.
Proof.
  induction rows as [|r rows IH]; simpl; intros l tm H; [exact H|].
  apply IH in H. now apply In_clearTimeout in H.
Qed.

(** An orphaned promise stays orphaned whatever happens next. *)
Lemma orphan_step p w ev : orphan p w -> orphan p (step w ev).
Proof.
  intros (Hs & Ht & Hr & Hp). destruct ev as [text o now|tid|q s t| | |rt d]; simpl.
  - (* Call *)
    unfold analyzeRealTime.
    destruct (negb (enableRealTimeAnalysis (config (eng w)))); cbn [snd];
      unfold orphan, stateOf; cbn [promises timers running nextPromise].
    + repeat split.
      * now apply promiseState_app_found.
      * exact Ht.
      * intros j Hj. apply in_app_iff in Hj. destruct Hj as [Hj|[<-|[]]]; [auto|].
        cbn. lia.
      * lia.
    + repeat split.
      * now apply promiseState_app_found.
      * intros tm Hin. apply in_app_iff in Hin. destruct Hin as [Hin|[<-|[]]].
        -- destruct (JsMap.get _ _); [apply In_clearTimeout in Hin|]; apply Ht; tauto.
        -- cbn. lia.
      * exact Hr.
      * lia.
  - (* Fire *)
    unfold fire. destruct (findTimer tid (timers w)) as [tm|] eqn:E;
      [|repeat split; assumption].
    apply findTimer_In in E. destruct E as [Hin _].
    unfold orphan, stateOf; cbn [promises timers running nextPromise].
    repeat split; try assumption.
    + intros tm' H. apply In_clearTimeout in H. apply Ht. tauto.
    + intros j Hj. apply in_app_iff in Hj. destruct Hj as [Hj|[<-|[]]]; auto.
  - (* Complete *)
    unfold complete. destruct (findJob q (running w)) as [j|] eqn:E;
      [|repeat split; assumption].
    apply findJob_In in E. destruct E as [Hin Hq].
    destruct (analyze _ _ _ _ _) as [outcome e'].
    unfold orphan, stateOf; cbn [promises timers running nextPromise].
    repeat split; try assumption.
    + rewrite promiseState_settle_other; [exact Hs|].
      rewrite <- Hq. now apply Hr.
    + intros j' Hj'. apply filter_In in Hj'. apply Hr. tauto.
  - (* Reset *)
    unfold reset. destruct (analysisCache (eng w)); repeat split; assumption.
  - (* Destroy *)
    unfold destroy, orphan, stateOf; cbn [promises timers running nextPromise].
    repeat split; try assumption.
    intros tm H. apply In_fold_clearTimeout in H. now apply Ht.
  - (* Configure *)
    repeat split; assumption.
Qed.

Lemma orphan_steps p evs : forall w, orphan p w -> orphan p (steps evs w).
Proof.
  induction evs as [|ev evs IH]; intros w H; simpl; [exact H|].
  apply IH. now apply orphan_step.
Qed.

(** A call under an analysis id orphans the promise of the call whose timer
    is registered under that id. *)
Lemma superseding_call_orphans w a text o now p :
  enableRealTimeAnalysis (config (eng w)) = true ->
  JsMap.get (effectiveId o now) (activeAnalyses w) = Some a ->
  stateOf p w = Some Pending ->
  (p < nextPromise w)%nat ->
  (forall tm, In tm (timers w) -> j_promise (tm_job tm) = p -> tm_id tm = a_timeout a) ->
  (forall j, In j (running w) -> j_promise j <> p) ->
  orphan p (snd (analyzeRealTime text o now w)).
Proof.
  intros Hrt Hget Hs Hp Ht Hr. unfold analyzeRealTime. rewrite Hrt, Hget.
  cbn [negb snd]. unfold orphan, stateOf; cbn [promises timers running nextPromise].
  repeat split.
  - now apply promiseState_app_found.
  - intros tm Hin. apply in_app_iff in Hin. destruct Hin as [Hin|[<-|[]]].
    + apply In_clearTimeout in Hin. destruct Hin as [Hin Hid]. intros E.
      apply Hid. now apply Ht.
    + cbn. lia.
  - exact Hr.
  - lia.
Qed.

(** The world after one real-time call, in full. *)
Lemma analyzeRealTime_enabled w text o now :
  enableRealTimeAnalysis (config (eng w)) = true ->
  analyzeRealTime text o now w =
  (nextPromise w,
   mkWorld (eng w)
     (JsMap.set (effectiveId o now) (mkActive (nextTimer w) text o (nextPromise w))
        (activeAnalyses w))
     (match JsMap.get (effectiveId o now) (activeAnalyses w) with
      | Some a => clearTimeout (a_timeout a) (timers w)
      | None => timers w
      end ++ [mkTimer (nextTimer w) (analysisDelay (config (eng w)))
                (mkJob (Some (effectiveId o now)) text o (nextPromise w))])
     (S (nextTimer w)) (running w)
     (promises w ++ [(nextPromise w, Pending)]) (S (nextPromise w))
     (executed w)).
Proof. intros H. unfold analyzeRealTime. now rewrite H. Qed.

Lemma effectiveId_explicit o now x :
  analysisId o = Some x -> x <> "" -> effectiveId o now = x.
Proof.
  intros H Hx. unfold effectiveId, Js.str_or. rewrite H.
  destruct (String.eqb_spec x ""); [congruence | reflexivity].
Qed.

(** With no timer armed, firing and finishing start no analysis. *)
Lemma host_events_start_nothing evs : forall w,
  Forall hostEvent evs -> timers w = [] ->
  executed (steps evs w) = executed w.
Proof.
  induction evs as [|ev evs IH]; intros w Hev Ht; simpl; [reflexivity|].
  inversion Hev as [|? ? Hh Hrest]; subst.
  destruct ev as [text o now|tid|q s t| | |rt d]; simpl in Hh; try contradiction.
  - simpl. unfold fire. rewrite Ht. simpl. now apply IH.
  - simpl. unfold complete. destruct (findJob q (running w)) as [j|];
      [|now apply IH].
    destruct (analyze _ _ _ _ _) as [outcome e']. rewrite IH; auto.
Qed.

(** The state of the debounce after at least one call under the id [x]:
    one timer, registered under [x], carrying the text and options of the
    latest call. *)
Definition collapsed (x : string) (text : string) (o : options) (p : nat)
    (w0 w : world) : Prop :=
  timers w = [mkTimer (pred (nextTimer w)) (analysisDelay (config (eng w0)))
                (mkJob (Some x) text o p)]
  /\ JsMap.get x (activeAnalyses w) = Some (mkActive (pred (nextTimer w)) text o p)
  /\ running w = []
  /\ executed w = executed w0
  /\ eng w = eng w0
  /\ S p = nextPromise w
  /\ stateOf p w = Some Pending
  /\ (forall q s, In (q, s) (promises w) -> (q < nextPromise w)%nat).

Lemma first_call_collapsed w0 x text o now :
  quiescent w0 -> enableRealTimeAnalysis (config (eng w0)) = true ->
  analysisId o = Some x -> x <> "" ->
  collapsed x text o (fst (analyzeRealTime text o now w0)) w0
    (snd (analyzeRealTime text o now w0)).
Proof.
  intros (Ht & Hr & Hf & _ & _) Hrt Hid Hx.
  rewrite analyzeRealTime_enabled by exact Hrt.
  rewrite (effectiveId_explicit o now x Hid Hx). cbn [fst snd].
  unfold collapsed, stateOf;
    cbn [timers activeAnalyses running executed eng nextPromise nextTimer promises pred].
  rewrite Ht. repeat split.
  - destruct (JsMap.get x (activeAnalyses w0)); reflexivity.
  - apply JsMap.get_set_same.
  - exact Hr.
  - now apply promiseState_app_new.
  - intros q s Hin. apply in_app_iff in Hin. destruct Hin as [Hin|[Hin|[]]].
    + apply Hf in Hin. lia.
    + inversion Hin; subst. lia.
Qed.

Lemma next_call_collapsed w0 w x text0 o0 p0 text o now :
  collapsed x text0 o0 p0 w0 w ->
  enableRealTimeAnalysis (config (eng w0)) = true ->
  analysisId o = Some x -> x <> "" ->
  collapsed x text o (fst (analyzeRealTime text o now w)) w0
    (snd (analyzeRealTime text o now w))
  /\ orphan p0 (snd (analyzeRealTime text o now w)).
Proof.
  intros (Ht & Hg & Hr & He & Heng & Hp & Hs & Hf) Hrt Hid Hx.
  assert (Hrt' : enableRealTimeAnalysis (config (eng w)) = true) by now rewrite Heng.
  split.
  - rewrite analyzeRealTime_enabled by exact Hrt'.
    rewrite (effectiveId_explicit o now x Hid Hx). cbn [fst snd].
    unfold collapsed, stateOf;
      cbn [timers activeAnalyses running executed eng nextPromise nextTimer promises pred].
    rewrite Hg, Ht, Heng. cbn [a_timeout clearTimeout filter tm_id].
    rewrite Nat.eqb_refl. cbn [negb app]. repeat split; try assumption.
    + apply JsMap.get_set_same.
    + now apply promiseState_app_new.
    + intros q s Hin. apply in_app_iff in Hin. destruct Hin as [Hin|[Hin|[]]].
      * apply Hf in Hin. lia.
      * inversion Hin; subst. lia.
  - eapply superseding_call_orphans with (a := mkActive (pred (nextTimer w)) text0 o0 p0).
    + exact Hrt'.
    + now rewrite (effectiveId_explicit o now x Hid Hx).
    + exact Hs.
    + lia.
    + intros tm Hin _. rewrite Ht in Hin. destruct Hin as [<-|[]]. reflexivity.
    + rewrite Hr. intros j [].
Qed.

(** A promise is accounted for when it is orphaned or is the one the single
    armed timer will settle. *)
Definition accounted (x : string) (w0 : world) (q : nat) (w : world) : Prop :=
  orphan q w \/ exists text o, collapsed x text o q w0 w.

(** Before the first call the world is the quiescent [w0]; after any call it
    is collapsed. *)
Definition ready (x : string) (w0 w : world) : Prop :=
  (w = w0 /\ quiescent w0) \/ exists text o p, collapsed x text o p w0 w.

Lemma call_ready x w0 w text o now :
  ready x w0 w -> enableRealTimeAnalysis (config (eng w0)) = true ->
  analysisId o = Some x -> x <> "" ->
  collapsed x text o (fst (analyzeRealTime text o now w)) w0
    (snd (analyzeRealTime text o now w))
  /\ (forall q, accounted x w0 q w -> orphan q (snd (analyzeRealTime text o now w))).
Proof.
  intros Hready Hrt Hid Hx. destruct Hready as [[-> Hq]|(text0 & o0 & p0 & Hc)].
  - split; [now apply first_call_collapsed|].
    intros q [Ho|(t' & o' & Hc)].
    + now apply (orphan_step q w0 (Call text o now)).
    + destruct Hq as (Ht & _). destruct Hc as (Ht' & _).
      rewrite Ht in Ht'. discriminate.
  - destruct (next_call_collapsed w0 w x text0 o0 p0 text o now Hc Hrt Hid Hx)
      as [Hc' Ho'].
    split; [exact Hc'|].
    intros q [Ho|(t' & o' & Hcq)].
    + now apply (orphan_step q w (Call text o now)).
    + assert (q = p0).
      { destruct Hc as (_ & _ & _ & _ & _ & Hp & _).
        destruct Hcq as (_ & _ & _ & _ & _ & Hq & _). lia. }
      subst q. exact Ho'.
Qed.

Lemma callAll_cons text o now rest w :
  callAll ((text, o, now) :: rest) w
  = (fst (analyzeRealTime text o now w)
       :: fst (callAll rest (snd (analyzeRealTime text o now w))),
     snd (callAll rest (snd (analyzeRealTime text o now w)))).
Proof.
  simpl. destruct (analyzeRealTime text o now w) as [p w1]. simpl.
  destruct (callAll rest w1) as [ps w2]. reflexivity.
Qed.

Lemma callAll_ready x w0 calls : forall w,
  ready x w0 w -> enableRealTimeAnalysis (config (eng w0)) = true -> x <> "" ->
  Forall (fun c : string * options * Z => analysisId (snd (fst c)) = Some x) calls ->
  ready x w0 (snd (callAll calls w))
  /\ (forall q, accounted x w0 q w -> accounted x w0 q (snd (callAll calls w)))
  /\ (forall q, In q (fst (callAll calls w)) -> accounted x w0 q (snd (callAll calls w))).
Proof.
  induction calls as [|[[text o] now] rest IH]; intros w Hready Hrt Hx Hall.
  - simpl. repeat split; auto. intros q [].
  - inversion Hall as [|? ? Hid Hrest]; subst. cbn [fst snd] in Hid.
    rewrite callAll_cons. cbn [fst snd].
    destruct (call_ready x w0 w text o now Hready Hrt Hid Hx) as [Hc Ho].
    set (w1 := snd (analyzeRealTime text o now w)) in *.
    set (p := fst (analyzeRealTime text o now w)) in *.
    destruct (IH w1) as (IH1 & IH2 & IH3); auto.
    { right. exists text, o, p. exact Hc. }
    repeat split.
    + exact IH1.
    + intros q Hq. apply IH2. left. now apply Ho.
    + intros q [<-|Hq].
      * apply IH2. right. exists text, o. exact Hc.
      * now apply IH3.
Qed.

(** The debounce from rest.  From a quiescent engine with real-time analysis
    enabled, any series of calls under one (non-empty) analysis id, none of
    whose timers has fired when the next call arrives, leaves exactly one
    timer armed, and it carries the text and options of the last call.  When
    it fires, that one analysis is started, and whatever timers and
    completions follow, no other analysis is started; the promises of all
    the earlier calls stay pending: not executed, not rejected. *)
Lemma debounce_from_rest
  (w0 : world) (x : string) (calls : list (string * options * Z))
  (text : string) (o : options) (now : Z) (evs : list event) :
  quiescent w0 ->
  enableRealTimeAnalysis (config (eng w0)) = true ->
  x <> "" ->
  Forall (fun c : string * options * Z => analysisId (snd (fst c)) = Some x) calls ->
  analysisId o = Some x ->
  Forall hostEvent evs ->
  let w1 := snd (callAll calls w0) in
  let superseded := fst (callAll calls w0) in
  let p := fst (analyzeRealTime text o now w1) in
  let w2 := snd (analyzeRealTime text o now w1) in
  exists tid,
    timers w2 = [mkTimer tid (analysisDelay (config (eng w0))) (mkJob (Some x) text o p)]
    /\ executed w2 = executed w0
    /\ executed (steps (Fire tid :: evs) w2) = executed w0 ++ [(text, o)]
    /\ Forall (fun q => stateOf q (steps (Fire tid :: evs) w2) = Some Pending)
         superseded.
Proof.
  intros Hq Hrt Hx Hall Hid Hev. cbv zeta.
  destruct (callAll_ready x w0 calls w0) as (Hready & _ & Hacc); auto.
  { left. auto. }
  set (w1 := snd (callAll calls w0)) in *.
  destruct (call_ready x w0 w1 text o now Hready Hrt Hid Hx) as [Hc Ho].
  set (w2 := snd (analyzeRealTime text o now w1)) in *.
  set (p := fst (analyzeRealTime text o now w1)) in *.
  destruct Hc as (Ht & Hg & Hr & He & Heng & Hp & Hs & Hf).
  exists (pred (nextTimer w2)). split; [exact Ht|]. split; [exact He|]. split.
  - cbn [steps fold_left step]. fold (steps evs (fire (pred (nextTimer w2)) w2)).
    rewrite host_events_start_nothing; [| exact Hev |].
    + unfold fire. rewrite Ht. cbn [findTimer tm_id]. rewrite Nat.eqb_refl.
      cbn [executed tm_job j_text j_options]. now rewrite He.
    + unfold fire. rewrite Ht. cbn [findTimer tm_id]. rewrite Nat.eqb_refl.
      cbn [timers clearTimeout filter tm_id]. now rewrite Nat.eqb_refl.
  - apply Forall_forall. intros q Hin.
    apply (orphan_steps q (Fire (pred (nextTimer w2)) :: evs) w2).
    apply Ho. now apply Hacc.
Qed.

(** A real-time call followed, before anything else happens, by another
    call under the same analysis id returns a promise that stays pending
    through every later sequence of calls, timer firings, completions,
    resets, reconfigurations and destruction: it is never resolved and never
    rejected. *)
Lemma cleared_timer_promise_pending_forever
  (w : world) (text1 : string) (o1 : options) (now1 : Z)
  (text2 : string) (o2 : options) (now2 : Z) (evs : list event) :
  fresh w ->
  enableRealTimeAnalysis (config (eng w)) = true ->
  effectiveId o1 now1 = effectiveId o2 now2 ->
  let p1 := fst (analyzeRealTime text1 o1 now1 w) in
  let w1 := snd (analyzeRealTime text1 o1 now1 w) in
  let w2 := snd (analyzeRealTime text2 o2 now2 w1) in
  stateOf p1 (steps evs w2) = Some Pending.
Proof.
  intros (Hfp & Hft & Hfr) Hrt Hid. cbv zeta.
  rewrite (analyzeRealTime_enabled w text1 o1 now1 Hrt). cbn [fst snd].
  match goal with |- context [analyzeRealTime text2 o2 now2 ?ww] => set (w1 := ww) end.
  apply (orphan_steps (nextPromise w) evs).
  apply superseding_call_orphans
    with (a := mkActive (nextTimer w) text1 o1 (nextPromise w)).
  - exact Hrt.
  - rewrite <- Hid. subst w1. cbn [activeAnalyses]. apply JsMap.get_set_same.
  - subst w1. unfold stateOf. cbn [promises]. now apply promiseState_app_new.
  - subst w1. cbn [nextPromise]. lia.
  - subst w1. cbn [timers a_timeout]. intros tm Hin Hp.
    apply in_app_iff in Hin. destruct Hin as [Hin|[<-|[]]]; [|reflexivity].
    assert (Hin' : In tm (timers w)).
    { destruct (JsMap.get _ _); [apply In_clearTimeout in Hin; tauto | exact Hin]. }
    apply Hft in Hin'. lia.
  - subst w1. cbn [running]. intros j Hin E. apply Hfr in Hin. lia.
Qed.

(** C6 (code defect).  On every engine [AnalysisEngine.analyze] rejects the
    empty string with the validation error, because [!text] holds of the
    empty string; the engine is left as it was, so no prompt goes to the
    provider, but no result is produced either.  The engine's own test
    ('should handle empty text') awaits a result with no issues and no
    suggestions, and [TextAnalyzer.analyzeText], the path below, answers the
    empty string with exactly that result. *)
Theorem empty_text_is_rejected
  (e : engine) (o : options) (startTime endTime : Z)
  (optionsStr : string) (st : TextAnalyzer.state) :
  analyze "" o startTime endTime e = (inl "Invalid text input", e)
  /\ providerCalls (snd (analyze "" o startTime endTime e)) = providerCalls e
  /\ TextAnalyzer.analyzeText generateIssueId provider parseJson "" optionsStr st
     = (inr (TextAnalyzer.mkResult [] [] (TextAnalyzer.mkMetadata 0 0 0)), st).
Proof. repeat split. Qed.

(** ** The engine's cache *)

Lemma get_retimed (key : string) (stored : analysisResult)
    (m : JsMap.t (AnalysisCache.entry analysisResult)) :
  JsMap.get key
    (map (fun ke => if String.eqb (fst ke) key
                    then (fst ke, retimeEntry stored (snd ke)) else ke) m)
  = option_map (retimeEntry stored) (JsMap.get key m).
Proof.
  induction m as [|[k' en] m IH]; [reflexivity|].
  cbn [map fst snd JsMap.get]. destruct (String.eqb k' key) eqn:E.
  - cbn [JsMap.get]. now rewrite E.
  - cbn [JsMap.get]. now rewrite E.
Qed.

(** What [get] finds under the key of a result that was stored and then
    given its processing time. *)
Lemma get_retime_set (cache : AnalysisCache.t analysisResult) (key : string)
    (ar stored : analysisResult) (o_ttl : option Z) (now now' : Z) :
  fst (AnalysisCache.get key now'
         (retime key stored (AnalysisCache.set calculateSize key ar o_ttl now cache)))
  = if now' >? now + AnalysisCache.num_or o_ttl (AnalysisCache.maxAge cache)
    then None else Some stored.
Proof.
  destruct (AnalysisCache.set_maps calculateSize cache key ar o_ttl now) as (Hc & _).
  cbv zeta in Hc. unfold AnalysisCache.get, retime.
  cbn [AnalysisCache.cache AnalysisCache.with_maps].
  rewrite get_retimed, Hc, JsMap.get_set_same. cbn [option_map retimeEntry].
  unfold AnalysisCache.isExpired.
  cbn [AnalysisCache.e_expires AnalysisCache.e_data].
  destruct (_ >? _); reflexivity.
Qed.

(** How long [analyze] caches a result: [options.cacheTtl], or the cache's
    [maxAge] when that is missing or zero. *)
Definition cacheLifetime (o : options) (cache : AnalysisCache.t analysisResult) : Z :=
  Js.num_or (cacheTtl o) (AnalysisCache.maxAge cache).

Lemma get_maxAge key now (cache : AnalysisCache.t analysisResult) :
  AnalysisCache.maxAge (snd (AnalysisCache.get key now cache))
  = AnalysisCache.maxAge cache.
Proof.
  unfold AnalysisCache.get. destruct (JsMap.get key _) as [en|]; [|reflexivity].
  destruct (AnalysisCache.isExpired now en); reflexivity.
Qed.

Lemma lifetime_twice (o : options) (m : Z) :
  AnalysisCache.num_or (Some (Js.num_or (cacheTtl o) m)) m = Js.num_or (cacheTtl o) m.
Proof.
  unfold AnalysisCache.num_or, Js.num_or. destruct (cacheTtl o) as [v|].
  - destruct (Z.eqb_spec v 0) as [->|Hv].
    + destruct (m =? 0) eqn:E; [now apply Z.eqb_eq in E | reflexivity].
    + destruct (Z.eqb_spec v 0); [congruence | reflexivity].
  - destruct (m =? 0) eqn:E; [now apply Z.eqb_eq in E | reflexivity].
Qed.

(** A result computed with the cache enabled is served from the cache
    afterwards: the same call, entered no later than the cached result's
    lifetime after the first one finished, returns the same result marked
    as coming from the cache, sends nothing to the provider, and counts as
    a cache hit and not as an analysis. *)
Theorem analyze_repeat_hits_cache (text : string) (o : options) (s1 t1 s2 t2 : Z)
    (e e1 : engine) (c : AnalysisCache.t analysisResult) (r : analysisResult) :
  enableCache (config e) = true ->
  analysisCache e = Some c ->
  analyze text o s1 t1 e = (inr r, e1) ->
  md_fromCache r = Some false ->
  s2 <= t1 + cacheLifetime o c ->
  exists e2,
    analyze text o s2 t2 e1 = (inr (enrichResult r true), e2)
    /\ providerCalls e2 = providerCalls e1
    /\ cacheHits (estats e2) = cacheHits (estats e1) + 1
    /\ totalAnalyses (estats e2) = totalAnalyses (estats e1).
Proof.
  intros Hen Hc H Hmiss Hlife. unfold analyze in H.
  destruct (String.eqb text "") eqn:Et; [discriminate|].
  destruct (Js.len text >? maxTextLength (config e)) eqn:El; [discriminate|].
  rewrite Hc, Hen in H. destruct (textAnalyzer e) as [ta|]; [|discriminate].
  set (key := AnalysisCache.generateKey text (optionsHash o)) in *.
  destruct (AnalysisCache.get key s1 c) as [[cached|] cache1] eqn:Eg.
  { inversion H; subst. discriminate. }
  destruct (performAnalysis text o t1 ta) as [[err|ar] ta1] eqn:Ep; [discriminate|].
  inversion H; subst. clear H.
  unfold analyze. cbn [config analysisCache textAnalyzer]. rewrite Et, El, Hen.
  fold key.
  set (stored := withProcessingTime ar (t1 - s1)).
  pose proof (get_retime_set cache1 key ar stored
                (Some (Js.num_or (cacheTtl o) (AnalysisCache.maxAge cache1)))
                t1 s2) as Hget.
  assert (Hm : AnalysisCache.maxAge cache1 = AnalysisCache.maxAge c).
  { replace cache1 with (snd (AnalysisCache.get key s1 c)) by now rewrite Eg.
    apply get_maxAge. }
  rewrite lifetime_twice, Hm in Hget. unfold cacheLifetime in Hlife.
  replace (s2 >? t1 + Js.num_or (cacheTtl o) (AnalysisCache.maxAge c)) with false
    in Hget by (symmetry; rewrite Z.gtb_ltb; apply Z.ltb_ge; lia).
  rewrite Hm.
  destruct (AnalysisCache.get key s2 _) as [[x|] cache3]; cbn [fst] in Hget;
    [|discriminate].
  inversion Hget; subst x. eexists. repeat split.
Qed.

(** ** [destroy] *)

Lemma fold_clearTimeout_removes (rows : list (string * active)) : forall l tm,
  In tm (fold_left (fun l ka => clearTimeout (a_timeout (snd ka)) l) rows l) ->
  forall k a, In (k, a) rows -> tm_id tm <> a_timeout a.
Proof.
  induction rows as [|row rows IH]; simpl; intros l tm H k a Hin; [destruct Hin|].
  destruct Hin as [->|Hin].
  - apply In_fold_clearTimeout in H. now apply In_clearTimeout in H.
  - now apply (IH _ _ H k a).
Qed.

Lemma findTimer_absent tid l :
  (forall tm, In tm l -> tm_id tm <> tid) -> findTimer tid l = None.
Proof.
  induction l as [|tm l IH]; intros H; [reflexivity|]. simpl.
  destruct (Nat.eqb_spec (tm_id tm) tid) as [E|_].
  - exfalso. apply (H tm); [now left | exact E].
  - apply IH. intros tm' Hin. apply H. now right.
Qed.

(** After [destroy] the timer of every registered analysis is disarmed, so
    none of them will run, and every later call of [analyze] is rejected
    without the engine doing anything. *)
Theorem destroy_disarms_and_disables (w : world) :
  (forall k a, In (k, a) (activeAnalyses w) ->
     findTimer (a_timeout a) (timers (destroy w)) = None)
  /\ (forall text o startTime endTime,
        exists err,
          analyze text o startTime endTime (eng (destroy w))
          = (inl err, eng (destroy w))).
Proof.
  split.
  - intros k a Hin. apply findTimer_absent. intros tm Htm.
    unfold destroy in Htm. cbn [timers] in Htm.
    now apply (fold_clearTimeout_removes _ _ _ Htm k a).
  - intros text o startTime endTime. unfold analyze.
    destruct (String.eqb text ""); [eauto|].
    destruct (_ >? _); [eauto|].
    unfold destroy. cbn [eng analysisCache]. eauto.
Qed.

End Engine.

(** ** Concrete runs *)

Definition noEnhanced (_ : list TextAnalyzer.issue) (_ : string) : list unit := [].
Definition keepIssue (i : TextAnalyzer.issue) (_ : string) : list TextAnalyzer.issue := [i].
Definition sizeTwo (_ : analysisResult unit) : Z := 2.

(** An engine built with the default options over an empty storage slot. *)
Definition demoEngine : engine unit :=
  new unit None None true true true None None None 0.

(** Options that name the analysis id [x]. *)
Definition underX : options := mkOptions (Some "x") None "{}" "0".

(** The scenario of the specification: three calls under the id [x], 100 ms
    apart, inside the 500 ms window; then the timer fires and the analysis
    finishes. *)
Lemma debounce_from_rest_witness :
  let w0 := idle unit demoEngine in
  let w1 := snd (callAll unit [("T", underX, 0); ("Th", underX, 100)] w0) in
  let superseded := fst (callAll unit [("T", underX, 0); ("Th", underX, 100)] w0) in
  let p := fst (analyzeRealTime unit "Thi" underX 200 w1) in
  let w2 := snd (analyzeRealTime unit "Thi" underX 200 w1) in
  exists tid,
    timers unit w2 = [mkTimer tid 500 (mkJob (Some "x") "Thi" underX p)]
    /\ executed unit w2 = []
    /\ executed unit
         (steps TextAnalyzer.someId TextAnalyzer.pointProvider TextAnalyzer.pointJson
            unit noEnhanced keepIssue sizeTwo
            [Fire tid; Complete 2 700 900] w2)
       = [("Thi", underX)]
    /\ Forall (fun q =>
                 stateOf unit q
                   (steps TextAnalyzer.someId TextAnalyzer.pointProvider
                      TextAnalyzer.pointJson unit noEnhanced keepIssue sizeTwo
                      [Fire tid; Complete 2 700 900] w2)
                 = Some (Pending unit))
         superseded.
Proof.
  apply (debounce_from_rest TextAnalyzer.someId TextAnalyzer.pointProvider
           TextAnalyzer.pointJson unit noEnhanced keepIssue sizeTwo
           (idle unit demoEngine) "x" [("T", underX, 0); ("Th", underX, 100)]
           "Thi" underX 200 [Complete 2 700 900]).
  - unfold quiescent, fresh. simpl. repeat split; intros; contradiction.
  - reflexivity.
  - discriminate.
  - repeat constructor.
  - reflexivity.
  - repeat constructor.
Defined.

(** The same three calls: which promise ends how. *)
Example three_calls_outcome :
  let w := steps TextAnalyzer.someId TextAnalyzer.pointProvider TextAnalyzer.pointJson
             unit noEnhanced keepIssue sizeTwo
             [Call "T" underX 0; Call "Th" underX 100; Call "Thi" underX 200;
              Fire 3; Complete 2 700 900]
             (idle unit demoEngine) in
  stateOf unit 0 w = Some (Pending unit)
  /\ stateOf unit 1 w = Some (Pending unit)
  /\ (exists r, stateOf unit 2 w = Some (Resolved unit r))
  /\ executed unit w = [("Thi", underX)].
Proof. cbv zeta. vm_compute. repeat split. eexists. reflexivity. Qed.

(** Two calls under the id [x], then the timer, the completion, a reset and
    the destruction of the engine: the first promise is still pending. *)
Lemma cleared_timer_promise_pending_forever_witness :
  let p1 := fst (analyzeRealTime unit "T" underX 0 (idle unit demoEngine)) in
  let w1 := snd (analyzeRealTime unit "T" underX 0 (idle unit demoEngine)) in
  let w2 := snd (analyzeRealTime unit "Th" underX 100 w1) in
  stateOf unit p1
    (steps TextAnalyzer.someId TextAnalyzer.pointProvider TextAnalyzer.pointJson
       unit noEnhanced keepIssue sizeTwo
       [Fire 2; Complete 1 600 800; Reset; Destroy] w2)
  = Some (Pending unit).
Proof.
  apply (cleared_timer_promise_pending_forever TextAnalyzer.someId
           TextAnalyzer.pointProvider TextAnalyzer.pointJson unit noEnhanced
           keepIssue sizeTwo (idle unit demoEngine) "T" underX 0 "Th" underX 100
           [Fire 2; Complete 1 600 800; Reset; Destroy]).
  - unfold fresh. simpl. repeat split; intros; contradiction.
  - reflexivity.
  - reflexivity.
Defined.

(** A run in which an analysis is in flight while typing goes on.  The call
    [T] is made at 0 and its timer (1) fires; while its analysis runs, [Th]
    is called at 600 (timer 2, due at 1100); the analysis of [T] finishes
    at 700; [Thi] is called at 800, before timer 2 has fired. *)
Definition typingWhileInFlight : list event :=
  [Call "T" underX 0; Fire 1; Call "Th" underX 600; Complete 0 500 700;
   Call "Thi" underX 800].

Definition runDemo (evs : list event) : world unit :=
  steps TextAnalyzer.someId TextAnalyzer.pointProvider TextAnalyzer.pointJson
    unit noEnhanced keepIssue sizeTwo evs (idle unit demoEngine).

(** C5 (code defect).  In that run the calls [Th] and [Thi] share the id
    and [Thi] arrives before the timer of [Th] fires, yet both timers are
    armed afterwards and both analyses are executed: the callback of [T]
    deletes the row of the id when its analysis finishes, which by then is
    the row of [Th], so the call [Thi] finds no row and clears no timer. *)
Theorem completion_in_flight_defeats_debounce :
  map (fun tm => j_text (tm_job tm)) (timers unit (runDemo typingWhileInFlight))
  = ["Th"; "Thi"]
  /\ executed unit (runDemo (typingWhileInFlight ++ [Fire 2; Fire 3]))
     = [("T", underX); ("Th", underX); ("Thi", underX)].
Proof. split; vm_compute; reflexivity. Qed.

(** C10 (code defect).  In the same run the promise of [Th] (number 1), a
    call that a later call under the same id followed before its timer
    fired, is resolved once its timer has fired and its analysis has
    finished. *)
Theorem superseded_promise_resolves_after_in_flight_completion :
  stateOf unit 1 (runDemo typingWhileInFlight) = Some (Pending unit)
  /\ exists r,
       stateOf unit 1
         (runDemo (typingWhileInFlight ++ [Fire 2; Complete 1 1100 1300]))
       = Some (Resolved unit r).
Proof. split; [reflexivity|]. vm_compute. eexists. reflexivity. Qed.

(** ** A repeated analysis *)

(** The first analysis of [Teh cat.] by the default engine, entered at
    reading 0 and finished at reading 40: its result and the engine
    afterwards. *)
Definition firstResult : analysisResult unit :=
  Eval vm_compute in
    match fst (analyze TextAnalyzer.someId TextAnalyzer.pointProvider
                 TextAnalyzer.pointJson unit noEnhanced keepIssue sizeTwo
                 "Teh cat." underX 0 40 demoEngine) with
    | inr r => r
    | inl _ => mkAnalysisResult unit [] [] 0 0 0 0 None ""
    end.

Definition afterFirst : engine unit :=
  Eval vm_compute in
    snd (analyze TextAnalyzer.someId TextAnalyzer.pointProvider
           TextAnalyzer.pointJson unit noEnhanced keepIssue sizeTwo
           "Teh cat." underX 0 40 demoEngine).

Definition demoCache : AnalysisCache.t (analysisResult unit) :=
  AnalysisCache.new (Some 100) (Some (30 * 60 * 1000)) true None 0.

Lemma analyze_repeat_hits_cache_witness :
  exists e2,
    analyze TextAnalyzer.someId TextAnalyzer.pointProvider TextAnalyzer.pointJson
      unit noEnhanced keepIssue sizeTwo "Teh cat." underX 50 60 afterFirst
    = (inr (enrichResult unit firstResult true), e2)
    /\ providerCalls unit e2 = providerCalls unit afterFirst
    /\ cacheHits (estats unit e2) = cacheHits (estats unit afterFirst) + 1
    /\ totalAnalyses (estats unit e2) = totalAnalyses (estats unit afterFirst).
Proof.
  apply (analyze_repeat_hits_cache TextAnalyzer.someId TextAnalyzer.pointProvider
           TextAnalyzer.pointJson unit noEnhanced keepIssue sizeTwo
           "Teh cat." underX 0 40 50 60 demoEngine afterFirst demoCache firstResult).
  - reflexivity.
  - reflexivity.
  - vm_compute. reflexivity.
  - reflexivity.
  - vm_compute. discriminate.
Defined.

End AnalysisEngine.

(* ====================================================================== *)
(** * UnderlineRenderer (src/src/inline-checker/visual/UnderlineRenderer.js)

    The renderer works on the live DOM through [TreeWalker], [Range] and
    [Node.normalize].  The part of the DOM it touches is the subtree of the
    target element, modelled as a tree; the DOM algorithms it calls
    (extracting a range, inserting a node into a range, normalising) are
    written out on that tree. *)
(* ====================================================================== *)

Module UnderlineRenderer.

(** A node under the target element: a text node, an element of the page
    ([underlineClass] says whether its class list has [feelly-underline]),
    or a marker span made by the renderer and tracked in
    [activeUnderlines] under the number [uid]. *)
Local Unset Elimination Schemes.
Inductive node : Type :=
| Text (data : string)
| Elem (tag : string) (underlineClass : bool) (children : list node)
| Span (uid : nat) (issueId : string) (children : list node).
Local Set Elimination Schemes.

Definition path := list nat.

Definition childrenOf (n : node) : list node :=
  match n with
  | Text _ => []
  | Elem _ _ cs => cs
  | Span _ _ cs => cs
  end.

(** The same element with other children. *)
Definition withChildren (n : node) (cs : list node) : node :=
  match n with
  | Text d => Text d
  | Elem t u _ => Elem t u cs
  | Span i s _ => Span i s cs
  end.

(** [cloneNode(false)] with the given children: the copy of a marker is a
    span with the marker's class, and is not tracked. *)
Definition cloneWith (n : node) (cs : list node) : node :=
  match n with
  | Text d => Text d
  | Elem t u _ => Elem t u cs
  | Span _ _ _ => Elem "span" true cs
  end.

Definition hasUnderlineClass (n : node) : bool :=
  match n with
  | Text _ => false
  | Elem _ u _ => u
  | Span _ _ _ => true
  end.

Definition appendAll (l : list string) : string :=
  fold_right String.append EmptyString l.

(** [Node.textContent]. *)
Fixpoint textContent (n : node) : string :=
  match n with
  | Text d => d
  | Elem _ _ cs => appendAll (map textContent cs)
  | Span _ _ cs => appendAll (map textContent cs)
  end.

Definition textOf (cs : list node) : string := appendAll (map textContent cs).

(** The number of text nodes in the subtree. *)
Fixpoint textNodeCount (n : node) : nat :=
  match n with
  | Text _ => 1%nat
  | Elem _ _ cs => list_sum (map textNodeCount cs)
  | Span _ _ cs => list_sum (map textNodeCount cs)
  end.

(** ** [getTextNodes] *)

Definition isBlank (d : string) : bool := String.eqb (Js.trim d) "".

(** The children of a parent as the tree walker sees them, given what it
    finds below each child element: a text node is rejected when its parent
    has the marker class ([under]) or when it holds only white space. *)
Definition acceptedAmong (below : node -> list (path * string)) (under : bool)
  : nat -> list node -> list (path * string) :=
  fix go (i : nat) (cs : list node) : list (path * string) :=
    match cs with
    | [] => []
    | c :: cs' =>
        match c with
        | Text d => if under || isBlank d then [] else [([i], d)]
        | _ => map (fun pd => (i :: fst pd, snd pd)) (below c)
        end ++ go (S i) cs'
    end.

(** The text nodes the tree walker accepts under a node, in document order,
    each with its path from that node. *)
Fixpoint acceptedIn (n : node) : list (path * string) :=
  match n with
  | Text _ => []
  | Elem _ u cs => acceptedAmong acceptedIn u 0%nat cs
  | Span _ _ cs => acceptedAmong acceptedIn true 0%nat cs
  end.

Definition getTextNodes (element : node) : list (path * string) := acceptedIn element.

(** ** [createRangeFromIndices] *)

(** A boundary point: the text node at [bp_path], at offset [bp_offset]. *)
Record boundary := mkBoundary { bp_path : path; bp_offset : Z }.

(** The [for] loop; [start] is [startNode]/[startOffset] once found.  [None]
    is the [null] returned when either end was not found. *)
Fixpoint findRange (textNodes : list (path * string)) (startIndex endIndex : Z)
    (currentIndex : Z) (start : option boundary) : option (boundary * boundary) :=
  match textNodes with
  | [] => None
  | (p, d) :: rest =>
      let nodeEnd := currentIndex + Js.len d in
      let start' :=
        match start with
        | None =>
            if (startIndex >=? currentIndex) && (startIndex <=? nodeEnd)
            then Some (mkBoundary p (startIndex - currentIndex)) else None
        | Some _ => start
        end in
      if (endIndex >=? currentIndex) && (endIndex <=? nodeEnd) then
        match start' with
        | Some s => Some (s, mkBoundary p (endIndex - currentIndex))
        | None => None
        end
      else findRange rest startIndex endIndex nodeEnd start'
  end.

Definition createRangeFromIndices (textNodes : list (path * string))
    (startIndex endIndex : Z) : option (boundary * boundary) :=
  findRange textNodes startIndex endIndex 0 None.

(** ** Wrapping a range: [extractContents], then [insertNode] of the span *)

(** The two halves of a string around an offset. *)
Fixpoint splitAt (n : nat) (d : string) : string * string :=
  match n, d with
  | O, _ => (EmptyString, d)
  | S n', String c r => let (a, b) := splitAt n' r in (String c a, b)
  | S _, EmptyString => (EmptyString, EmptyString)
  end.

(** Extraction from a boundary point inside [n] to the end of [n]: what
    stays, and the copy that goes into the fragment.  Children after the
    boundary move to the copy. *)
Fixpoint cutRight (p : path) (off : nat) (n : node) : node * node :=
  match p with
  | [] =>
      match n with
      | Text d => let (a, b) := splitAt off d in (Text a, Text b)
      | _ => (n, Text EmptyString)
      end
  | i :: p' =>
      match n with
      | Text _ => (n, Text EmptyString)
      | _ =>
          let cs := childrenOf n in
          match nth_error cs i with
          | Some c =>
              let (stay, go) := cutRight p' off c in
              (withChildren n (firstn i cs ++ [stay]),
               cloneWith n (go :: skipn (S i) cs))
          | None => (n, Text EmptyString)
          end
      end
  end.

(** Extraction from the start of [n] to a boundary point inside it: the
    copy that goes into the fragment, and what stays. *)
Fixpoint cutLeft (p : path) (off : nat) (n : node) : node * node :=
  match p with
  | [] =>
      match n with
      | Text d => let (a, b) := splitAt off d in (Text a, Text b)
      | _ => (Text EmptyString, n)
      end
  | j :: p' =>
      match n with
      | Text _ => (Text EmptyString, n)
      | _ =>
          let cs := childrenOf n in
          match nth_error cs j with
          | Some c =>
              let (go, stay) := cutLeft p' off c in
              (cloneWith n (firstn j cs ++ [go]),
               withChildren n (stay :: skipn (S j) cs))
          | None => (Text EmptyString, n)
          end
      end
  end.

(** The range within one text node: the node is split in three and the
    middle goes into the span ([insertNode] splits the text node at the
    start offset even when a half is empty; a collapsed range extracts
    nothing).  [setEnd] before the start collapses the range to the end. *)
Definition wrapInText (mk : list node -> node) (so eo : nat) (d : string) : list node :=
  let so' := Nat.min so eo in
  let (pre, rest) := splitAt so' d in
  let (mid, post) := splitAt (eo - so') rest in
  [Text pre; mk (if Nat.eqb so' eo then [] else [Text mid]); Text post].

(** The children of the common ancestor after the range from [(sp, so)] to
    [(ep, eo)] has been extracted into a new span made by [mk] and the span
    inserted where the range collapsed. *)
Fixpoint wrapForest (mk : list node -> node) (sp ep : path) (so eo : nat)
    (cs : list node) : list node :=
  match sp, ep with
  | i :: sp', j :: ep' =>
      if Nat.eqb i j then
        match nth_error cs i with
        | Some (Text d) =>
            match sp', ep' with
            | [], [] => firstn i cs ++ wrapInText mk so eo d ++ skipn (S i) cs
            | _, _ => cs
            end
        | Some c =>
            firstn i cs
            ++ [withChildren c (wrapForest mk sp' ep' so eo (childrenOf c))]
            ++ skipn (S i) cs
        | None => cs
        end
      else if Nat.ltb i j then
        match nth_error cs i, nth_error cs j with
        | Some ci, Some cj =>
            let (stayL, goL) := cutRight sp' so ci in
            let (goR, stayR) := cutLeft ep' eo cj in
            firstn i cs
            ++ [stayL;
                mk ([goL] ++ firstn (j - i - 1) (skipn (S i) cs) ++ [goR]);
                stayR]
            ++ skipn (S j) cs
        | _, _ => cs
        end
      else cs
  | _, _ => cs
  end.

(** ** [normalize] and [removeUnderline] *)

(** Empty text nodes go, runs of text nodes become one. *)
Fixpoint mergeTexts (l : list node) : list node :=
  match l with
  | [] => []
  | Text d :: l' =>
      if String.eqb d "" then mergeTexts l'
      else match mergeTexts l' with
           | Text d' :: r => Text (d ++ d') :: r
           | r => Text d :: r
           end
  | n :: l' => n :: mergeTexts l'
  end.

(** [Node.normalize] on a node: all of its descendants are normalised. *)
Fixpoint normalize (n : node) : node :=
  match n with
  | Text d => Text d
  | Elem t u cs => Elem t u (mergeTexts (map normalize cs))
  | Span i s cs => Span i s (mergeTexts (map normalize cs))
  end.

Definition isSpan (uid : nat) (n : node) : bool :=
  match n with
  | Span i _ _ => Nat.eqb i uid
  | _ => false
  end.

(** The children of the marker take its place among its siblings. *)
Fixpoint splice (uid : nat) (cs : list node) : list node :=
  match cs with
  | [] => []
  | c :: cs' =>
      if isSpan uid c then childrenOf c ++ cs' else c :: splice uid cs'
  end.

(** [removeUnderline] of the marker [uid], seen from a node that may be its
    parent: the parent gets the marker's children in its place and is
    normalised; otherwise the search goes down. *)
Fixpoint removeUnderline (uid : nat) (n : node) : node :=
  match n with
  | Text d => Text d
  | Elem t u cs =>
      if existsb (isSpan uid) cs
      then normalize (Elem t u (splice uid cs))
      else Elem t u (map (removeUnderline uid) cs)
  | Span i s cs =>
      if existsb (isSpan uid) cs
      then normalize (Span i s (splice uid cs))
      else Span i s (map (removeUnderline uid) cs)
  end.

(** ** The renderer *)

Record issue := mkIssue {
  issueId : string;
  startIndex : Z;
  endIndex : Z
}.

(** The renderer and one target element: the element's subtree, the markers
    in [activeUnderlines.get(targetElement)] in insertion order, and the
    number the next marker gets. *)
Record state := mkState {
  target : node;
  underlines : list nat;
  nextUid : nat
}.

Definition init (targetElement : node) : state := mkState targetElement [] 0.

Definition clearUnderlines (s : state) : state :=
  mkState (fold_left (fun t uid => removeUnderline uid t) (underlines s) (target s))
    [] (nextUid s).

(** [renderSingleUnderline]: both branches (one line box or several) leave
    the same tree, the span around the extracted contents. *)
Definition renderSingleUnderline (s : state) (i : issue) : state :=
  let textNodes := getTextNodes (target s) in
  match createRangeFromIndices textNodes (startIndex i) (endIndex i) with
  | None => s
  | Some (b1, b2) =>
      let uid := nextUid s in
      let t' :=
        withChildren (target s)
          (wrapForest (Span uid (issueId i)) (bp_path b1) (bp_path b2)
             (Z.to_nat (bp_offset b1)) (Z.to_nat (bp_offset b2))
             (childrenOf (target s))) in
      mkState t' (underlines s ++ [uid]) (S uid)
  end.

(** [issues.sort((a, b) => a.startIndex - b.startIndex)], a stable sort:
    issues with the same start keep the order they came in. *)
Fixpoint insertSorted (i : issue) (l : list issue) : list issue :=
  match l with
  | [] => [i]
  | j :: l' =>
      if startIndex i <=? startIndex j then i :: l else j :: insertSorted i l'
  end.

Definition sortIssues (l : list issue) : list issue :=
  fold_right insertSorted [] l.

Definition renderUnderlines (issues : list issue) (s : state) : state :=
  fold_left renderSingleUnderline (sortIssues issues) (clearUnderlines s).

(** The text inside the marker [uid], if the marker is in the tree. *)
Fixpoint wrappedText (uid : nat) (n : node) : option string :=
  let inChildren :=
    (fix go (cs : list node) : option string :=
       match cs with
       | [] => None
       | c :: cs' =>
           match wrappedText uid c with
           | Some t => Some t
           | None => go cs'
           end
       end) in
  match n with
  | Text _ => None
  | Elem _ _ cs => inChildren cs
  | Span i _ cs =>
      if Nat.eqb i uid then Some (appendAll (map textContent cs)) else inChildren cs
  end.

(** The text every marker of a rendering wraps, in the order the markers
    were made (the order of the sorted issues). *)
Definition wrappedTexts (s : state) : list (option string) :=
  map (fun uid => wrappedText uid (target s)) (underlines s).

(** ** Induction on trees *)

Fixpoint node_induction (P : node -> Prop)
    (HT : forall d, P (Text d))
    (HE : forall t u cs, Forall P cs -> P (Elem t u cs))
    (HS : forall i s cs, Forall P cs -> P (Span i s cs))
    (n : node) : P n :=
  let all :=
    fix all (cs : list node) : Forall P cs :=
      match cs with
      | [] => Forall_nil P
      | c :: cs' => Forall_cons c (node_induction P HT HE HS c) (all cs')
      end in
  match n with
  | Text d => HT d
  | Elem t u cs => HE t u cs (all cs)
  | Span i s cs => HS i s cs (all cs)
  end.

(** ** Strings *)

Lemma append_nil_r (s : string) : (s ++ "")%string = s.
Proof. induction s as [|c s IH]; simpl; [reflexivity | now rewrite IH]. Qed.

Lemma append_assoc (a b c : string) : ((a ++ b) ++ c)%string = (a ++ (b ++ c))%string.
Proof. induction a as [|x a IH]; simpl; [reflexivity | now rewrite IH]. Qed.

Lemma splitAt_append (n : nat) : forall d,
  (fst (splitAt n d) ++ snd (splitAt n d))%string = d.
Proof.
  induction n as [|n IH]; intros d; simpl; [reflexivity|].
  destruct d as [|c r]; simpl; [reflexivity|].
  specialize (IH r). destruct (splitAt n r) as [a b]. simpl in *. now rewrite IH.
Qed.

Lemma appendAll_app (a b : list string) :
  appendAll (a ++ b) = (appendAll a ++ appendAll b)%string.
Proof.
  induction a as [|x a IH]; simpl; [reflexivity|].
  now rewrite IH, append_assoc.
Qed.

(** ** Text content is preserved by every step *)

Lemma textOf_app (a b : list node) : textOf (a ++ b) = (textOf a ++ textOf b)%string.
Proof. unfold textOf. now rewrite map_app, appendAll_app. Qed.

Lemma textOf_cons (c : node) (cs : list node) :
  textOf (c :: cs) = (textContent c ++ textOf cs)%string.
Proof. reflexivity. Qed.

Lemma textContent_children (n : node) :
  textContent n = match n with Text d => d | _ => textOf (childrenOf n) end.
Proof. destruct n; reflexivity. Qed.

Lemma textContent_withChildren (n : node) (cs : list node) :
  textContent (withChildren n cs)
  = match n with Text d => d | _ => textOf cs end.
Proof. destruct n; reflexivity. Qed.

Lemma textContent_cloneWith (n : node) (cs : list node) :
  textContent (cloneWith n cs)
  = match n with Text d => d | _ => textOf cs end.
Proof. destruct n; reflexivity. Qed.

Lemma nth_error_decompose {A} (l : list A) (i : nat) (a : A) :
  nth_error l i = Some a -> l = firstn i l ++ a :: skipn (S i) l.
Proof.
  revert i. induction l as [|x l IH]; intros [|i] H; simpl in *; try discriminate.
  - now inversion H.
  - f_equal. now apply IH.
Qed.

Lemma nth_error_decompose2 {A} (l : list A) (i j : nat) (a b : A) :
  (i < j)%nat -> nth_error l i = Some a -> nth_error l j = Some b ->
  l = firstn i l ++ a :: firstn (j - i - 1) (skipn (S i) l) ++ b :: skipn (S j) l.
Proof.
  intros Hlt Hi Hj.
  rewrite (nth_error_decompose l i a Hi) at 1. f_equal. f_equal.
  assert (Hj' : nth_error (skipn (S i) l) (j - i - 1) = Some b).
  { rewrite nth_error_skipn. replace (S i + (j - i - 1))%nat with j by lia. exact Hj. }
  rewrite (nth_error_decompose _ _ _ Hj') at 1. f_equal. f_equal.
  rewrite skipn_skipn. f_equal. lia.
Qed.

Lemma textOf_nth (cs : list node) (i : nat) (c : node) :
  nth_error cs i = Some c ->
  textOf cs = (textOf (firstn i cs) ++ textContent c ++ textOf (skipn (S i) cs))%string.
Proof.
  intros H. rewrite (nth_error_decompose cs i c H) at 1.
  now rewrite textOf_app, textOf_cons.
Qed.

Lemma cutRight_text (p : path) (off : nat) : forall n,
  (textContent (fst (cutRight p off n)) ++ textContent (snd (cutRight p off n)))%string
  = textContent n.
Proof.
  induction p as [|i p IH]; intros n; simpl.
  - destruct n as [d| |]; simpl; try apply append_nil_r.
    pose proof (splitAt_append off d) as H. destruct (splitAt off d); exact H.
  - destruct n as [d|t u cs|k s cs]; simpl; try apply append_nil_r.
    + destruct (nth_error cs i) as [c|] eqn:E; simpl; [|apply append_nil_r].
      specialize (IH c). destruct (cutRight p off c) as [stay go]. simpl in *.
      fold (textOf (firstn i cs ++ [stay])). fold (textOf (go :: skipn (S i) cs)).
      fold (textOf cs). rewrite (textOf_nth cs i c E), textOf_app, !textOf_cons.
      rewrite <- IH. unfold textOf at 2. simpl. now rewrite !append_assoc.
    + destruct (nth_error cs i) as [c|] eqn:E; simpl; [|apply append_nil_r].
      specialize (IH c). destruct (cutRight p off c) as [stay go]. simpl in *.
      fold (textOf (firstn i cs ++ [stay])). fold (textOf (go :: skipn (S i) cs)).
      fold (textOf cs). rewrite (textOf_nth cs i c E), textOf_app, !textOf_cons.
      rewrite <- IH. unfold textOf at 2. simpl. now rewrite !append_assoc.
Qed.

Lemma cutLeft_text (p : path) (off : nat) : forall n,
  (textContent (fst (cutLeft p off n)) ++ textContent (snd (cutLeft p off n)))%string
  = textContent n.
Proof.
  induction p as [|j p IH]; intros n; simpl.
  - destruct n as [d| |]; simpl; try reflexivity.
    pose proof (splitAt_append off d) as H. destruct (splitAt off d); exact H.
  - destruct n as [d|t u cs|k s cs]; simpl; try reflexivity.
    + destruct (nth_error cs j) as [c|] eqn:E; simpl; [|reflexivity].
      specialize (IH c). destruct (cutLeft p off c) as [go stay]. simpl in *.
      fold (textOf (firstn j cs ++ [go])). fold (textOf (stay :: skipn (S j) cs)).
      fold (textOf cs). rewrite (textOf_nth cs j c E), textOf_app, !textOf_cons.
      rewrite <- IH. unfold textOf at 2. simpl. now rewrite !append_assoc.
    + destruct (nth_error cs j) as [c|] eqn:E; simpl; [|reflexivity].
      specialize (IH c). destruct (cutLeft p off c) as [go stay]. simpl in *.
      fold (textOf (firstn j cs ++ [go])). fold (textOf (stay :: skipn (S j) cs)).
      fold (textOf cs). rewrite (textOf_nth cs j c E), textOf_app, !textOf_cons.
      rewrite <- IH. unfold textOf at 2. simpl. now rewrite !append_assoc.
Qed.

Section Wrap.
(** The constructor of the new span. *)
Variable mk : list node -> node.
Hypothesis mk_text : forall l, textContent (mk l) = textOf l.

Lemma wrapInText_text (so eo : nat) (d : string) :
  textOf (wrapInText mk so eo d) = d.
Proof.
  unfold wrapInText.
  pose proof (splitAt_append (Nat.min so eo) d) as H1.
  destruct (splitAt (Nat.min so eo) d) as [pre rest]. simpl in H1.
  pose proof (splitAt_append (eo - Nat.min so eo) rest) as H2.
  destruct (splitAt (eo - Nat.min so eo) rest) as [mid post] eqn:E. simpl in H2.
  rewrite !textOf_cons, mk_text. unfold textOf at 2. simpl.
  rewrite append_nil_r. destruct (Nat.eqb_spec (Nat.min so eo) eo) as [Heq|Hne].
  - rewrite Heq, Nat.sub_diag in E. simpl in E. injection E as <- <-.
    unfold textOf. simpl. exact H1.
  - unfold textOf. simpl. rewrite append_nil_r, <- H1, <- H2. reflexivity.
Qed.

Lemma wrapForest_text (sp : path) : forall ep so eo cs,
  textOf (wrapForest mk sp ep so eo cs) = textOf cs.
Proof.
  induction sp as [|i sp IH]; intros ep so eo cs; [reflexivity|].
  destruct ep as [|j ep]; [reflexivity|]. cbn [wrapForest].
  destruct (Nat.eqb_spec i j) as [->|Hne].
  - destruct (nth_error cs j) as [c|] eqn:E; [|reflexivity].
    destruct c as [d|t u cs'|k s cs'].
    + destruct sp, ep; try reflexivity.
      rewrite !textOf_app, wrapInText_text. symmetry.
      exact (textOf_nth cs j (Text d) E).
    + rewrite !textOf_app, textOf_cons. cbn [withChildren childrenOf textContent].
      fold (textOf (wrapForest mk sp ep so eo cs')). rewrite IH.
      rewrite (textOf_nth cs j _ E). cbn [textContent]. unfold textOf at 5.
      simpl. fold (textOf cs'). now rewrite append_nil_r.
    + rewrite !textOf_app, textOf_cons. cbn [withChildren childrenOf textContent].
      fold (textOf (wrapForest mk sp ep so eo cs')). rewrite IH.
      rewrite (textOf_nth cs j _ E). cbn [textContent]. unfold textOf at 5.
      simpl. fold (textOf cs'). now rewrite append_nil_r.
  - destruct (Nat.ltb_spec i j) as [Hlt|_]; [|reflexivity].
    destruct (nth_error cs i) as [ci|] eqn:Ei; [|reflexivity].
    destruct (nth_error cs j) as [cj|] eqn:Ej; [|reflexivity].
    pose proof (cutRight_text sp so ci) as HL.
    pose proof (cutLeft_text ep eo cj) as HR.
    destruct (cutRight sp so ci) as [stayL goL].
    destruct (cutLeft ep eo cj) as [goR stayR]. simpl in HL, HR.
    pose proof (nth_error_decompose2 cs i j ci cj Hlt Ei Ej) as Hd.
    set (L := firstn i cs) in *.
    set (M := firstn (j - i - 1) (skipn (S i) cs)) in *.
    set (R := skipn (S j) cs) in *.
    clearbody L M R. subst cs.
    rewrite !textOf_app, !textOf_cons, mk_text, !textOf_app, !textOf_cons.
    rewrite <- HL, <- HR. change (textOf []) with EmptyString.
    rewrite !append_nil_r, !append_assoc. reflexivity.
Qed.

End Wrap.

Lemma mergeTexts_text (l : list node) : textOf (mergeTexts l) = textOf l.
Proof.
  induction l as [|n l IH]; [reflexivity|].
  destruct n as [d|t u cs|k s cs]; cbn [mergeTexts].
  - destruct (String.eqb_spec d "") as [->|Hne].
    + rewrite IH. reflexivity.
    + rewrite textOf_cons, <- IH. destruct (mergeTexts l) as [|[d'|t u cs|k s cs] r];
        try reflexivity.
      rewrite !textOf_cons. cbn [textContent]. now rewrite append_assoc.
  - now rewrite !textOf_cons, IH.
  - now rewrite !textOf_cons, IH.
Qed.

Lemma map_normalize_text (cs : list node) :
  Forall (fun c => textContent (normalize c) = textContent c) cs ->
  textOf (map normalize cs) = textOf cs.
Proof.
  induction 1 as [|c cs Hc _ IH]; [reflexivity|].
  simpl. now rewrite !textOf_cons, Hc, IH.
Qed.

Lemma normalize_text (n : node) : textContent (normalize n) = textContent n.
Proof.
  induction n as [d|t u cs IH|k s cs IH] using node_induction; [reflexivity| |];
    cbn [normalize textContent];
    fold (textOf (mergeTexts (map normalize cs))); fold (textOf cs);
    now rewrite mergeTexts_text, map_normalize_text.
Qed.

Lemma splice_text (uid : nat) (cs : list node) : textOf (splice uid cs) = textOf cs.
Proof.
  induction cs as [|c cs IH]; [reflexivity|]. cbn [splice].
  destruct (isSpan uid c) eqn:E.
  - destruct c; try discriminate. now rewrite textOf_app, textOf_cons.
  - now rewrite !textOf_cons, IH.
Qed.

Lemma removeUnderline_text (uid : nat) (n : node) :
  textContent (removeUnderline uid n) = textContent n.
Proof.
  induction n as [d|t u cs IH|k s cs IH] using node_induction; [reflexivity| |];
    cbn [removeUnderline]; destruct (existsb (isSpan uid) cs).
  - rewrite normalize_text. cbn [textContent]. apply splice_text.
  - cbn [textContent]. fold (textOf (map (removeUnderline uid) cs)). fold (textOf cs).
    induction IH as [|c cs Hc _ IH']; [reflexivity|].
    simpl. now rewrite !textOf_cons, Hc, IH'.
  - rewrite normalize_text. cbn [textContent]. apply splice_text.
  - cbn [textContent]. fold (textOf (map (removeUnderline uid) cs)). fold (textOf cs).
    induction IH as [|c cs Hc _ IH']; [reflexivity|].
    simpl. now rewrite !textOf_cons, Hc, IH'.
Qed.

Lemma clearUnderlines_text (s : state) :
  textContent (target (clearUnderlines s)) = textContent (target s).
Proof.
  unfold clearUnderlines. cbn [target]. generalize (target s) as t.
  induction (underlines s) as [|uid l IH]; intros t; simpl; [reflexivity|].
  now rewrite IH, removeUnderline_text.
Qed.

Lemma renderSingleUnderline_text (s : state) (i : issue) :
  textContent (target (renderSingleUnderline s i)) = textContent (target s).
Proof.
  unfold renderSingleUnderline.
  destruct (createRangeFromIndices _ _ _) as [[b1 b2]|]; [|reflexivity].
  cbn [target]. rewrite textContent_withChildren, textContent_children.
  destruct (target s); [reflexivity| |]; now apply wrapForest_text.
Qed.

Lemma renderUnderlines_text (issues : list issue) (s : state) :
  textContent (target (renderUnderlines issues s)) = textContent (target s).
Proof.
  unfold renderUnderlines. rewrite <- (clearUnderlines_text s).
  generalize (clearUnderlines s) as s0.
  induction (sortIssues issues) as [|i l IH]; intros s0; simpl; [reflexivity|].
  now rewrite IH, renderSingleUnderline_text.
Qed.

(** Rendering and then clearing leaves the text of the target as it was,
    for every target and every batch of issues. *)
Lemma render_clear_text (issues : list issue) (s : state) :
  textContent (target (clearUnderlines (renderUnderlines issues s)))
  = textContent (target s).
Proof. now rewrite clearUnderlines_text, renderUnderlines_text. Qed.

(** ** Trees made of text nodes and markers only *)

(** No element of the page below this node: text nodes and markers only. *)
Fixpoint onlyMarkers (n : node) : bool :=
  match n with
  | Text _ => true
  | Elem _ _ _ => false
  | Span _ _ cs => forallb onlyMarkers cs
  end.

(** The numbers of the markers in a subtree, in document order. *)
Fixpoint spansOf (n : node) : list nat :=
  match n with
  | Text _ => []
  | Elem _ _ cs => flat_map spansOf cs
  | Span i _ cs => i :: flat_map spansOf cs
  end.

Definition spansIn (cs : list node) : list nat := flat_map spansOf cs.

Definition isText (n : node) : bool :=
  match n with Text _ => true | _ => false end.

Lemma spansIn_app (a b : list node) : spansIn (a ++ b) = spansIn a ++ spansIn b.
Proof. unfold spansIn. apply flat_map_app. Qed.

Lemma spansIn_cons (c : node) (cs : list node) :
  spansIn (c :: cs) = spansOf c ++ spansIn cs.
Proof. reflexivity. Qed.

Lemma spansIn_allText (l : list node) : forallb isText l = true -> spansIn l = [].
Proof.
  induction l as [|[d| |] l IH]; simpl; try discriminate; auto.
Qed.

Lemma allText_onlyMarkers (l : list node) :
  forallb isText l = true -> forallb onlyMarkers l = true.
Proof.
  induction l as [|[d| |] l IH]; simpl; try discriminate; auto.
Qed.

Lemma noSpans_allText (cs : list node) :
  forallb onlyMarkers cs = true -> spansIn cs = [] -> forallb isText cs = true.
Proof.
  induction cs as [|[d|t u c|k s c] cs IH]; simpl; try discriminate; auto.
Qed.

Lemma append_empty (a b : string) : (a ++ b)%string = "" -> a = "" /\ b = "".
Proof. destruct a; simpl; [auto | discriminate]. Qed.

Lemma mergeTexts_allText (l : list node) :
  forallb isText l = true ->
  mergeTexts l = if String.eqb (textOf l) "" then [] else [Text (textOf l)].
Proof.
  induction l as [|[d| |] l IH]; simpl; try discriminate; [reflexivity|].
  intros H. specialize (IH H). rewrite textOf_cons. cbn [textContent].
  destruct (String.eqb_spec d "") as [->|Hd].
  - exact IH.
  - rewrite IH. destruct (String.eqb_spec (textOf l) "") as [E|E].
    + rewrite E, append_nil_r. destruct (String.eqb_spec d ""); [congruence | reflexivity].
    + destruct (String.eqb_spec (d ++ textOf l) "") as [E'|_]; [|reflexivity].
      apply append_empty in E'. tauto.
Qed.

Lemma map_normalize_allText (l : list node) :
  forallb isText l = true -> map normalize l = l.
Proof.
  induction l as [|[d| |] l IH]; simpl; try discriminate; [reflexivity|].
  intros H. now rewrite IH.
Qed.

(** With exactly one marker left, directly under the root, its removal
    leaves the root with the whole text in one text node. *)
Lemma single_marker_splice (uid : nat) (cs : list node) :
  forallb onlyMarkers cs = true -> spansIn cs = [uid] ->
  existsb (isSpan uid) cs = true /\ forallb isText (splice uid cs) = true.
Proof.
  induction cs as [|[d|t u c|k s c] cs IH]; simpl; try discriminate.
  - intros H1 H2. destruct (IH H1 H2) as [Ha Hb]. now rewrite Ha.
  - intros H1 H2. apply andb_prop in H1. destruct H1 as [Hc Hcs].
    injection H2 as -> H2. apply app_eq_nil in H2. destruct H2 as [H2c H2s].
    rewrite Nat.eqb_refl. simpl. split; [reflexivity|].
    rewrite forallb_app. rewrite (noSpans_allText c Hc H2c).
    now rewrite (noSpans_allText cs Hcs H2s).
Qed.

Lemma single_marker_removed (uid : nat) (t : string) (u : bool) (cs : list node) :
  forallb onlyMarkers cs = true -> spansIn cs = [uid] -> textOf cs <> "" ->
  removeUnderline uid (Elem t u cs) = Elem t u [Text (textOf cs)].
Proof.
  intros H1 H2 Hd. destruct (single_marker_splice uid cs H1 H2) as [Ha Hb].
  cbn [removeUnderline]. rewrite Ha. cbn [normalize].
  rewrite (map_normalize_allText _ Hb), (mergeTexts_allText _ Hb), splice_text.
  destruct (String.eqb_spec (textOf cs) ""); [contradiction | reflexivity].
Qed.

(** *** Removal of a marker that is not there *)

Lemma existsb_isSpan_In (uid : nat) (cs : list node) :
  existsb (isSpan uid) cs = true -> In uid (spansIn cs).
Proof.
  induction cs as [|c cs IH]; simpl; [discriminate|].
  rewrite in_app_iff. destruct c as [d|t u c'|k s c']; simpl; auto.
  destruct (Nat.eqb_spec k uid) as [->|_]; simpl; auto.
Qed.

Lemma map_id_Forall {A} (f : A -> A) (l : list A) :
  Forall (fun a => f a = a) l -> map f l = l.
Proof. induction 1 as [|a l Ha _ IH]; simpl; [reflexivity | now rewrite Ha, IH]. Qed.

Lemma In_spansIn_child (v : nat) (c : node) (cs : list node) :
  In c cs -> In v (spansIn (childrenOf c)) -> In v (spansIn cs).
Proof.
  intros Hc Hv. apply in_flat_map. exists c. split; [exact Hc|].
  destruct c as [d|t u c'|k s c']; simpl in *; auto.
Qed.

Lemma removeUnderline_absent_children (uid : nat) (cs : list node) :
  Forall (fun c => ~ In uid (spansIn (childrenOf c)) -> removeUnderline uid c = c) cs ->
  ~ In uid (spansIn cs) ->
  existsb (isSpan uid) cs = false /\ map (removeUnderline uid) cs = cs.
Proof.
  intros IH Hn. split.
  - destruct (existsb (isSpan uid) cs) eqn:E; [|reflexivity].
    exfalso. apply Hn. now apply existsb_isSpan_In.
  - apply map_id_Forall. rewrite Forall_forall in *. intros c Hc.
    apply IH; [exact Hc|]. intros Hin. apply Hn. eapply In_spansIn_child; eauto.
Qed.

Lemma removeUnderline_absent (uid : nat) (n : node) :
  ~ In uid (spansIn (childrenOf n)) -> removeUnderline uid n = n.
Proof.
  induction n as [d|t u cs IH|k s cs IH] using node_induction.
  - reflexivity.
  - cbn [childrenOf removeUnderline]. intros Hn.
    destruct (removeUnderline_absent_children uid cs IH Hn) as [-> ->]. reflexivity.
  - cbn [childrenOf removeUnderline]. intros Hn.
    destruct (removeUnderline_absent_children uid cs IH Hn) as [-> ->]. reflexivity.
Qed.

(** *** Removal of a marker that is there *)

(** The marker number a node itself contributes. *)
Definition headOf (n : node) : list nat :=
  match n with Span i _ _ => [i] | _ => [] end.

Lemma spansOf_head (n : node) : spansOf n = headOf n ++ spansIn (childrenOf n).
Proof. destruct n; reflexivity. Qed.

Lemma childrenOf_removeUnderline (uid : nat) (n : node) :
  childrenOf (removeUnderline uid n)
  = if existsb (isSpan uid) (childrenOf n)
    then mergeTexts (map normalize (splice uid (childrenOf n)))
    else map (removeUnderline uid) (childrenOf n).
Proof.
  destruct n as [d|t u cs|k s cs]; cbn [removeUnderline childrenOf];
    [reflexivity| |]; destruct (existsb (isSpan uid) cs); reflexivity.
Qed.

Lemma headOf_removeUnderline (uid : nat) (n : node) :
  headOf (removeUnderline uid n) = headOf n.
Proof.
  destruct n as [d|t u cs|k s cs]; cbn [removeUnderline];
    [reflexivity| |]; destruct (existsb (isSpan uid) cs); reflexivity.
Qed.

Lemma spansIn_mergeTexts (l : list node) : spansIn (mergeTexts l) = spansIn l.
Proof.
  induction l as [|[d|t u c|k s c] l IH]; cbn [mergeTexts]; [reflexivity| | |].
  - destruct (String.eqb d ""); [exact IH|].
    rewrite spansIn_cons. cbn [spansOf app]. rewrite <- IH.
    destruct (mergeTexts l) as [|[d'|t u c|k s c] r]; reflexivity.
  - now rewrite !spansIn_cons, IH.
  - now rewrite !spansIn_cons, IH.
Qed.

Lemma spansIn_map (f : node -> node) (cs : list node) :
  Forall (fun c => spansOf (f c) = spansOf c) cs -> spansIn (map f cs) = spansIn cs.
Proof.
  induction 1 as [|c cs Hc _ IH]; [reflexivity|].
  cbn [map]. now rewrite !spansIn_cons, Hc, IH.
Qed.

Lemma spansOf_normalize (n : node) : spansOf (normalize n) = spansOf n.
Proof.
  induction n as [d|t u cs IH|k s cs IH] using node_induction; [reflexivity| |];
    cbn [normalize spansOf];
    fold (spansIn (mergeTexts (map normalize cs))); fold (spansIn cs);
    now rewrite spansIn_mergeTexts, spansIn_map.
Qed.

Lemma spansIn_normalized (cs : list node) :
  spansIn (mergeTexts (map normalize cs)) = spansIn cs.
Proof.
  rewrite spansIn_mergeTexts. apply spansIn_map.
  apply Forall_forall. intros c _. apply spansOf_normalize.
Qed.

Lemma splice_spans (uid : nat) (cs : list node) :
  existsb (isSpan uid) cs = true ->
  exists l1 l2, spansIn cs = l1 ++ uid :: l2 /\ spansIn (splice uid cs) = l1 ++ l2.
Proof.
  induction cs as [|c cs IH]; cbn [existsb splice]; [discriminate|].
  destruct (isSpan uid c) eqn:E; cbn [orb].
  - intros _. destruct c as [d|t u c'|k s c']; try discriminate.
    cbn [isSpan] in E. apply Nat.eqb_eq in E. subst k.
    exists [], (spansIn c' ++ spansIn cs). split.
    + reflexivity.
    + cbn [childrenOf]. now rewrite spansIn_app.
  - intros H. destruct (IH H) as (l1 & l2 & H1 & H2).
    exists (spansOf c ++ l1), l2. rewrite !spansIn_cons, H1, H2.
    split; now rewrite <- app_assoc.
Qed.

(** The statement about one node: removing a marker that is among the
    markers below it takes exactly that number out of the list. *)
Definition removes (uid : nat) (n : node) : Prop :=
  NoDup (spansIn (childrenOf n)) -> In uid (spansIn (childrenOf n)) ->
  exists l1 l2,
    spansIn (childrenOf n) = l1 ++ uid :: l2
    /\ spansIn (childrenOf (removeUnderline uid n)) = l1 ++ l2.

Lemma NoDup_app_l {A} (a b : list A) : NoDup (a ++ b) -> NoDup a.
Proof.
  induction a as [|x a IH]; simpl; intros H; [constructor|].
  inversion H as [|? ? Hx Hr]; subst. constructor.
  - intros Hin. apply Hx. apply in_app_iff. now left.
  - now apply IH.
Qed.

Lemma NoDup_app_r {A} (a b : list A) : NoDup (a ++ b) -> NoDup b.
Proof.
  induction a as [|x a IH]; simpl; intros H; [exact H|].
  inversion H; subst. now apply IH.
Qed.

Lemma NoDup_app_disjoint {A} (a b : list A) (x : A) :
  NoDup (a ++ b) -> In x a -> ~ In x b.
Proof.
  induction a as [|y a IH]; simpl; intros H Hin; [contradiction|].
  inversion H as [|? ? Hy Hr]; subst. destruct Hin as [->|Hin].
  - intros Hb. apply Hy. apply in_app_iff. now right.
  - now apply IH.
Qed.

Lemma map_removeUnderline_absent (uid : nat) (cs : list node) :
  ~ In uid (spansIn cs) -> map (removeUnderline uid) cs = cs.
Proof.
  intros Hn. apply map_id_Forall. apply Forall_forall. intros c Hc.
  apply removeUnderline_absent. intros Hin. apply Hn.
  eapply In_spansIn_child; eauto.
Qed.

Lemma map_removes (uid : nat) (cs : list node) :
  Forall (removes uid) cs ->
  existsb (isSpan uid) cs = false ->
  NoDup (spansIn cs) -> In uid (spansIn cs) ->
  exists l1 l2,
    spansIn cs = l1 ++ uid :: l2
    /\ spansIn (map (removeUnderline uid) cs) = l1 ++ l2.
Proof.
  induction 1 as [|c cs Hc _ IH]; cbn [existsb map]; [intros _ _ []|].
  intros He Hnd Hin. apply orb_false_elim in He. destruct He as [Hec Hecs].
  rewrite spansIn_cons in Hnd, Hin. apply in_app_iff in Hin.
  destruct Hin as [Hin|Hin].
  - (* the marker is below [c] *)
    assert (Hin' : In uid (spansIn (childrenOf c))).
    { rewrite spansOf_head in Hin. apply in_app_iff in Hin. destruct Hin as [Hh|Ht];
        [|exact Ht].
      destruct c as [d|t u c'|k s c']; simpl in Hh; try contradiction.
      destruct Hh as [->|[]]. simpl in Hec. rewrite Nat.eqb_refl in Hec. discriminate. }
    assert (Hndc : NoDup (spansIn (childrenOf c))).
    { apply NoDup_app_l in Hnd. rewrite spansOf_head in Hnd.
      now apply NoDup_app_r in Hnd. }
    destruct (Hc Hndc Hin') as (l1 & l2 & H1 & H2).
    assert (Hrest : ~ In uid (spansIn cs)) by (eapply NoDup_app_disjoint; eauto).
    exists (headOf c ++ l1), (l2 ++ spansIn cs).
    rewrite !spansIn_cons, (map_removeUnderline_absent uid cs Hrest).
    rewrite (spansOf_head c), (spansOf_head (removeUnderline uid c)).
    rewrite headOf_removeUnderline, H1, H2. rewrite <- !app_assoc. simpl.
    split; reflexivity.
  - (* the marker is below a later sibling *)
    assert (Hc' : ~ In uid (spansOf c)).
    { intros Hx. eapply NoDup_app_disjoint; eauto. }
    assert (Hcc : ~ In uid (spansIn (childrenOf c))).
    { intros Hx. apply Hc'. rewrite spansOf_head. apply in_app_iff. now right. }
    destruct (IH Hecs (NoDup_app_r _ _ Hnd) Hin) as (l1 & l2 & H1 & H2).
    exists (spansOf c ++ l1), l2.
    rewrite !spansIn_cons, (removeUnderline_absent uid c Hcc), H1, H2.
    rewrite <- !app_assoc. split; reflexivity.
Qed.

Lemma removeUnderline_removes (uid : nat) (n : node) : removes uid n.
Proof.
  induction n as [d|t u cs IH|k s cs IH] using node_induction; unfold removes;
    rewrite childrenOf_removeUnderline; cbn [childrenOf].
  - intros _ [].
  - intros Hnd Hin. destruct (existsb (isSpan uid) cs) eqn:E.
    + rewrite spansIn_normalized. now apply splice_spans.
    + now apply map_removes.
  - intros Hnd Hin. destruct (existsb (isSpan uid) cs) eqn:E.
    + rewrite spansIn_normalized. now apply splice_spans.
    + now apply map_removes.
Qed.

(** *** Removal keeps a tree of text nodes and markers one *)

Lemma onlyMarkers_mergeTexts (l : list node) :
  forallb onlyMarkers l = true -> forallb onlyMarkers (mergeTexts l) = true.
Proof.
  induction l as [|[d|t u c|k s c] l IH]; cbn [mergeTexts forallb onlyMarkers];
    try discriminate; [reflexivity| |].
  - intros H. specialize (IH H). destruct (String.eqb d ""); [exact IH|].
    destruct (mergeTexts l) as [|[d'|t u c|k s c] r]; simpl in *; auto.
  - intros H. apply andb_prop in H. destruct H as [H1 H2].
    cbn [forallb onlyMarkers]. now rewrite H1, IH.
Qed.

Lemma forallb_map_Forall (f : node -> node) (cs : list node) :
  Forall (fun c => onlyMarkers c = true -> onlyMarkers (f c) = true) cs ->
  forallb onlyMarkers cs = true -> forallb onlyMarkers (map f cs) = true.
Proof.
  induction 1 as [|c cs Hc _ IH]; simpl; [reflexivity|].
  intros H. apply andb_prop in H. destruct H as [H1 H2]. now rewrite Hc, IH.
Qed.

Lemma onlyMarkers_normalize (n : node) :
  onlyMarkers n = true -> onlyMarkers (normalize n) = true.
Proof.
  induction n as [d|t u cs IH|k s cs IH] using node_induction;
    cbn [normalize onlyMarkers]; try discriminate; [reflexivity|].
  intros H. apply onlyMarkers_mergeTexts. now apply forallb_map_Forall.
Qed.

Lemma onlyMarkers_splice (uid : nat) (cs : list node) :
  forallb onlyMarkers cs = true -> forallb onlyMarkers (splice uid cs) = true.
Proof.
  induction cs as [|c cs IH]; simpl; [reflexivity|].
  intros H. apply andb_prop in H. destruct H as [H1 H2].
  destruct (isSpan uid c) eqn:E.
  - destruct c as [d|t u c'|k s c']; try discriminate.
    cbn [childrenOf]. rewrite forallb_app. simpl in H1. now rewrite H1, H2.
  - simpl. now rewrite H1, IH.
Qed.

Lemma onlyMarkers_children_normalized (cs : list node) :
  forallb onlyMarkers cs = true ->
  forallb onlyMarkers (mergeTexts (map normalize cs)) = true.
Proof.
  intros H. apply onlyMarkers_mergeTexts. apply forallb_map_Forall; [|exact H].
  apply Forall_forall. intros c _. apply onlyMarkers_normalize.
Qed.

Lemma onlyMarkers_removeUnderline (uid : nat) (n : node) :
  onlyMarkers n = true -> onlyMarkers (removeUnderline uid n) = true.
Proof.
  induction n as [d|t u cs IH|k s cs IH] using node_induction;
    cbn [removeUnderline onlyMarkers]; try discriminate; [reflexivity|].
  intros H. destruct (existsb (isSpan uid) cs).
  - cbn [normalize onlyMarkers]. apply onlyMarkers_children_normalized.
    now apply onlyMarkers_splice.
  - cbn [onlyMarkers]. now apply forallb_map_Forall.
Qed.

Lemma onlyMarkers_children_removeUnderline (uid : nat) (n : node) :
  forallb onlyMarkers (childrenOf n) = true ->
  forallb onlyMarkers (childrenOf (removeUnderline uid n)) = true.
Proof.
  intros H. rewrite childrenOf_removeUnderline.
  destruct (existsb (isSpan uid) (childrenOf n)).
  - apply onlyMarkers_children_normalized. now apply onlyMarkers_splice.
  - apply forallb_map_Forall; [|exact H].
    apply Forall_forall. intros c _. apply onlyMarkers_removeUnderline.
Qed.

(** *** What the tree walker accepts in such a tree *)

Lemma acceptedAmong_under (cs : list node) :
  Forall (fun c => onlyMarkers c = true -> acceptedIn c = []) cs ->
  forallb onlyMarkers cs = true ->
  forall i, acceptedAmong acceptedIn true i cs = [].
Proof.
  induction 1 as [|c cs Hc _ IH]; intros Hm i; [reflexivity|].
  cbn [forallb] in Hm. apply andb_prop in Hm. destruct Hm as [H1 H2].
  cbn [acceptedAmong]. fold (acceptedAmong acceptedIn true).
  rewrite (IH H2). destruct c as [d|t u c'|k s c'].
  - reflexivity.
  - discriminate.
  - now rewrite (Hc H1).
Qed.

Lemma acceptedIn_marker (n : node) : onlyMarkers n = true -> acceptedIn n = [].
Proof.
  induction n as [d|t u cs IH|k s cs IH] using node_induction;
    cbn [onlyMarkers acceptedIn]; try discriminate; [reflexivity|].
  intros H. now apply acceptedAmong_under.
Qed.

(** Under a parent whose children are text nodes and markers, every
    accepted text node is a child of the parent. *)
Lemma acceptedAmong_flat (u : bool) (cs : list node) :
  forallb onlyMarkers cs = true ->
  forall i0 p d, In (p, d) (acceptedAmong acceptedIn u i0 cs) ->
  exists k, p = [(i0 + k)%nat] /\ nth_error cs k = Some (Text d).
Proof.
  induction cs as [|c cs IH]; intros Hm i0 p d Hin; [destruct Hin|].
  cbn [forallb] in Hm. apply andb_prop in Hm. destruct Hm as [H1 H2].
  cbn [acceptedAmong] in Hin. fold (acceptedAmong acceptedIn u) in Hin.
  apply in_app_iff in Hin. destruct Hin as [Hin|Hin].
  - destruct c as [d0|t u' c'|k s c'].
    + destruct (u || isBlank d0); [destruct Hin|].
      destruct Hin as [Hin|[]]. inversion Hin; subst.
      exists 0%nat. rewrite Nat.add_0_r. auto.
    + discriminate.
    + rewrite (acceptedIn_marker _ H1) in Hin. destruct Hin.
  - destruct (IH H2 (S i0) p d Hin) as (k & -> & Hk).
    exists (S k). rewrite Nat.add_succ_r. auto.
Qed.

(** Both ends of the range [findRange] returns are among the text nodes it
    was given. *)
Lemma findRange_paths (textNodes : list (path * string)) :
  forall si ei ci start b1 b2,
  findRange textNodes si ei ci start = Some (b1, b2) ->
  (start = Some b1 \/ exists d, In (bp_path b1, d) textNodes)
  /\ exists d, In (bp_path b2, d) textNodes.
Proof.
  induction textNodes as [|[p d] rest IH]; intros si ei ci start b1 b2 H;
    [discriminate|].
  cbn [findRange] in H.
  set (start' := match start with
                 | None => if (si >=? ci) && (si <=? ci + Js.len d)
                           then Some (mkBoundary p (si - ci)) else None
                 | Some _ => start
                 end) in *.
  assert (Hs : forall b, start' = Some b ->
                 start = Some b \/ exists d', In (bp_path b, d') ((p, d) :: rest)).
  { intros b Hb. unfold start' in Hb. destruct start as [b0|]; [now left|].
    destruct ((si >=? ci) && (si <=? ci + Js.len d)); [|discriminate].
    injection Hb as <-. right. exists d. now left. }
  destruct ((ei >=? ci) && (ei <=? ci + Js.len d)).
  - destruct start' as [b|] eqn:E; [|discriminate]. inversion H; subst.
    split; [now apply Hs|]. exists d. now left.
  - apply IH in H. destruct H as [[H|(d' & H)] (d2 & H2)].
    + split; [now apply Hs|]. exists d2. now right.
    + split; [right; exists d'; now right|]. exists d2. now right.
Qed.

(** *** Wrapping a range between children of the root *)

Lemma forallb_firstn (f : node -> bool) (n : nat) (l : list node) :
  forallb f l = true -> forallb f (firstn n l) = true.
Proof.
  revert n. induction l as [|a l IH]; intros [|n] H; simpl in *; auto.
  apply andb_prop in H. destruct H as [H1 H2]. now rewrite H1, IH.
Qed.

Lemma forallb_skipn (f : node -> bool) (n : nat) (l : list node) :
  forallb f l = true -> forallb f (skipn n l) = true.
Proof.
  revert n. induction l as [|a l IH]; intros [|n] H; simpl in *; auto.
  apply andb_prop in H. destruct H as [H1 H2]. now apply IH.
Qed.

Lemma wrapForest_flat (uid : nat) (s : string) (i j so eo : nat)
    (cs : list node) (d1 d2 : string) :
  forallb onlyMarkers cs = true ->
  nth_error cs i = Some (Text d1) -> nth_error cs j = Some (Text d2) ->
  forallb onlyMarkers (wrapForest (Span uid s) [i] [j] so eo cs) = true
  /\ (wrapForest (Span uid s) [i] [j] so eo cs = cs
      \/ exists l1 l2,
           spansIn cs = l1 ++ l2
           /\ spansIn (wrapForest (Span uid s) [i] [j] so eo cs) = l1 ++ uid :: l2).
Proof.
  intros Hm Hi Hj. cbn [wrapForest].
  destruct (Nat.eqb_spec i j) as [->|Hne].
  - rewrite Hj. unfold wrapInText.
    destruct (splitAt (Nat.min so eo) d2) as [pre rest].
    destruct (splitAt (eo - Nat.min so eo) rest) as [mid post].
    split.
    + rewrite !forallb_app. rewrite (forallb_firstn _ j _ Hm), (forallb_skipn _ (S j) _ Hm).
      destruct (Nat.eqb (Nat.min so eo) eo); reflexivity.
    + right. exists (spansIn (firstn j cs)), (spansIn (skipn (S j) cs)). split.
      * rewrite (nth_error_decompose cs j _ Hj) at 1.
        now rewrite spansIn_app, spansIn_cons.
      * rewrite !spansIn_app, !spansIn_cons. cbn [spansOf app].
        destruct (Nat.eqb (Nat.min so eo) eo); reflexivity.
  - destruct (Nat.ltb_spec i j) as [Hlt|_]; [|auto].
    rewrite Hi, Hj. cbn [cutRight cutLeft].
    destruct (splitAt so d1) as [a b]. destruct (splitAt eo d2) as [a' b'].
    pose proof (nth_error_decompose2 cs i j _ _ Hlt Hi Hj) as Hd.
    pose proof (forallb_firstn _ i _ Hm) as HL.
    pose proof (forallb_firstn _ (j - i - 1) _ (forallb_skipn _ (S i) _ Hm)) as HM.
    pose proof (forallb_skipn _ (S j) _ Hm) as HR.
    set (L := firstn i cs) in *.
    set (M := firstn (j - i - 1) (skipn (S i) cs)) in *.
    set (R := skipn (S j) cs) in *.
    clearbody L M R. split.
    + rewrite !forallb_app. cbn [forallb onlyMarkers app].
      rewrite forallb_app. cbn [forallb onlyMarkers]. now rewrite HL, HM, HR.
    + right. exists (spansIn L), (spansIn M ++ spansIn R). split.
      * rewrite Hd. rewrite spansIn_app, spansIn_cons, spansIn_app, spansIn_cons.
        reflexivity.
      * rewrite !spansIn_app, !spansIn_cons. cbn [spansOf app].
        fold (spansIn (Text b :: M ++ [Text a'])).
        rewrite spansIn_cons, spansIn_app. cbn [spansOf spansIn flat_map app].
        now rewrite !app_nil_r.
Qed.

(** *** The invariant of a rendering of a single text node *)

Section SingleText.

(** The target: an element [t] whose only child is the text node [d]. *)
Variables (t : string) (u : bool) (d : string).

Definition tidyTree (n : node) : Prop :=
  exists cs,
    n = Elem t u cs
    /\ forallb onlyMarkers cs = true
    /\ NoDup (spansIn cs)
    /\ (spansIn cs = [] -> cs = [Text d])
    /\ textOf cs = d.

Definition tidy (s : state) : Prop :=
  tidyTree (target s)
  /\ forall v, In v (spansIn (childrenOf (target s))) ->
       (v < nextUid s)%nat /\ In v (underlines s).

Lemma span_text (uid : nat) (sid : string) (l : list node) :
  textContent (Span uid sid l) = textOf l.
Proof. reflexivity. Qed.

Lemma renderSingleUnderline_tidy (s : state) (i : issue) :
  tidy s -> tidy (renderSingleUnderline s i).
Proof.
  intros [(cs & Ht & Hm & Hnd & Hone & Htxt) Hv].
  unfold renderSingleUnderline, getTextNodes. rewrite Ht in *.
  cbn [acceptedIn childrenOf withChildren] in *.
  destruct (createRangeFromIndices _ _ _) as [[b1 b2]|] eqn:E.
  2:{ split; [exists cs; rewrite Ht; auto | rewrite Ht; exact Hv]. }
  unfold createRangeFromIndices in E. apply findRange_paths in E.
  destruct E as [[E1|(d1 & E1)] (d2 & E2)]; [discriminate|].
  apply (acceptedAmong_flat u cs Hm) in E1. destruct E1 as (k1 & Hp1 & Hk1).
  apply (acceptedAmong_flat u cs Hm) in E2. destruct E2 as (k2 & Hp2 & Hk2).
  rewrite Hp1, Hp2. cbn [Nat.add].
  destruct (wrapForest_flat (nextUid s) (issueId i) k1 k2
              (Z.to_nat (bp_offset b1)) (Z.to_nat (bp_offset b2)) cs d1 d2 Hm Hk1 Hk2)
    as [Hm' Hsp].
  set (cs' := wrapForest (Span (nextUid s) (issueId i)) [k1] [k2]
                (Z.to_nat (bp_offset b1)) (Z.to_nat (bp_offset b2)) cs) in *.
  assert (Htxt' : textOf cs' = d).
  { subst cs'. rewrite wrapForest_text; [exact Htxt | apply span_text]. }
  unfold tidy. cbn [target nextUid underlines childrenOf].
  destruct Hsp as [Hsame|(l1 & l2 & Hl & Hl')].
  - split.
    + exists cs'. rewrite Hsame in *. auto.
    + rewrite Hsame. intros v Hin. destruct (Hv v Hin) as [H1 H2].
      split; [lia | apply in_app_iff; now left].
  - assert (Hfresh : ~ In (nextUid s) (l1 ++ l2)).
    { rewrite <- Hl. intros Hin. apply Hv in Hin. lia. }
    split.
    + exists cs'. repeat split; auto.
      * rewrite Hl'. apply (NoDup_Add (a := nextUid s) (l := l1 ++ l2)).
        -- apply Add_app.
        -- split; [now rewrite <- Hl | exact Hfresh].
      * rewrite Hl'. intros Hnil. destruct l1; discriminate.
    + rewrite Hl'. intros v Hin.
      apply in_app_iff in Hin. destruct Hin as [Hin|[<-|Hin]].
      * assert (Hin' : In v (spansIn cs)) by (rewrite Hl; apply in_app_iff; now left).
        destruct (Hv v Hin'). split; [lia | apply in_app_iff; now left].
      * split; [lia | apply in_app_iff; right; now left].
      * assert (Hin' : In v (spansIn cs)) by (rewrite Hl; apply in_app_iff; now right).
        destruct (Hv v Hin'). split; [lia | apply in_app_iff; now left].
Qed.

Lemma render_tidy (l : list issue) : forall s,
  tidy s -> tidy (fold_left renderSingleUnderline l s).
Proof.
  induction l as [|i l IH]; intros s H; simpl; [exact H|].
  apply IH. now apply renderSingleUnderline_tidy.
Qed.

Lemma removeUnderline_root (uid : nat) (cs : list node) :
  removeUnderline uid (Elem t u cs)
  = Elem t u (childrenOf (removeUnderline uid (Elem t u cs))).
Proof. cbn [removeUnderline]. destruct (existsb (isSpan uid) cs); reflexivity. Qed.

Lemma removeUnderline_tidy (uid : nat) (n : node) :
  d <> "" -> tidyTree n ->
  tidyTree (removeUnderline uid n)
  /\ forall v, In v (spansIn (childrenOf (removeUnderline uid n))) ->
       In v (spansIn (childrenOf n)) /\ v <> uid.
Proof.
  intros Hd (cs & -> & Hm & Hnd & Hone & Htxt).
  destruct (in_dec Nat.eq_dec uid (spansIn cs)) as [Hin|Hnot].
  - destruct (removeUnderline_removes uid (Elem t u cs) Hnd Hin) as (l1 & l2 & H1 & H2).
    cbn [childrenOf] in H1.
    set (cs' := childrenOf (removeUnderline uid (Elem t u cs))) in *.
    assert (Hnd' : NoDup (l1 ++ uid :: l2)) by now rewrite <- H1.
    split.
    + exists cs'. split; [apply removeUnderline_root|]. split.
      { subst cs'. now apply onlyMarkers_children_removeUnderline. }
      split; [rewrite H2; now apply NoDup_remove_1 in Hnd'|].
      split.
      * rewrite H2. intros Hnil. apply app_eq_nil in Hnil. destruct Hnil as [-> ->].
        subst cs'. rewrite single_marker_removed; auto.
        -- cbn [childrenOf]. now rewrite Htxt.
        -- now rewrite Htxt.
      * pose proof (removeUnderline_text uid (Elem t u cs)) as Ht.
        rewrite removeUnderline_root in Ht. cbn [textContent] in Ht.
        fold cs' in Ht. fold (textOf cs') in Ht. fold (textOf cs) in Ht.
        now rewrite Ht.
    + cbn [childrenOf]. rewrite H2, H1. intros v Hv.
      apply NoDup_remove_2 in Hnd'. split.
      * apply in_app_iff in Hv. apply in_app_iff. destruct Hv; [left|right; right]; auto.
      * intros ->. contradiction.
  - rewrite removeUnderline_absent by exact Hnot. split.
    + exists cs. auto.
    + cbn [childrenOf]. intros v Hv. split; [exact Hv|]. intros ->. contradiction.
Qed.

Lemma clear_tidy (us : list nat) : forall n,
  d <> "" -> tidyTree n ->
  (forall v, In v (spansIn (childrenOf n)) -> In v us) ->
  fold_left (fun t' uid => removeUnderline uid t') us n = Elem t u [Text d].
Proof.
  induction us as [|uid us IH]; intros n Hd Ht Hsub; simpl.
  - destruct Ht as (cs & -> & Hm & Hnd & Hone & Htxt). cbn [childrenOf] in Hsub.
    rewrite Hone; [reflexivity|].
    destruct (spansIn cs) as [|v l]; [reflexivity|].
    destruct (Hsub v (or_introl eq_refl)).
  - destruct (removeUnderline_tidy uid n Hd Ht) as [Ht' Hv'].
    apply IH; auto. intros v Hv. destruct (Hv' v Hv) as [H1 H2].
    destruct (Hsub v H1) as [E|E]; [congruence | exact E].
Qed.

Lemma render_nothing_accepted (l : list issue) : forall s,
  getTextNodes (target s) = [] -> fold_left renderSingleUnderline l s = s.
Proof.
  induction l as [|i l IH]; intros s H; simpl; [reflexivity|].
  assert (E : renderSingleUnderline s i = s).
  { unfold renderSingleUnderline. now rewrite H. }
  rewrite E. now apply IH.
Qed.

(** A target holding one text node is back to exactly that after rendering
    and clearing, whatever the issues. *)
Lemma render_clear_single_text (issues : list issue) :
  target (clearUnderlines (renderUnderlines issues (init (Elem t u [Text d]))))
  = Elem t u [Text d].
Proof.
  unfold renderUnderlines.
  change (clearUnderlines (init (Elem t u [Text d])))
    with (mkState (Elem t u [Text d]) [] 0).
  destruct (String.eqb_spec d "") as [Hd|Hd].
  - rewrite render_nothing_accepted; [reflexivity|].
    subst d. cbn. now rewrite orb_true_r.
  - set (s0 := mkState (Elem t u [Text d]) [] 0).
    assert (H0 : tidy s0).
    { split.
      - exists [Text d]. repeat split; auto; [constructor | apply append_nil_r].
      - intros v []. }
    pose proof (render_tidy (sortIssues issues) s0 H0) as [Ht Hv].
    unfold clearUnderlines. cbn [target].
    apply clear_tidy; auto. intros v Hin. now apply Hv.
Qed.

End SingleText.

(** ** The two properties of the specification *)

(** The text the analysis saw: the accepted text nodes of the target, in
    document order, joined. *)
Definition extractedText (element : node) : string :=
  appendAll (map snd (getTextNodes element)).

(** C2 as stated: every marker of the batch, in processing order, wraps
    the substring of the extracted text at its issue's offsets. *)
Definition wraps_exact (element : node) (issues : list issue) : Prop :=
  wrappedTexts (renderUnderlines issues (init element))
  = map (fun i => Some (Js.substring (extractedText element)
                          (startIndex i) (endIndex i)))
        (sortIssues issues).

(** C3 as stated: after rendering and clearing, the same text and the same
    number of text nodes. *)
Definition roundtrip (element : node) (issues : list issue) : Prop :=
  let after := target (clearUnderlines (renderUnderlines issues (init element))) in
  textContent after = textContent element
  /\ textNodeCount after = textNodeCount element.

(** A [div] holding the one text node [abcdefgh]. *)
Definition plainDiv : node := Elem "div" false [Text "abcdefgh"].

(** A [div] holding two adjacent text nodes, [ab] and [cd]. *)
Definition splitDiv : node := Elem "div" false [Text "ab"; Text "cd"].

(** [String.substring] cuts what two splits cut. *)
Lemma substring_splitAt (n m : nat) (d : string) :
  String.substring n m d = fst (splitAt m (snd (splitAt n d))).
Proof.
  revert d. induction n as [|n IH]; intros d.
  - cbn [splitAt snd]. revert d. induction m as [|m IHm]; intros [|c r]; cbn; auto.
    rewrite IHm. now destruct (splitAt m r).
  - destruct d as [|c r].
    + cbn. now destruct m.
    + cbn [String.substring splitAt]. rewrite IH. now destruct (splitAt n r).
Qed.

(** The first marker of a batch is exact: on a target holding one text
    node, a single issue whose offsets lie in the text is wrapped around the
    substring at its offsets. *)
Lemma single_issue_wraps_exact (t d : string) (i : issue) :
  isBlank d = false ->
  0 <= startIndex i -> startIndex i <= endIndex i -> endIndex i <= Js.len d ->
  wraps_exact (Elem t false [Text d]) [i].
Proof.
  intros Hb H0 H1 H2.
  unfold wraps_exact, renderUnderlines, extractedText, getTextNodes.
  cbn [sortIssues fold_right insertSorted map init clearUnderlines underlines
       target fold_left nextUid].
  change (clearUnderlines (init (Elem t false [Text d])))
    with (mkState (Elem t false [Text d]) [] 0).
  unfold renderSingleUnderline, getTextNodes, createRangeFromIndices.
  cbn [target nextUid underlines acceptedIn acceptedAmong childrenOf withChildren].
  rewrite Hb. cbn [orb app map snd appendAll findRange].
  replace (startIndex i >=? 0) with true by (symmetry; rewrite Z.geb_leb; apply Z.leb_le; lia).
  replace (endIndex i >=? 0) with true by (symmetry; rewrite Z.geb_leb; apply Z.leb_le; lia).
  replace (startIndex i <=? 0 + Js.len d) with true by (symmetry; apply Z.leb_le; lia).
  replace (endIndex i <=? 0 + Js.len d) with true by (symmetry; apply Z.leb_le; lia).
  cbn [andb bp_path bp_offset wrapForest Nat.eqb nth_error firstn skipn app].
  rewrite app_nil_r, !Z.sub_0_r.
  assert (Hs : Js.substring (appendAll [d]) (startIndex i) (endIndex i)
               = fst (splitAt (Z.to_nat (endIndex i) - Z.to_nat (startIndex i))
                        (snd (splitAt (Z.to_nat (startIndex i)) d)))).
  { change (appendAll [d]) with (d ++ "")%string. rewrite append_nil_r.
    unfold Js.substring, Js.clampIndex.
    rewrite substring_splitAt.
    replace (Z.max 0 (Z.min (startIndex i) (Js.len d))) with (startIndex i) by lia.
    replace (Z.max 0 (Z.min (endIndex i) (Js.len d))) with (endIndex i) by lia.
    rewrite Z.min_l, Z.max_r by lia. now rewrite Z2Nat.inj_sub by lia. }
  rewrite Hs. unfold wrappedTexts, wrapInText.
  rewrite Nat.min_l by lia.
  clear Hs. destruct (splitAt (Z.to_nat (startIndex i)) d) as [pre rest].
  cbn [snd].
  destruct (splitAt (Z.to_nat (endIndex i) - Z.to_nat (startIndex i)) rest)
    as [mid post] eqn:E.
  cbn [target underlines map wrappedText Nat.eqb fst snd].
  destruct (Nat.eqb (Z.to_nat (startIndex i)) (Z.to_nat (endIndex i))) eqn:Q.
  - apply Nat.eqb_eq in Q. rewrite Q, Nat.sub_diag in E. cbn in E.
    injection E as <- _. reflexivity.
  - change (appendAll (map textContent [Text mid])) with (mid ++ "")%string.
    now rewrite append_nil_r.
Qed.

(** C2 (code defect).  On the text [abcdefgh] with the issues [0,2) and
    [4,6), processed in ascending order, the second marker wraps [gh], not
    the substring [ef] at its offsets: once [ab] is inside a marker,
    [getTextNodes] skips it, and the offsets of the later issue are counted
    over what is left. *)
Theorem later_issue_wraps_shifted_text :
  wrappedTexts
    (renderUnderlines [mkIssue "i1" 0 2; mkIssue "i2" 4 6] (init plainDiv))
  = [Some "ab"; Some "gh"]
  /\ Js.substring (extractedText plainDiv) 4 6 = "ef"
  /\ ~ wraps_exact plainDiv [mkIssue "i1" 0 2; mkIssue "i2" 4 6].
Proof.
  split; [reflexivity|]. split; [reflexivity|].
  unfold wraps_exact. vm_compute. discriminate.
Qed.

(** C3 (as stated) fails on a target with two adjacent text nodes: clearing
    normalises the parent of the marker, and the two nodes come back as
    one. *)
Lemma adjacent_text_nodes_merge :
  ~ roundtrip splitDiv [mkIssue "i1" 0 1].
Proof. unfold roundtrip. vm_compute. intros [_ H]. discriminate. Qed.

Example adjacent_text_nodes_after :
  target (clearUnderlines (renderUnderlines [mkIssue "i1" 0 1] (init splitDiv)))
  = Elem "div" false [Text "abcd"].
Proof. reflexivity. Qed.

(** A range that cuts through an element leaves the element in two. *)
Example cut_element_stays_split :
  target (clearUnderlines
            (renderUnderlines [mkIssue "i1" 1 3]
               (init (Elem "div" false [Elem "b" false [Text "ab"]; Text "cd"]))))
  = Elem "div" false [Elem "b" false [Text "a"]; Elem "b" false [Text "b"]; Text "cd"].
Proof. reflexivity. Qed.

(** ** The tree under its markers

    What [mergeTexts] does to a list is decided node by node from the
    right; two lists that merge to the same list can stand for each other
    inside any longer list. *)

Definition mergeStep (n : node) (r : list node) : list node :=
  match n with
  | Text d =>
      if String.eqb d "" then r
      else match r with
           | Text d' :: r' => Text (d ++ d') :: r'
           | r' => Text d :: r'
           end
  | _ => n :: r
  end.

Lemma mergeTexts_cons (n : node) (l : list node) :
  mergeTexts (n :: l) = mergeStep n (mergeTexts l).
Proof.
  destruct n as [d|t u c|k s c]; try reflexivity.
  cbn [mergeTexts mergeStep]. destruct (String.eqb d ""); [reflexivity|].
  destruct (mergeTexts l) as [|[d'|t u c|k s c] r]; reflexivity.
Qed.

Lemma mergeStep_append (a b : string) (r : list node) :
  mergeStep (Text (a ++ b)) r = mergeStep (Text a) (mergeStep (Text b) r).
Proof.
  cbn [mergeStep]. destruct (String.eqb_spec b "") as [->|Hb].
  - now rewrite append_nil_r.
  - destruct (String.eqb_spec a "") as [->|Ha].
    + cbn [append]. destruct (String.eqb_spec b ""); [contradiction | reflexivity].
    + destruct (String.eqb_spec (a ++ b) "") as [E|_].
      { apply append_empty in E. tauto. }
      destruct r as [|[d'|t u c|k s c] r']; try reflexivity.
      now rewrite append_assoc.
Qed.

Lemma mergeTexts_app (a b : list node) :
  mergeTexts (a ++ b) = fold_right mergeStep (mergeTexts b) a.
Proof.
  induction a as [|n a IH]; [reflexivity|].
  cbn [app fold_right]. now rewrite mergeTexts_cons, IH.
Qed.

Lemma mergeStep_fold (n : node) (r m : list node) :
  fold_right mergeStep r (mergeStep n m) = mergeStep n (fold_right mergeStep r m).
Proof.
  destruct n as [d|t u c|k s c]; try reflexivity.
  cbn [mergeStep]. destruct (String.eqb_spec d "") as [->|Hd]; [reflexivity|].
  destruct m as [|[d'|t u c|k s c] m']; cbn [fold_right]; try reflexivity.
  - cbn [mergeStep]. destruct (String.eqb_spec d ""); [contradiction | reflexivity].
  - rewrite mergeStep_append. cbn [mergeStep].
    destruct (String.eqb_spec d ""); [contradiction | reflexivity].
  - cbn [mergeStep]. destruct (String.eqb_spec d ""); [contradiction | reflexivity].
  - cbn [mergeStep]. destruct (String.eqb_spec d ""); [contradiction | reflexivity].
Qed.

Lemma fold_mergeTexts (l r : list node) :
  fold_right mergeStep r (mergeTexts l) = fold_right mergeStep r l.
Proof.
  induction l as [|n l IH]; [reflexivity|].
  rewrite mergeTexts_cons, mergeStep_fold, IH. reflexivity.
Qed.

(** Two lists of nodes that normalise to the same list. *)
Definition sameMerged (a b : list node) : Prop := mergeTexts a = mergeTexts b.

Lemma sameMerged_refl (a : list node) : sameMerged a a.
Proof. reflexivity. Qed.

Lemma sameMerged_sym (a b : list node) : sameMerged a b -> sameMerged b a.
Proof. unfold sameMerged. congruence. Qed.

Lemma sameMerged_trans (a b c : list node) :
  sameMerged a b -> sameMerged b c -> sameMerged a c.
Proof. unfold sameMerged. congruence. Qed.

Lemma sameMerged_app (a a' b b' : list node) :
  sameMerged a a' -> sameMerged b b' -> sameMerged (a ++ b) (a' ++ b').
Proof.
  unfold sameMerged. intros Ha Hb.
  rewrite !mergeTexts_app, Hb.
  rewrite <- (fold_mergeTexts a), <- (fold_mergeTexts a'), Ha. reflexivity.
Qed.

Lemma mergeTexts_fold (l : list node) : mergeTexts l = fold_right mergeStep [] l.
Proof.
  induction l as [|n l IH]; [reflexivity|].
  now rewrite mergeTexts_cons, IH.
Qed.

Lemma sameMerged_merged (l : list node) : sameMerged (mergeTexts l) l.
Proof.
  unfold sameMerged. rewrite (mergeTexts_fold (mergeTexts l)), fold_mergeTexts.
  symmetry. apply mergeTexts_fold.
Qed.

Lemma sameMerged_split (a b : string) :
  sameMerged [Text a; Text b] [Text (a ++ b)].
Proof.
  unfold sameMerged. rewrite !mergeTexts_cons. cbn [mergeTexts].
  symmetry. apply mergeStep_append.
Qed.

Lemma sameMerged_empty : sameMerged [Text ""] [].
Proof. reflexivity. Qed.

(** A node with every marker below it replaced by the marker's children,
    and the children of every element merged: the page as it is under the
    markers.  A marker itself stands for the list of its children. *)
Fixpoint withoutMarkers (n : node) : list node :=
  match n with
  | Text d => [Text d]
  | Elem t u cs => [Elem t u (mergeTexts (flat_map withoutMarkers cs))]
  | Span _ _ cs => flat_map withoutMarkers cs
  end.

Definition unmarked (cs : list node) : list node := flat_map withoutMarkers cs.

(** The children of an element as they are under the markers. *)
Definition bare (cs : list node) : list node := mergeTexts (unmarked cs).

Lemma unmarked_app (a b : list node) : unmarked (a ++ b) = unmarked a ++ unmarked b.
Proof. apply flat_map_app. Qed.

Lemma unmarked_cons (c : node) (cs : list node) :
  unmarked (c :: cs) = withoutMarkers c ++ unmarked cs.
Proof. reflexivity. Qed.

Lemma sameMerged_cons (n : node) (a b : list node) :
  sameMerged a b -> sameMerged (n :: a) (n :: b).
Proof. intros H. apply (sameMerged_app [n] [n]); [reflexivity | exact H]. Qed.

Lemma unmarked_mergeTexts (l : list node) :
  sameMerged (unmarked (mergeTexts l)) (unmarked l).
Proof.
  induction l as [|[d|t u c|k s c] l IH]; cbn [mergeTexts]; [reflexivity| | |].
  - rewrite unmarked_cons. cbn [withoutMarkers app].
    destruct (String.eqb_spec d "") as [->|Hd].
    + eapply sameMerged_trans; [exact IH|]. apply sameMerged_sym.
      apply (sameMerged_app [Text ""] [] (unmarked l) (unmarked l));
        [reflexivity | reflexivity].
    + destruct (mergeTexts l) as [|[d'|t u c|k s c] r] eqn:E.
      * apply sameMerged_cons. exact IH.
      * rewrite unmarked_cons in *. cbn [withoutMarkers app] in *.
        eapply sameMerged_trans; [|apply sameMerged_cons; exact IH].
        apply sameMerged_sym.
        apply (sameMerged_app [Text d; Text d'] [Text (d ++ d')] (unmarked r) (unmarked r));
          [apply sameMerged_split | reflexivity].
      * apply sameMerged_cons. exact IH.
      * apply sameMerged_cons. exact IH.
  - rewrite !unmarked_cons. apply sameMerged_app; [reflexivity | exact IH].
  - rewrite !unmarked_cons. apply sameMerged_app; [reflexivity | exact IH].
Qed.

Lemma unmarked_map (f : node -> node) (cs : list node) :
  Forall (fun c => sameMerged (withoutMarkers (f c)) (withoutMarkers c)) cs ->
  sameMerged (unmarked (map f cs)) (unmarked cs).
Proof.
  induction 1 as [|c cs Hc _ IH]; [reflexivity|].
  cbn [map]. rewrite !unmarked_cons. now apply sameMerged_app.
Qed.

Lemma unmarked_normalized (cs : list node) :
  Forall (fun c => sameMerged (withoutMarkers (normalize c)) (withoutMarkers c)) cs ->
  sameMerged (unmarked (mergeTexts (map normalize cs))) (unmarked cs).
Proof.
  intros H. eapply sameMerged_trans; [apply unmarked_mergeTexts|].
  now apply unmarked_map.
Qed.

Lemma withoutMarkers_normalize (n : node) :
  sameMerged (withoutMarkers (normalize n)) (withoutMarkers n).
Proof.
  induction n as [d|t u cs IH|k s cs IH] using node_induction; [reflexivity| |];
    cbn [normalize withoutMarkers];
    fold (unmarked (mergeTexts (map normalize cs))); fold (unmarked cs).
  - pose proof (unmarked_normalized cs IH) as H. unfold sameMerged in H.
    now rewrite H.
  - now apply unmarked_normalized.
Qed.

Lemma unmarked_children_normalized (cs : list node) :
  sameMerged (unmarked (mergeTexts (map normalize cs))) (unmarked cs).
Proof.
  apply unmarked_normalized. apply Forall_forall. intros c _.
  apply withoutMarkers_normalize.
Qed.

Lemma unmarked_splice (uid : nat) (cs : list node) :
  unmarked (splice uid cs) = unmarked cs.
Proof.
  induction cs as [|c cs IH]; [reflexivity|]. cbn [splice].
  destruct (isSpan uid c) eqn:E.
  - destruct c as [d|t u c'|k s c']; try discriminate.
    now rewrite unmarked_app, unmarked_cons.
  - now rewrite !unmarked_cons, IH.
Qed.

(** Removing a marker changes nothing under the markers. *)
Lemma withoutMarkers_removeUnderline (uid : nat) (n : node) :
  sameMerged (withoutMarkers (removeUnderline uid n)) (withoutMarkers n).
Proof.
  induction n as [d|t u cs IH|k s cs IH] using node_induction; [reflexivity| |];
    cbn [removeUnderline]; destruct (existsb (isSpan uid) cs).
  - cbn [normalize withoutMarkers].
    fold (unmarked (mergeTexts (map normalize (splice uid cs)))). fold (unmarked cs).
    pose proof (unmarked_children_normalized (splice uid cs)) as H.
    rewrite unmarked_splice in H. unfold sameMerged in H. now rewrite H.
  - cbn [withoutMarkers].
    fold (unmarked (map (removeUnderline uid) cs)). fold (unmarked cs).
    pose proof (unmarked_map (removeUnderline uid) cs IH) as H.
    unfold sameMerged in H. now rewrite H.
  - cbn [normalize withoutMarkers].
    fold (unmarked (mergeTexts (map normalize (splice uid cs)))). fold (unmarked cs).
    rewrite <- (unmarked_splice uid cs). apply unmarked_children_normalized.
  - cbn [withoutMarkers].
    fold (unmarked (map (removeUnderline uid) cs)). fold (unmarked cs).
    now apply unmarked_map.
Qed.

(** *** Wrapping a range whose two ends have the same parent *)

Lemma splitAt_pair (n : nat) (d : string) :
  exists a b, splitAt n d = (a, b) /\ (a ++ b)%string = d.
Proof.
  pose proof (splitAt_append n d) as H. destruct (splitAt n d) as [a b].
  exists a, b. auto.
Qed.

Lemma wrapInText_unmarked (uid : nat) (s : string) (so eo : nat) (d : string) :
  sameMerged (unmarked (wrapInText (Span uid s) so eo d)) [Text d].
Proof.
  unfold wrapInText.
  destruct (splitAt_pair (Nat.min so eo) d) as (pre & rest & -> & <-).
  destruct (Nat.eqb_spec (Nat.min so eo) eo) as [E|E].
  - rewrite E, Nat.sub_diag. cbn [splitAt]. apply sameMerged_split.
  - destruct (splitAt_pair (eo - Nat.min so eo) rest) as (mid & post & -> & <-).
    cbn [unmarked flat_map withoutMarkers app].
    eapply sameMerged_trans; [|apply sameMerged_split].
    apply sameMerged_cons. apply sameMerged_split.
Qed.

Lemma cutRight_here_unmarked (so : nat) (c : node) :
  sameMerged (withoutMarkers (fst (cutRight [] so c))
              ++ withoutMarkers (snd (cutRight [] so c)))
             (withoutMarkers c).
Proof.
  destruct c as [d|t u cs|k s cs]; cbn [cutRight].
  - destruct (splitAt_pair so d) as (a & b & -> & <-). apply sameMerged_split.
  - cbn [fst snd]. rewrite <- (app_nil_r (withoutMarkers (Elem t u cs))) at 2.
    apply sameMerged_app; reflexivity.
  - cbn [fst snd]. rewrite <- (app_nil_r (withoutMarkers (Span k s cs))) at 2.
    apply sameMerged_app; reflexivity.
Qed.

Lemma cutLeft_here_unmarked (eo : nat) (c : node) :
  sameMerged (withoutMarkers (fst (cutLeft [] eo c))
              ++ withoutMarkers (snd (cutLeft [] eo c)))
             (withoutMarkers c).
Proof.
  destruct c as [d|t u cs|k s cs]; cbn [cutLeft].
  - destruct (splitAt_pair eo d) as (a & b & -> & <-). apply sameMerged_split.
  - cbn [fst snd]. apply (sameMerged_app [Text ""] []); reflexivity.
  - cbn [fst snd]. apply (sameMerged_app [Text ""] []); reflexivity.
Qed.

Lemma withChildren_same (c : node) : withChildren c (childrenOf c) = c.
Proof. destruct c; reflexivity. Qed.

Lemma wrapForest_nil_l (mk : list node -> node) (ep : path) (so eo : nat)
    (cs : list node) : wrapForest mk [] ep so eo cs = cs.
Proof. reflexivity. Qed.

Lemma wrapForest_nil_r (mk : list node -> node) (sp : path) (so eo : nat)
    (cs : list node) : wrapForest mk sp [] so eo cs = cs.
Proof. destruct sp; reflexivity. Qed.

(** The wrap at the parent of the two ends. *)
Lemma wrapForest_here_unmarked (uid : nat) (s : string) (i j so eo : nat)
    (cs : list node) :
  sameMerged (unmarked (wrapForest (Span uid s) [i] [j] so eo cs)) (unmarked cs).
Proof.
  cbn [wrapForest].
  destruct (Nat.eqb_spec i j) as [->|Hne].
  - destruct (nth_error cs j) as [c|] eqn:E; [|reflexivity].
    pose proof (nth_error_decompose cs j c E) as Hd.
    set (L := firstn j cs) in *. set (R := skipn (S j) cs) in *.
    clearbody L R. clear E. subst cs.
    destruct c as [d|t u cs'|k s' cs'].
    + rewrite !unmarked_app, unmarked_cons.
      apply sameMerged_app; [reflexivity|].
      apply sameMerged_app; [apply wrapInText_unmarked | reflexivity].
    + cbn [childrenOf withChildren wrapForest app]. reflexivity.
    + cbn [childrenOf withChildren wrapForest app]. reflexivity.
  - destruct (Nat.ltb_spec i j) as [Hlt|_]; [|reflexivity].
    destruct (nth_error cs i) as [ci|] eqn:Ei; [|reflexivity].
    destruct (nth_error cs j) as [cj|] eqn:Ej; [|reflexivity].
    pose proof (cutRight_here_unmarked so ci) as HL.
    pose proof (cutLeft_here_unmarked eo cj) as HR.
    destruct (cutRight [] so ci) as [stayL goL].
    destruct (cutLeft [] eo cj) as [goR stayR]. cbn [fst snd] in HL, HR.
    pose proof (nth_error_decompose2 cs i j ci cj Hlt Ei Ej) as Hd.
    set (L := firstn i cs) in *. set (M := firstn (j - i - 1) (skipn (S i) cs)) in *.
    set (R := skipn (S j) cs) in *.
    clearbody L M R. clear Ei Ej. subst cs.
    rewrite !unmarked_app, !unmarked_cons. cbn [withoutMarkers].
    fold (unmarked ([goL] ++ M ++ [goR])).
    rewrite !unmarked_app. rewrite !unmarked_cons. cbn [unmarked flat_map].
    rewrite !app_nil_r. apply sameMerged_app; [reflexivity|].
    rewrite <- !app_assoc.
    rewrite (app_assoc (withoutMarkers stayL) (withoutMarkers goL)).
    apply sameMerged_app; [exact HL|].
    apply sameMerged_app; [reflexivity|].
    rewrite (app_assoc (withoutMarkers goR) (withoutMarkers stayR)).
    apply sameMerged_app; [exact HR | reflexivity].
Qed.

(** Below the common parent [q] of the two ends. *)
Lemma wrapForest_unmarked (uid : nat) (s : string) (q : path) :
  forall (i j so eo : nat) (cs : list node),
  sameMerged (unmarked (wrapForest (Span uid s) (q ++ [i]) (q ++ [j]) so eo cs))
             (unmarked cs).
Proof.
  induction q as [|k q IH]; intros i j so eo cs.
  - apply wrapForest_here_unmarked.
  - cbn [app wrapForest]. rewrite Nat.eqb_refl.
    destruct (nth_error cs k) as [c|] eqn:E; [|reflexivity].
    pose proof (nth_error_decompose cs k c E) as Hd.
    set (L := firstn k cs) in *. set (R := skipn (S k) cs) in *.
    clearbody L R. clear E. subst cs.
    destruct c as [d|t u cs'|k' s' cs'].
    + destruct q; reflexivity.
    + rewrite !unmarked_app, !unmarked_cons.
      apply sameMerged_app; [reflexivity|].
      apply sameMerged_app; [|reflexivity].
      cbn [childrenOf withChildren withoutMarkers].
      fold (unmarked (wrapForest (Span uid s) (q ++ [i]) (q ++ [j]) so eo cs')).
      fold (unmarked cs'). specialize (IH i j so eo cs').
      unfold sameMerged in IH. now rewrite IH.
    + rewrite !unmarked_app, !unmarked_cons.
      apply sameMerged_app; [reflexivity|].
      apply sameMerged_app; [|reflexivity].
      cbn [childrenOf withChildren withoutMarkers app].
      fold (unmarked (wrapForest (Span uid s) (q ++ [i]) (q ++ [j]) so eo cs')).
      fold (unmarked cs'). apply IH.
Qed.

(** *** Lists of children that [normalize] leaves alone *)

(** No empty text node and no two text nodes side by side. *)
Fixpoint merged (cs : list node) : bool :=
  match cs with
  | [] => true
  | Text d :: r =>
      negb (String.eqb d "")
      && match r with Text _ :: _ => false | _ => true end
      && merged r
  | _ :: r => merged r
  end.

Definition isMarker (n : node) : bool :=
  match n with Span _ _ _ => true | _ => false end.

Lemma merged_mergeStep (n : node) (r : list node) :
  merged r = true -> merged (mergeStep n r) = true.
Proof.
  intros H. destruct n as [d|t u c|k s c]; [|exact H|exact H].
  cbn [mergeStep]. destruct (String.eqb_spec d "") as [->|Hd]; [exact H|].
  destruct r as [|[d'|t u c|k s c] r'].
  - cbn. destruct (String.eqb_spec d ""); [contradiction | reflexivity].
  - cbn [merged] in *. apply andb_prop in H. destruct H as [H1 H3].
    apply andb_prop in H1. destruct H1 as [H1 H2].
    rewrite H2, H3. destruct (String.eqb_spec (d ++ d') "") as [E|_]; [|reflexivity].
    apply append_empty in E. tauto.
  - cbn [merged] in *. rewrite H.
    destruct (String.eqb_spec d ""); [contradiction | reflexivity].
  - cbn [merged] in *. rewrite H.
    destruct (String.eqb_spec d ""); [contradiction | reflexivity].
Qed.

Lemma merged_mergeTexts (l : list node) : merged (mergeTexts l) = true.
Proof.
  induction l as [|n l IH]; [reflexivity|].
  rewrite mergeTexts_cons. now apply merged_mergeStep.
Qed.

Lemma mergeTexts_merged (cs : list node) : merged cs = true -> mergeTexts cs = cs.
Proof.
  induction cs as [|[d|t u c|k s c] cs IH]; cbn [merged mergeTexts]; [reflexivity| | |].
  - intros H. apply andb_prop in H. destruct H as [H1 H3].
    apply andb_prop in H1. destruct H1 as [H1 H2].
    rewrite (IH H3). destruct (String.eqb d ""); [discriminate|].
    destruct cs as [|[d'|t u c|k s c] r]; try reflexivity. discriminate.
  - intros H. now rewrite IH.
  - intros H. now rewrite IH.
Qed.

(** Every element that has no marker among its children has its children
    merged.  (While a marker is among them, the text around it is split;
    removing the marker normalises the element.) *)
Fixpoint settled (n : node) : bool :=
  match n with
  | Text _ => true
  | Elem _ _ cs => forallb settled cs && (existsb isMarker cs || merged cs)
  | Span _ _ cs => forallb settled cs
  end.

(** Every list of children below the node is merged. *)
Fixpoint normalised (n : node) : bool :=
  match n with
  | Text _ => true
  | Elem _ _ cs => forallb normalised cs && merged cs
  | Span _ _ cs => forallb normalised cs && merged cs
  end.

Lemma forallb_mergeStep (f : node -> bool) (n : node) (r : list node) :
  (forall d, f (Text d) = true) ->
  f n = true -> forallb f r = true -> forallb f (mergeStep n r) = true.
Proof.
  intros Hf Hn Hr. destruct n as [d|t u c|k s c].
  - cbn [mergeStep]. destruct (String.eqb d ""); [exact Hr|].
    destruct r as [|[d'|t u c|k s c] r']; cbn [forallb] in *;
      rewrite ?Hf in *; auto.
  - cbn [mergeStep forallb]. now rewrite Hn, Hr.
  - cbn [mergeStep forallb]. now rewrite Hn, Hr.
Qed.

Lemma forallb_mergeTexts (f : node -> bool) (l : list node) :
  (forall d, f (Text d) = true) ->
  forallb f l = true -> forallb f (mergeTexts l) = true.
Proof.
  intros Hf. induction l as [|n l IH]; [reflexivity|].
  cbn [forallb]. intros H. apply andb_prop in H. destruct H as [H1 H2].
  rewrite mergeTexts_cons. apply forallb_mergeStep; auto.
Qed.

Lemma forallb_map_all (f : node -> bool) (g : node -> node) (cs : list node) :
  Forall (fun c => f (g c) = true) cs -> forallb f (map g cs) = true.
Proof.
  induction 1 as [|c cs Hc _ IH]; [reflexivity|].
  cbn [map forallb]. now rewrite Hc, IH.
Qed.

Lemma normalised_normalize (n : node) : normalised (normalize n) = true.
Proof.
  induction n as [d|t u cs IH|k s cs IH] using node_induction; [reflexivity| |];
    cbn [normalize normalised]; rewrite merged_mergeTexts, andb_true_r;
    (apply forallb_mergeTexts; [reflexivity | now apply forallb_map_all]).
Qed.

Lemma normalised_settled (n : node) : normalised n = true -> settled n = true.
Proof.
  induction n as [d|t u cs IH|k s cs IH] using node_induction; [reflexivity| |];
    cbn [normalised settled]; intros H; apply andb_prop in H; destruct H as [H1 H2].
  - rewrite H2, orb_true_r, andb_true_r.
    clear H2. induction IH as [|c cs Hc _ IH']; [reflexivity|].
    cbn [forallb] in *. apply andb_prop in H1. destruct H1 as [Ha Hb].
    now rewrite Hc, IH'.
  - clear H2. induction IH as [|c cs Hc _ IH']; [reflexivity|].
    cbn [forallb] in *. apply andb_prop in H1. destruct H1 as [Ha Hb].
    now rewrite Hc, IH'.
Qed.

(** What decides [merged] and the presence of a marker: the text nodes and
    the kind of every other node. *)
Definition kind (n : node) : node :=
  match n with
  | Text d => Text d
  | Elem _ _ _ => Elem "" false []
  | Span _ _ _ => Span 0 "" []
  end.

Lemma merged_kind (cs : list node) : merged (map kind cs) = merged cs.
Proof.
  induction cs as [|[d|t u c|k s c] cs IH]; cbn [map kind merged]; auto.
  rewrite IH. destruct cs as [|[d'|t u c|k s c] r]; reflexivity.
Qed.

Lemma isMarker_kind (cs : list node) :
  existsb isMarker (map kind cs) = existsb isMarker cs.
Proof.
  induction cs as [|[d|t u c|k s c] cs IH]; cbn [map kind existsb isMarker]; auto.
Qed.

Definition childrenOk (cs : list node) : bool := existsb isMarker cs || merged cs.

Lemma childrenOk_kind (cs cs' : list node) :
  map kind cs = map kind cs' -> childrenOk cs = childrenOk cs'.
Proof.
  intros H. unfold childrenOk.
  now rewrite <- (merged_kind cs), <- (isMarker_kind cs), H, merged_kind, isMarker_kind.
Qed.

Lemma kind_withChildren (c : node) (cs : list node) :
  kind (withChildren c cs) = kind c.
Proof. destruct c; reflexivity. Qed.

Lemma kind_removeUnderline (uid : nat) (n : node) :
  kind (removeUnderline uid n) = kind n.
Proof.
  destruct n as [d|t u cs|k s cs]; cbn [removeUnderline]; [reflexivity| |];
    destruct (existsb (isSpan uid) cs); reflexivity.
Qed.

Lemma existsb_app_marker (a b : list node) :
  existsb isMarker (a ++ b) = existsb isMarker a || existsb isMarker b.
Proof. apply existsb_app. Qed.

(** The wrap never leaves the children of the element it happens in
    without a marker, and changes no other list of children. *)
Lemma wrapForest_here_childrenOk (uid : nat) (s : string) (i j so eo : nat)
    (cs : list node) :
  childrenOk cs = true ->
  childrenOk (wrapForest (Span uid s) [i] [j] so eo cs) = true.
Proof.
  intros H. cbn [wrapForest].
  destruct (Nat.eqb_spec i j) as [->|Hne].
  - destruct (nth_error cs j) as [c|] eqn:E; [|exact H].
    destruct c as [d|t u cs'|k s' cs'].
    + unfold childrenOk, wrapInText.
      destruct (splitAt (Nat.min so eo) d) as [pre rest].
      destruct (splitAt (eo - Nat.min so eo) rest) as [mid post].
      rewrite !existsb_app_marker. cbn [existsb isMarker].
      now rewrite !orb_true_r.
    + cbn [childrenOf withChildren wrapForest app].
      now rewrite <- (nth_error_decompose cs j _ E).
    + cbn [childrenOf withChildren wrapForest app].
      now rewrite <- (nth_error_decompose cs j _ E).
  - destruct (Nat.ltb_spec i j) as [Hlt|_]; [|exact H].
    destruct (nth_error cs i) as [ci|]; [|exact H].
    destruct (nth_error cs j) as [cj|]; [|exact H].
    destruct (cutRight [] so ci) as [stayL goL].
    destruct (cutLeft [] eo cj) as [goR stayR].
    unfold childrenOk. rewrite !existsb_app_marker. cbn [existsb isMarker].
    now rewrite !orb_true_r.
Qed.

Lemma wrapForest_childrenOk (uid : nat) (s : string) (q : path) :
  forall (i j so eo : nat) (cs : list node),
  childrenOk cs = true ->
  childrenOk (wrapForest (Span uid s) (q ++ [i]) (q ++ [j]) so eo cs) = true.
Proof.
  destruct q as [|k q]; intros i j so eo cs H.
  - now apply wrapForest_here_childrenOk.
  - cbn [app wrapForest]. rewrite Nat.eqb_refl.
    destruct (nth_error cs k) as [c|] eqn:E; [|exact H].
    destruct c as [d|t u cs'|k' s' cs'].
    + destruct q; exact H.
    + rewrite <- H. apply childrenOk_kind.
      rewrite (nth_error_decompose cs k _ E) at 3.
      now rewrite !map_app.
    + rewrite <- H. apply childrenOk_kind.
      rewrite (nth_error_decompose cs k _ E) at 3.
      now rewrite !map_app.
Qed.

Lemma forallb_nth (f : node -> bool) (cs : list node) (i : nat) (c : node) :
  forallb f cs = true -> nth_error cs i = Some c -> f c = true.
Proof.
  intros H E. rewrite forallb_forall in H. apply H. eapply nth_error_In; eauto.
Qed.

Lemma settled_cutRight_here (so : nat) (c : node) :
  settled c = true ->
  settled (fst (cutRight [] so c)) = true /\ settled (snd (cutRight [] so c)) = true.
Proof.
  intros H. destruct c as [d|t u cs|k s cs]; cbn [cutRight].
  - destruct (splitAt so d); auto.
  - auto.
  - auto.
Qed.

Lemma settled_cutLeft_here (eo : nat) (c : node) :
  settled c = true ->
  settled (fst (cutLeft [] eo c)) = true /\ settled (snd (cutLeft [] eo c)) = true.
Proof.
  intros H. destruct c as [d|t u cs|k s cs]; cbn [cutLeft].
  - destruct (splitAt eo d); auto.
  - auto.
  - auto.
Qed.

Lemma wrapForest_here_settled (uid : nat) (s : string) (i j so eo : nat)
    (cs : list node) :
  forallb settled cs = true ->
  forallb settled (wrapForest (Span uid s) [i] [j] so eo cs) = true.
Proof.
  intros H. cbn [wrapForest].
  destruct (Nat.eqb_spec i j) as [->|Hne].
  - destruct (nth_error cs j) as [c|] eqn:E; [|exact H].
    destruct c as [d|t u cs'|k s' cs'].
    + rewrite !forallb_app, (forallb_firstn _ j _ H), (forallb_skipn _ (S j) _ H).
      unfold wrapInText.
      destruct (splitAt (Nat.min so eo) d) as [pre rest].
      destruct (splitAt (eo - Nat.min so eo) rest) as [mid post].
      destruct (Nat.eqb (Nat.min so eo) eo); reflexivity.
    + cbn [childrenOf withChildren wrapForest app].
      now rewrite <- (nth_error_decompose cs j _ E).
    + cbn [childrenOf withChildren wrapForest app].
      now rewrite <- (nth_error_decompose cs j _ E).
  - destruct (Nat.ltb_spec i j) as [Hlt|_]; [|exact H].
    destruct (nth_error cs i) as [ci|] eqn:Ei; [|exact H].
    destruct (nth_error cs j) as [cj|] eqn:Ej; [|exact H].
    destruct (settled_cutRight_here so ci (forallb_nth _ _ _ _ H Ei)) as [HL1 HL2].
    destruct (settled_cutLeft_here eo cj (forallb_nth _ _ _ _ H Ej)) as [HR1 HR2].
    destruct (cutRight [] so ci) as [stayL goL].
    destruct (cutLeft [] eo cj) as [goR stayR]. cbn [fst snd] in *.
    rewrite !forallb_app. cbn [forallb settled app].
    rewrite forallb_app. cbn [forallb].
    rewrite (forallb_firstn _ i _ H), (forallb_skipn _ (S j) _ H).
    rewrite (forallb_firstn _ (j - i - 1) _ (forallb_skipn _ (S i) _ H)).
    now rewrite HL1, HL2, HR1, HR2.
Qed.

Lemma wrapForest_settled (uid : nat) (s : string) (q : path) :
  forall (i j so eo : nat) (cs : list node),
  forallb settled cs = true ->
  forallb settled (wrapForest (Span uid s) (q ++ [i]) (q ++ [j]) so eo cs) = true.
Proof.
  induction q as [|k q IH]; intros i j so eo cs H.
  - now apply wrapForest_here_settled.
  - cbn [app wrapForest]. rewrite Nat.eqb_refl.
    destruct (nth_error cs k) as [c|] eqn:E; [|exact H].
    pose proof (forallb_nth _ _ _ _ H E) as Hc.
    destruct c as [d|t u cs'|k' s' cs'].
    + destruct q; exact H.
    + rewrite forallb_app. cbn [forallb childrenOf withChildren settled] in *.
      rewrite (forallb_firstn _ k _ H), (forallb_skipn _ (S k) _ H).
      apply andb_prop in Hc. destruct Hc as [Hc1 Hc2].
      rewrite (IH i j so eo cs' Hc1).
      fold (childrenOk (wrapForest (Span uid s) (q ++ [i]) (q ++ [j]) so eo cs')).
      now rewrite wrapForest_childrenOk.
    + rewrite forallb_app. cbn [forallb childrenOf withChildren settled] in *.
      rewrite (forallb_firstn _ k _ H), (forallb_skipn _ (S k) _ H).
      now rewrite (IH i j so eo cs' Hc).
Qed.

Lemma settled_removeUnderline (uid : nat) (n : node) :
  settled n = true -> settled (removeUnderline uid n) = true.
Proof.
  induction n as [d|t u cs IH|k s cs IH] using node_induction; [reflexivity| |];
    cbn [removeUnderline]; destruct (existsb (isSpan uid) cs);
    try (intros _; apply normalised_settled; apply normalised_normalize).
  - cbn [settled]. intros H. apply andb_prop in H. destruct H as [H1 H2].
    fold (childrenOk cs) in H2.
    fold (childrenOk (map (removeUnderline uid) cs)).
    rewrite (childrenOk_kind (map (removeUnderline uid) cs) cs), H2, andb_true_r.
    + clear H2. induction IH as [|c cs Hc _ IH']; [reflexivity|].
      cbn [forallb map] in *. apply andb_prop in H1. destruct H1 as [Ha Hb].
      now rewrite Hc, IH'.
    + rewrite map_map. apply map_ext. intros c. apply kind_removeUnderline.
  - cbn [settled]. intros H1.
    induction IH as [|c cs Hc _ IH']; [reflexivity|].
    cbn [forallb map] in *. apply andb_prop in H1. destruct H1 as [Ha Hb].
    now rewrite Hc, IH'.
Qed.

(** *** The markers a wrap adds *)

Lemma spansOf_withChildren (c : node) (cs : list node) :
  spansOf (withChildren c cs) = headOf c ++ match c with Text _ => [] | _ => spansIn cs end.
Proof. destruct c; reflexivity. Qed.

Lemma spans_cutRight_here (so : nat) (c : node) :
  spansOf (fst (cutRight [] so c)) = spansOf c /\ spansOf (snd (cutRight [] so c)) = [].
Proof.
  destruct c as [d|t u cs|k s cs]; cbn [cutRight]; [destruct (splitAt so d)| |]; auto.
Qed.

Lemma spans_cutLeft_here (eo : nat) (c : node) :
  spansOf (fst (cutLeft [] eo c)) = [] /\ spansOf (snd (cutLeft [] eo c)) = spansOf c.
Proof.
  destruct c as [d|t u cs|k s cs]; cbn [cutLeft]; [destruct (splitAt eo d)| |]; auto.
Qed.

(** What a wrap does to the list of markers: nothing, or the new marker is
    added somewhere in it. *)
Definition addsMarker (uid : nat) (before after : list nat) : Prop :=
  after = before
  \/ exists l1 l2, before = l1 ++ l2 /\ after = l1 ++ uid :: l2.

Lemma wrapForest_here_spans (uid : nat) (s : string) (i j so eo : nat)
    (cs : list node) :
  addsMarker uid (spansIn cs) (spansIn (wrapForest (Span uid s) [i] [j] so eo cs)).
Proof.
  cbn [wrapForest].
  destruct (Nat.eqb_spec i j) as [->|Hne].
  - destruct (nth_error cs j) as [c|] eqn:E; [|now left].
    destruct c as [d|t u cs'|k s' cs'].
    + right. exists (spansIn (firstn j cs)), (spansIn (skipn (S j) cs)). split.
      * rewrite (nth_error_decompose cs j _ E) at 1.
        now rewrite spansIn_app, spansIn_cons.
      * unfold wrapInText.
        destruct (splitAt (Nat.min so eo) d) as [pre rest].
        destruct (splitAt (eo - Nat.min so eo) rest) as [mid post].
        rewrite !spansIn_app, !spansIn_cons. cbn [spansOf app].
        destruct (Nat.eqb (Nat.min so eo) eo); reflexivity.
    + left. cbn [childrenOf withChildren wrapForest app].
      now rewrite <- (nth_error_decompose cs j _ E).
    + left. cbn [childrenOf withChildren wrapForest app].
      now rewrite <- (nth_error_decompose cs j _ E).
  - destruct (Nat.ltb_spec i j) as [Hlt|_]; [|now left].
    destruct (nth_error cs i) as [ci|] eqn:Ei; [|now left].
    destruct (nth_error cs j) as [cj|] eqn:Ej; [|now left].
    destruct (spans_cutRight_here so ci) as [HL1 HL2].
    destruct (spans_cutLeft_here eo cj) as [HR1 HR2].
    destruct (cutRight [] so ci) as [stayL goL].
    destruct (cutLeft [] eo cj) as [goR stayR]. cbn [fst snd] in *.
    pose proof (nth_error_decompose2 cs i j ci cj Hlt Ei Ej) as Hd.
    set (L := firstn i cs) in *. set (M := firstn (j - i - 1) (skipn (S i) cs)) in *.
    set (R := skipn (S j) cs) in *.
    clearbody L M R. clear Ei Ej. subst cs.
    right. exists (spansIn L ++ spansOf ci), (spansIn M ++ spansOf cj ++ spansIn R).
    split.
    + rewrite spansIn_app, spansIn_cons, spansIn_app, spansIn_cons.
      now rewrite <- !app_assoc.
    + rewrite !spansIn_app, !spansIn_cons. cbn [spansOf].
      fold (spansIn ([goL] ++ M ++ [goR])).
      rewrite !spansIn_app, !spansIn_cons. cbn [spansIn flat_map].
      rewrite HL1, HL2, HR1, HR2. cbn [app]. rewrite !app_nil_r.
      repeat (rewrite <- app_assoc || rewrite <- app_comm_cons). reflexivity.
Qed.

Lemma wrapForest_spans (uid : nat) (s : string) (q : path) :
  forall (i j so eo : nat) (cs : list node),
  addsMarker uid (spansIn cs)
    (spansIn (wrapForest (Span uid s) (q ++ [i]) (q ++ [j]) so eo cs)).
Proof.
  induction q as [|k q IH]; intros i j so eo cs.
  - apply wrapForest_here_spans.
  - cbn [app wrapForest]. rewrite Nat.eqb_refl.
    destruct (nth_error cs k) as [c|] eqn:E; [|now left].
    pose proof (nth_error_decompose cs k c E) as Hd.
    set (L := firstn k cs) in *. set (R := skipn (S k) cs) in *.
    clearbody L R. clear E. subst cs.
    destruct c as [d|t u cs'|k' s' cs'].
    + left. destruct q; reflexivity.
    + rewrite !spansIn_app, !spansIn_cons. cbn [childrenOf withChildren spansOf].
      change (flat_map spansOf) with spansIn. rewrite ?app_nil_r.
      destruct (IH i j so eo cs') as [->|(l1 & l2 & H1 & H2)]; [now left|].
      right. exists (spansIn L ++ l1), (l2 ++ spansIn R).
      rewrite H1, H2.
      repeat (rewrite <- app_assoc || rewrite <- app_comm_cons). split; reflexivity.
    + rewrite !spansIn_app, !spansIn_cons. cbn [childrenOf withChildren spansOf].
      change (flat_map spansOf) with spansIn. rewrite ?app_nil_r.
      destruct (IH i j so eo cs') as [->|(l1 & l2 & H1 & H2)]; [now left|].
      right. exists (spansIn L ++ k' :: l1), (l2 ++ spansIn R).
      rewrite H1, H2.
      repeat (rewrite <- app_assoc || rewrite <- app_comm_cons). split; reflexivity.
Qed.

(** *** A settled tree without markers is what it is under the markers *)

Lemma noMarker_spans (cs : list node) : spansIn cs = [] -> existsb isMarker cs = false.
Proof.
  induction cs as [|[d|t u c|k s c] cs IH]; cbn [existsb isMarker]; auto.
  - rewrite spansIn_cons. intros H. apply app_eq_nil in H. now apply IH.
  - discriminate.
Qed.

Lemma unmarked_fixed (cs : list node) :
  Forall (fun c => settled c = true -> spansOf c = [] -> withoutMarkers c = [c]) cs ->
  forallb settled cs = true -> spansIn cs = [] -> unmarked cs = cs.
Proof.
  induction 1 as [|c cs Hc _ IH]; [reflexivity|].
  cbn [forallb]. rewrite spansIn_cons, unmarked_cons. intros Hs Hn.
  apply andb_prop in Hs. destruct Hs as [H1 H2].
  apply app_eq_nil in Hn. destruct Hn as [Hn1 Hn2].
  now rewrite Hc, IH.
Qed.

Lemma withoutMarkers_fixed (n : node) :
  settled n = true -> spansOf n = [] -> withoutMarkers n = [n].
Proof.
  induction n as [d|t u cs IH|k s cs IH] using node_induction;
    [reflexivity| |discriminate].
  cbn [settled spansOf withoutMarkers]. fold (spansIn cs). fold (unmarked cs).
  intros H Hn. apply andb_prop in H. destruct H as [H1 H2].
  rewrite (noMarker_spans cs Hn) in H2. cbn [orb] in H2.
  rewrite (unmarked_fixed cs IH H1 Hn), (mergeTexts_merged cs H2). reflexivity.
Qed.

Lemma bare_fixed (t : string) (u : bool) (cs : list node) :
  settled (Elem t u cs) = true -> spansIn cs = [] -> bare cs = cs.
Proof.
  intros H Hn. pose proof (withoutMarkers_fixed (Elem t u cs) H Hn) as E.
  cbn [withoutMarkers] in E. now injection E.
Qed.

(** *** Ranges that stay under one parent *)

Fixpoint samePath (p q : path) : bool :=
  match p, q with
  | [], [] => true
  | i :: p', j :: q' => Nat.eqb i j && samePath p' q'
  | _, _ => false
  end.

Lemma samePath_eq (p : path) : forall q, samePath p q = true -> p = q.
Proof.
  induction p as [|i p IH]; intros [|j q] H; try discriminate; [reflexivity|].
  cbn [samePath] in H. apply andb_prop in H. destruct H as [H1 H2].
  apply Nat.eqb_eq in H1. subst j. f_equal. now apply IH.
Qed.

(** The range of an issue, made in the state in which the issue's turn
    comes, has both ends in text nodes with the same parent, so that no
    element is cut by it (or there is no range). *)
Definition underOneParent (s : state) (i : issue) : bool :=
  match createRangeFromIndices (getTextNodes (target s)) (startIndex i) (endIndex i) with
  | None => true
  | Some (b1, b2) => samePath (removelast (bp_path b1)) (removelast (bp_path b2))
  end.

(** No range of the run cuts through an element. *)
Fixpoint noElementCut (l : list issue) (s : state) : bool :=
  match l with
  | [] => true
  | i :: l' => underOneParent s i && noElementCut l' (renderSingleUnderline s i)
  end.

Lemma sameParent_cases (sp ep : path) :
  removelast sp = removelast ep ->
  sp = [] \/ ep = [] \/ exists q i j, sp = q ++ [i] /\ ep = q ++ [j].
Proof.
  intros H. destruct sp as [|a sp]; [now left|].
  destruct ep as [|b ep]; [right; now left|]. right. right.
  exists (removelast (a :: sp)), (last (a :: sp) 0%nat), (last (b :: ep) 0%nat).
  split.
  - apply app_removelast_last. discriminate.
  - rewrite H. apply app_removelast_last. discriminate.
Qed.

Lemma addsMarker_same (uid : nat) (l : list nat) : addsMarker uid l l.
Proof. now left. Qed.

(** What one wrap under one parent keeps. *)
Lemma wrapForest_keeps (uid : nat) (s : string) (sp ep : path) (so eo : nat)
    (cs : list node) :
  removelast sp = removelast ep ->
  let cs' := wrapForest (Span uid s) sp ep so eo cs in
  bare cs' = bare cs
  /\ (forallb settled cs = true -> forallb settled cs' = true)
  /\ (childrenOk cs = true -> childrenOk cs' = true)
  /\ addsMarker uid (spansIn cs) (spansIn cs').
Proof.
  intros H. cbv zeta.
  destruct (sameParent_cases sp ep H) as [->|[->|(q & i & j & -> & ->)]].
  - rewrite wrapForest_nil_l. auto using addsMarker_same.
  - rewrite wrapForest_nil_r. auto using addsMarker_same.
  - split; [apply wrapForest_unmarked|].
    split; [apply wrapForest_settled|].
    split; [apply wrapForest_childrenOk | apply wrapForest_spans].
Qed.

(** *** The invariant of a run *)

Section RoundTrip.

(** The target as it was: the element [t] with the children [cs0]. *)
Variables (t : string) (u : bool) (cs0 : list node).

Definition keptTree (n : node) : Prop :=
  exists cs,
    n = Elem t u cs
    /\ bare cs = cs0
    /\ settled n = true
    /\ NoDup (spansIn cs).

Definition kept (s : state) : Prop :=
  keptTree (target s)
  /\ forall v, In v (spansIn (childrenOf (target s))) ->
       (v < nextUid s)%nat /\ In v (underlines s).

Lemma renderSingleUnderline_kept (s : state) (i : issue) :
  kept s -> underOneParent s i = true -> kept (renderSingleUnderline s i).
Proof.
  intros [(cs & Ht & Hb & Hs & Hnd) Hv] Hp.
  unfold underOneParent in Hp. unfold renderSingleUnderline.
  destruct (createRangeFromIndices _ _ _) as [[b1 b2]|].
  2:{ split; [exists cs; auto | exact Hv]. }
  apply samePath_eq in Hp. rewrite Ht in *. cbn [childrenOf withChildren] in *.
  destruct (wrapForest_keeps (nextUid s) (issueId i) (bp_path b1) (bp_path b2)
              (Z.to_nat (bp_offset b1)) (Z.to_nat (bp_offset b2)) cs Hp)
    as (Hb' & Hs' & Hok' & Hsp).
  set (cs' := wrapForest (Span (nextUid s) (issueId i)) (bp_path b1) (bp_path b2)
                (Z.to_nat (bp_offset b1)) (Z.to_nat (bp_offset b2)) cs) in *.
  cbn [settled] in Hs. apply andb_prop in Hs. destruct Hs as [Hs1 Hs2].
  assert (Hset : settled (Elem t u cs') = true).
  { cbn [settled]. rewrite (Hs' Hs1). exact (Hok' Hs2). }
  unfold kept. cbn [target nextUid underlines childrenOf].
  destruct Hsp as [Hsame|(l1 & l2 & Hl & Hl')].
  - split.
    + exists cs'. rewrite Hsame. repeat split; auto. congruence.
    + rewrite Hsame. intros v Hin. destruct (Hv v Hin) as [H1 H2].
      split; [lia | apply in_app_iff; now left].
  - assert (Hfresh : ~ In (nextUid s) (l1 ++ l2)).
    { rewrite <- Hl. intros Hin. apply Hv in Hin. lia. }
    split.
    + exists cs'. repeat split; auto; [congruence|].
      rewrite Hl'. apply (NoDup_Add (a := nextUid s) (l := l1 ++ l2)).
      * apply Add_app.
      * split; [now rewrite <- Hl | exact Hfresh].
    + rewrite Hl'. intros v Hin.
      apply in_app_iff in Hin. destruct Hin as [Hin|[<-|Hin]].
      * assert (Hin' : In v (spansIn cs)) by (rewrite Hl; apply in_app_iff; now left).
        destruct (Hv v Hin'). split; [lia | apply in_app_iff; now left].
      * split; [lia | apply in_app_iff; right; now left].
      * assert (Hin' : In v (spansIn cs)) by (rewrite Hl; apply in_app_iff; now right).
        destruct (Hv v Hin'). split; [lia | apply in_app_iff; now left].
Qed.

Lemma render_kept (l : list issue) : forall s,
  kept s -> noElementCut l s = true -> kept (fold_left renderSingleUnderline l s).
Proof.
  induction l as [|i l IH]; intros s H Hc; [exact H|].
  cbn [noElementCut] in Hc. apply andb_prop in Hc. destruct Hc as [H1 H2].
  cbn [fold_left]. apply IH; [now apply renderSingleUnderline_kept | exact H2].
Qed.

Lemma removeUnderline_element (uid : nat) (cs : list node) :
  removeUnderline uid (Elem t u cs)
  = Elem t u (childrenOf (removeUnderline uid (Elem t u cs))).
Proof. cbn [removeUnderline]. destruct (existsb (isSpan uid) cs); reflexivity. Qed.

Lemma removeUnderline_keptTree (uid : nat) (n : node) :
  keptTree n ->
  keptTree (removeUnderline uid n)
  /\ forall v, In v (spansIn (childrenOf (removeUnderline uid n))) ->
       In v (spansIn (childrenOf n)) /\ v <> uid.
Proof.
  intros (cs & -> & Hb & Hs & Hnd).
  set (cs' := childrenOf (removeUnderline uid (Elem t u cs))).
  assert (Hb' : bare cs' = cs0).
  { pose proof (withoutMarkers_removeUnderline uid (Elem t u cs)) as H.
    rewrite removeUnderline_element in H. fold cs' in H.
    unfold sameMerged in H. cbn [withoutMarkers mergeTexts] in H.
    injection H as H. rewrite <- Hb. exact H. }
  assert (Hs' : settled (Elem t u cs') = true).
  { subst cs'. rewrite <- removeUnderline_element. now apply settled_removeUnderline. }
  destruct (in_dec Nat.eq_dec uid (spansIn cs)) as [Hin|Hnot].
  - destruct (removeUnderline_removes uid (Elem t u cs) Hnd Hin) as (l1 & l2 & H1 & H2).
    cbn [childrenOf] in H1. fold cs' in H2.
    assert (Hnd' : NoDup (l1 ++ uid :: l2)) by now rewrite <- H1.
    split.
    + exists cs'. split; [apply removeUnderline_element|].
      split; [exact Hb'|].
      split; [rewrite removeUnderline_element; exact Hs'|].
      rewrite H2. now apply NoDup_remove_1 in Hnd'.
    + fold cs'. cbn [childrenOf]. rewrite H2, H1. intros v Hv.
      apply NoDup_remove_2 in Hnd'. split.
      * apply in_app_iff in Hv. apply in_app_iff. destruct Hv; [left|right; right]; auto.
      * intros ->. contradiction.
  - clear Hb' Hs'. subst cs'. rewrite removeUnderline_absent by exact Hnot. split.
    + exists cs. auto.
    + cbn [childrenOf]. intros v Hv. split; [exact Hv|]. intros ->. contradiction.
Qed.

Lemma clear_kept (us : list nat) : forall n,
  keptTree n ->
  (forall v, In v (spansIn (childrenOf n)) -> In v us) ->
  fold_left (fun t' uid => removeUnderline uid t') us n = Elem t u cs0.
Proof.
  induction us as [|uid us IH]; intros n Ht Hsub; cbn [fold_left].
  - destruct Ht as (cs & -> & Hb & Hs & Hnd). cbn [childrenOf] in Hsub.
    assert (Hn : spansIn cs = []).
    { destruct (spansIn cs) as [|v l]; [reflexivity|].
      destruct (Hsub v (or_introl eq_refl)). }
    rewrite <- Hb. now rewrite (bare_fixed t u cs Hs Hn).
  - destruct (removeUnderline_keptTree uid n Ht) as [Ht' Hv'].
    apply IH; auto. intros v Hv. destruct (Hv' v Hv) as [H1 H2].
    destruct (Hsub v H1) as [E|E]; [congruence | exact E].
Qed.

End RoundTrip.

(** A target in the form [normalize] leaves and without markers, after a
    run none of whose ranges cuts through an element and the clearing of
    its markers, is node for node what it was. *)
Lemma render_clear_under_one_parent (element : node) (issues : list issue) :
  normalize element = element -> spansOf element = [] ->
  noElementCut (sortIssues issues) (init element) = true ->
  target (clearUnderlines (renderUnderlines issues (init element))) = element.
Proof.
  intros Hn Hs Hc. unfold renderUnderlines.
  change (clearUnderlines (init element)) with (init element).
  destruct element as [d|t u cs0|k s cs0]; [| |discriminate].
  - rewrite render_nothing_accepted; reflexivity.
  - assert (Hset : settled (Elem t u cs0) = true).
    { apply normalised_settled. rewrite <- Hn. apply normalised_normalize. }
    assert (H0 : kept t u cs0 (init (Elem t u cs0))).
    { split.
      - exists cs0. repeat split; auto.
        + now apply (bare_fixed t u).
        + cbn [spansOf] in Hs. fold (spansIn cs0) in Hs. rewrite Hs. constructor.
      - cbn [init target childrenOf]. cbn [spansOf] in Hs. fold (spansIn cs0) in Hs.
        rewrite Hs. intros v []. }
    pose proof (render_kept t u cs0 (sortIssues issues) _ H0 Hc) as [Ht Hv].
    unfold clearUnderlines. cbn [target].
    apply (clear_kept t u cs0); auto. intros v Hin. now apply Hv.
Qed.

(** *** Targets whose text nodes are all children of the target

    When the elements below the target hold no text the walker accepts (a
    line break, an image, an element of white space), both ends of every
    range are children of the target, whatever the issues are. *)

(** A child that brings no text of its own: a text node, or a node under
    which the walker accepts nothing. *)
Definition noTextBelow (c : node) : Prop :=
  match c with
  | Text _ => True
  | _ => acceptedIn c = []
  end.

Lemma acceptedAmong_children (u : bool) (cs : list node) :
  Forall noTextBelow cs ->
  forall i0 p d, In (p, d) (acceptedAmong acceptedIn u i0 cs) ->
  exists k, p = [(i0 + k)%nat] /\ nth_error cs k = Some (Text d).
Proof.
  induction 1 as [|c cs Hc _ IH]; intros i0 p d Hin; [destruct Hin|].
  cbn [acceptedAmong] in Hin. fold (acceptedAmong acceptedIn u) in Hin.
  apply in_app_iff in Hin. destruct Hin as [Hin|Hin].
  - destruct c as [d0|t u' c'|k s c'].
    + destruct (u || isBlank d0); [destruct Hin|].
      destruct Hin as [Hin|[]]. inversion Hin; subst.
      exists 0%nat. rewrite Nat.add_0_r. auto.
    + cbn [noTextBelow] in Hc. rewrite Hc in Hin. destruct Hin.
    + cbn [noTextBelow] in Hc. rewrite Hc in Hin. destruct Hin.
  - destruct (IH (S i0) p d Hin) as (k & -> & Hk).
    exists (S k). rewrite Nat.add_succ_r. auto.
Qed.

Lemma acceptedAmong_marker (cs : list node) :
  Forall noTextBelow cs -> forall i0, acceptedAmong acceptedIn true i0 cs = [].
Proof.
  induction 1 as [|c cs Hc _ IH]; intros i0; [reflexivity|].
  cbn [acceptedAmong]. fold (acceptedAmong acceptedIn true). rewrite IH.
  destruct c as [d|t u c'|k s c']; [reflexivity| |];
    cbn [noTextBelow] in Hc; now rewrite Hc.
Qed.

Lemma noTextBelow_wrap (uid : nat) (s : string) (i j so eo : nat)
    (cs : list node) (d1 d2 : string) :
  Forall noTextBelow cs ->
  nth_error cs i = Some (Text d1) -> nth_error cs j = Some (Text d2) ->
  Forall noTextBelow (wrapForest (Span uid s) [i] [j] so eo cs).
Proof.
  intros H Hi Hj. cbn [wrapForest].
  destruct (Nat.eqb_spec i j) as [->|Hne].
  - rewrite Hj. pose proof (nth_error_decompose cs j _ Hj) as Hd.
    set (L := firstn j cs) in *. set (R := skipn (S j) cs) in *.
    clearbody L R. rewrite Hd in H. apply Forall_app in H. destruct H as [HL HR].
    inversion HR as [|? ? _ HR']; subst.
    unfold wrapInText.
    destruct (splitAt (Nat.min so eo) d2) as [pre rest].
    destruct (splitAt (eo - Nat.min so eo) rest) as [mid post].
    apply Forall_app. split; [exact HL|].
    constructor; [exact I|]. constructor.
    + cbn [noTextBelow acceptedIn].
      destruct (Nat.eqb (Nat.min so eo) eo); reflexivity.
    + constructor; [exact I | exact HR'].
  - destruct (Nat.ltb_spec i j) as [Hlt|_]; [|exact H].
    rewrite Hi, Hj. cbn [cutRight cutLeft].
    destruct (splitAt so d1) as [a b]. destruct (splitAt eo d2) as [a' b'].
    pose proof (nth_error_decompose2 cs i j _ _ Hlt Hi Hj) as Hd.
    set (L := firstn i cs) in *. set (M := firstn (j - i - 1) (skipn (S i) cs)) in *.
    set (R := skipn (S j) cs) in *.
    clearbody L M R. rewrite Hd in H. apply Forall_app in H. destruct H as [HL H].
    inversion H as [|? ? _ H']; subst. apply Forall_app in H'. destruct H' as [HM H'].
    inversion H' as [|? ? _ HR]; subst.
    apply Forall_app. split; [exact HL|].
    constructor; [exact I|]. constructor.
    + cbn [noTextBelow acceptedIn]. apply acceptedAmong_marker.
      cbn [app]. constructor; [exact I|]. apply Forall_app. split; [exact HM|].
      constructor; [exact I | constructor].
    + constructor; [exact I | exact HR].
Qed.

(** The state of a run on such a target. *)
Definition textInChildren (s : state) : Prop :=
  exists t u cs, target s = Elem t u cs /\ Forall noTextBelow cs.

Lemma textInChildren_step (s : state) (i : issue) :
  textInChildren s ->
  underOneParent s i = true /\ textInChildren (renderSingleUnderline s i).
Proof.
  intros (t & u & cs & Ht & H).
  unfold underOneParent, renderSingleUnderline, getTextNodes. rewrite Ht.
  cbn [acceptedIn childrenOf withChildren].
  destruct (createRangeFromIndices _ _ _) as [[b1 b2]|] eqn:E.
  2:{ split; [reflexivity|]. exists t, u, cs. auto. }
  unfold createRangeFromIndices in E. apply findRange_paths in E.
  destruct E as [[E1|(d1 & E1)] (d2 & E2)]; [discriminate|].
  apply (acceptedAmong_children u cs H) in E1. destruct E1 as (k1 & Hp1 & Hk1).
  apply (acceptedAmong_children u cs H) in E2. destruct E2 as (k2 & Hp2 & Hk2).
  rewrite Hp1, Hp2. cbn [Nat.add removelast samePath]. split; [reflexivity|].
  exists t, u, (wrapForest (Span (nextUid s) (issueId i)) [k1] [k2]
                  (Z.to_nat (bp_offset b1)) (Z.to_nat (bp_offset b2)) cs).
  split; [reflexivity|]. now apply (noTextBelow_wrap _ _ _ _ _ _ _ d1 d2).
Qed.

Lemma text_children_never_cut (l : list issue) : forall s,
  textInChildren s -> noElementCut l s = true.
Proof.
  induction l as [|i l IH]; intros s H; [reflexivity|].
  destruct (textInChildren_step s i H) as [H1 H2].
  cbn [noElementCut]. rewrite H1. cbn [andb]. now apply IH.
Qed.

(** Such a target, in the form [normalize] leaves and without markers, is
    node for node what it was after rendering and clearing, whatever the
    issues. *)
Lemma render_clear_text_children (t : string) (u : bool) (cs : list node)
    (issues : list issue) :
  normalize (Elem t u cs) = Elem t u cs -> spansIn cs = [] ->
  Forall noTextBelow cs ->
  target (clearUnderlines (renderUnderlines issues (init (Elem t u cs))))
  = Elem t u cs.
Proof.
  intros Hn Hs H. apply render_clear_under_one_parent; auto.
  apply text_children_never_cut. exists t, u, cs. auto.
Qed.

(** Two lines of text around a line break come back as they were after
    any batch of issues. *)
Example two_lines_roundtrip (issues : list issue) :
  roundtrip (Elem "p" false [Text "ab"; Elem "br" false []; Text "cd"]) issues.
Proof.
  unfold roundtrip. cbv zeta.
  rewrite render_clear_text_children; [split; reflexivity | reflexivity..|].
  repeat constructor.
Qed.

(** A [div] with an element, a text node, another element and a text
    node. *)
Definition mixedDiv : node :=
  Elem "div" false
    [Elem "b" false [Text "ab"]; Text "cd"; Elem "i" false [Text "ef"]; Text "gh"].

(** Two issues on it: the first lies inside the text node of [b]; the range
    of the second runs from the text node [cd] to the text node [gh], both
    children of the [div], and takes the element [i] whole. *)
Example mixedDiv_rendered :
  target (renderUnderlines [mkIssue "i1" 0 1; mkIssue "i2" 2 6] (init mixedDiv))
  = Elem "div" false
      [Elem "b" false [Text ""; Span 0 "i1" [Text "a"]; Text "b"];
       Text "c";
       Span 1 "i2" [Text "d"; Elem "i" false [Text "ef"]; Text "g"];
       Text "h"].
Proof. reflexivity. Qed.

(** C3 (as amended).  For every target, every state of the renderer over
    it and every batch of issues, rendering and then clearing leaves the
    text content of the target string-equal.  For a target that is in the
    form [normalize] leaves (no empty text node, no two text nodes side by
    side) and holds no marker, and a batch none of whose ranges cuts through
    an element (both ends of each range lie in text nodes of one parent),
    rendering and then clearing leaves the target node for node as it was,
    so with the same text nodes. *)
Theorem render_clear_roundtrip_amended :
  (forall (issues : list issue) (s : state),
     textContent (target (clearUnderlines (renderUnderlines issues s)))
     = textContent (target s))
  /\ (forall (element : node) (issues : list issue),
        normalize element = element -> spansOf element = [] ->
        noElementCut (sortIssues issues) (init element) = true ->
        target (clearUnderlines (renderUnderlines issues (init element))) = element
        /\ roundtrip element issues).
Proof.
  split.
  - intros issues s. apply render_clear_text.
  - intros element issues Hn Hs Hc.
    pose proof (render_clear_under_one_parent element issues Hn Hs Hc) as H.
    split; [exact H|]. unfold roundtrip. cbv zeta. now rewrite H.
Qed.

Lemma render_clear_roundtrip_amended_witness :
  normalize mixedDiv = mixedDiv
  /\ spansOf mixedDiv = []
  /\ noElementCut (sortIssues [mkIssue "i1" 0 1; mkIssue "i2" 2 6]) (init mixedDiv)
     = true
  /\ target (clearUnderlines
               (renderUnderlines [mkIssue "i1" 0 1; mkIssue "i2" 2 6] (init mixedDiv)))
     = mixedDiv
  /\ roundtrip mixedDiv [mkIssue "i1" 0 1; mkIssue "i2" 2 6].
Proof.
  split; [reflexivity|]. split; [reflexivity|]. split; [reflexivity|].
  apply (proj2 render_clear_roundtrip_amended mixedDiv
           [mkIssue "i1" 0 1; mkIssue "i2" 2 6]); reflexivity.
Defined.

(** ** Rendering in any order, and offsets outside the text *)

(** Rendering never changes the text.  After the existing underlines of a
    target are cleared, rendering any issues one after the other, in
    whatever order and whether or not their offsets fit, leaves the text
    content of the target what it was before the call. *)
Theorem rendering_keeps_text (order : list issue) (s : state) :
  textContent (target (fold_left renderSingleUnderline order (clearUnderlines s)))
  = textContent (target s).
Proof.
  rewrite <- (clearUnderlines_text s). generalize (clearUnderlines s) as s0.
  induction order as [|i l IH]; intros s0; simpl; [reflexivity|].
  now rewrite IH, renderSingleUnderline_text.
Qed.

Definition totalLen (textNodes : list (path * string)) : Z :=
  fold_right (fun pd acc => Js.len (snd pd) + acc) 0 textNodes.

Lemma totalLen_nonneg textNodes : 0 <= totalLen textNodes.
Proof. induction textNodes as [|[p d] l IH]; simpl; unfold Js.len; lia. Qed.

Lemma len_append (a b : string) : Js.len (a ++ b) = Js.len a + Js.len b.
Proof.
  unfold Js.len. induction a as [|c a IH]; simpl String.length; [lia|].
  rewrite !Nat2Z.inj_succ. lia.
Qed.

Lemma totalLen_extracted (element : node) :
  totalLen (getTextNodes element) = Js.len (extractedText element).
Proof.
  unfold extractedText. induction (getTextNodes element) as [|[p d] l IH]; simpl.
  - reflexivity.
  - rewrite len_append, <- IH. reflexivity.
Qed.

(** The loop of [createRangeFromIndices] finds no end when the end index
    lies before the running index or past the last text node. *)
Lemma findRange_end_outside (textNodes : list (path * string)) :
  forall si ei ci start,
  ei < ci \/ ci + totalLen textNodes < ei ->
  findRange textNodes si ei ci start = None.
Proof.
  induction textNodes as [|[p d] l IH]; intros si ei ci start H; [reflexivity|].
  cbn [findRange]. cbn [totalLen fold_right snd] in H.
  fold (totalLen l) in H. pose proof (totalLen_nonneg l) as Hl.
  assert (Hd : 0 <= Js.len d) by (unfold Js.len; lia).
  replace ((ei >=? ci) && (ei <=? ci + Js.len d)) with false.
  - apply IH. lia.
  - symmetry. apply andb_false_iff. rewrite Z.geb_leb, !Z.leb_gt. lia.
Qed.

(** And it finds no start when the start index is negative. *)
Lemma findRange_start_negative (textNodes : list (path * string)) :
  forall si ei ci, si < 0 -> 0 <= ci ->
  findRange textNodes si ei ci None = None.
Proof.
  induction textNodes as [|[p d] l IH]; intros si ei ci Hs Hc; [reflexivity|].
  cbn [findRange].
  replace (si >=? ci) with false by (symmetry; rewrite Z.geb_leb; apply Z.leb_gt; lia).
  cbn [andb]. destruct (_ && _); [reflexivity|].
  apply IH; [exact Hs | unfold Js.len; lia].
Qed.

(** An issue outside the text. *)
Definition outside (element : node) (i : issue) : Prop :=
  startIndex i < 0 \/ endIndex i < 0
  \/ Js.len (extractedText element) < endIndex i.

(** Issues whose offsets lie outside the text the renderer indexes (a
    negative start or end, or an end past the last accepted text node)
    render nothing: the target and the set of underlines stay as they
    were. *)
Theorem outside_issues_render_nothing (l : list issue) (s : state) :
  Forall (outside (target s)) l ->
  fold_left renderSingleUnderline l s = s.
Proof.
  induction l as [|i l IH]; intros H; [reflexivity|].
  inversion H as [|? ? Hi Hl]; subst. cbn [fold_left].
  assert (E : renderSingleUnderline s i = s).
  { unfold renderSingleUnderline, createRangeFromIndices.
    destruct Hi as [Hi|[Hi|Hi]].
    - now rewrite findRange_start_negative.
    - rewrite findRange_end_outside; [reflexivity | now left].
    - rewrite findRange_end_outside; [reflexivity|].
      right. rewrite totalLen_extracted. lia. }
  rewrite E. now apply IH.
Qed.

Lemma outside_issues_render_nothing_witness :
  fold_left renderSingleUnderline
    [mkIssue "i1" (-1) 2; mkIssue "i2" 3 9; mkIssue "i3" 0 (-4)] (init plainDiv)
  = init plainDiv.
Proof.
  apply (outside_issues_render_nothing
           [mkIssue "i1" (-1) 2; mkIssue "i2" 3 9; mkIssue "i3" 0 (-4)]
           (init plainDiv)).
  repeat (apply Forall_cons; [unfold outside; vm_compute; intuition congruence|]).
  apply Forall_nil.
Defined.

Lemma single_issue_wraps_exact_witness :
  wraps_exact (Elem "div" false [Text "abcdefgh"]) [mkIssue "i1" 2 5].
Proof.
  apply (single_issue_wraps_exact "div" "abcdefgh" (mkIssue "i1" 2 5)).
  - reflexivity.
  - vm_compute. discriminate.
  - vm_compute. discriminate.
  - vm_compute. discriminate.
Defined.

End UnderlineRenderer.
